(** * PRO/II language server: lexer, parser and symbol table

    A shallow embedding of [server/src/types.ts], [server/src/lexer.ts],
    [server/src/parser.ts] and [server/src/symbolTable.ts], followed by
    the properties of the lexing / parsing / symbol-resolution pipeline.
    The hover provider ([server/src/symbolHoverProvider.ts]) and the
    handlers [parseDocument] and [validateDocument] of
    [server/src/server.ts] are embedded on top of it.

    Conventions of the embedding.
    - A JavaScript string is the list of its UTF-16 code units.
    - The lexer and the parser only ever move forward, so their cursor
      ([position]) is represented by the part of the input that is still
      ahead of it: [position = length input - length rest].
    - [while] loops whose every iteration consumes a character or a token
      are structural recursions on what is ahead; the other loops run on
      an iteration budget and report [Exhausted] when it runs out, so
      that a loop which never ends is one that is [Exhausted] on every
      budget.
    - An access to a property of [undefined] raises a [TypeError]:
      outcome [Throw]. *)

From Stdlib Require Import List Bool Arith NArith ZArith Lia String Ascii.
From Stdlib Require DecimalString.
Import ListNotations.

Set Implicit Arguments.

(* ================================================================== *)
(** * JavaScript strings *)
(* ================================================================== *)

Module Js.

(** One UTF-16 code unit. *)
Definition char := N.
Definition jsstring := list char.

Definition ch (a : ascii) : char := N_of_ascii a.

(** A string literal of the source, written with ASCII characters. *)
Definition str (s : string) : jsstring := map N_of_ascii (list_ascii_of_string s).

Fixpoint eqb (a b : jsstring) : bool :=
  match a, b with
  | [], [] => true
  | x :: a', y :: b' => N.eqb x y && eqb a' b'
  | _, _ => false
  end.

(** The characters the lexer compares against. *)
Definition NUL : char := 0%N.
Definition TAB : char := 9%N.
Definition LF : char := 10%N.
Definition CR : char := 13%N.
Definition SPACE : char := 32%N.
Definition DQUOTE : char := 34%N.
Definition SQUOTE : char := 39%N.

(** The values a JavaScript [number] takes in this program.  Every
    number of the pipeline is [parseFloat] of a token text; an integer
    literal of magnitude at most 2^53 denotes exactly that integer, and
    any other text is kept as the text [parseFloat] is applied to
    (floating point is not evaluated). *)
Inductive number :=
| Int (z : Z)
| ParseFloatOf (raw : jsstring).

Definition isDigitChar (c : char) : bool := (48 <=? c)%N && (c <=? 57)%N.

Fixpoint digitsValue (acc : N) (s : jsstring) : N :=
  match s with
  | [] => acc
  | c :: s' => digitsValue (acc * 10 + (c - 48))%N s'
  end.

Definition allDigits (s : jsstring) : bool :=
  match s with
  | [] => false
  | _ => forallb isDigitChar s
  end.

Definition parseFloat (raw : jsstring) : number :=
  let small (n : N) := (n <=? 9007199254740992)%N in
  match raw with
  | 45%N :: ds =>
      if allDigits ds && small (digitsValue 0 ds) && negb (digitsValue 0 ds =? 0)%N
      then Int (- Z.of_N (digitsValue 0 ds))
      else ParseFloatOf raw
  | _ =>
      if allDigits raw && small (digitsValue 0 raw)
      then Int (Z.of_N (digitsValue 0 raw))
      else ParseFloatOf raw
  end.

(** [String.prototype.toUpperCase] and [toLowerCase] are built-ins of
    the host; they follow the Unicode case mappings, which this
    development does not tabulate.  The program is embedded over an
    arbitrary pair of mappings, of which it is only known that the
    upper-case form of a string is left alone by [toUpperCase] (the
    upper-case mapping of a character yields characters that have no
    further upper-case mapping). *)
Class CaseMapping := {
  toUpperCase : jsstring -> jsstring;
  toLowerCase : jsstring -> jsstring;
  toUpperCase_idempotent :
    forall s, toUpperCase (toUpperCase s) = toUpperCase s
}.

(** The mappings on the code units that occur in the examples of this
    file: Basic Latin, and U+212A KELVIN SIGN, an upper-case letter whose
    lower case is U+006B.  Other code units are left as they are. *)
Definition upperUnit (c : char) : char :=
  if (97 <=? c)%N && (c <=? 122)%N then (c - 32)%N else c.

Definition lowerUnit (c : char) : char :=
  if (65 <=? c)%N && (c <=? 90)%N then (c + 32)%N
  else if (c =? 8490)%N then 107%N else c.

Definition basicLatin : CaseMapping.
Proof.
  refine {| toUpperCase := map upperUnit; toLowerCase := map lowerUnit |}.
  intros s. rewrite map_map. apply map_ext. intros c. unfold upperUnit.
  destruct ((97 <=? c)%N && (c <=? 122)%N) eqn:E; [|rewrite E; reflexivity].
  apply andb_prop in E. destruct E as [E1 E2].
  apply N.leb_le in E1. apply N.leb_le in E2.
  replace (97 <=? c - 32)%N with false; [reflexivity|].
  symmetry. apply N.leb_gt. lia.
Defined.

(** [text.split(/\r?\n/)]: the lines of a text, line terminators removed. *)
Fixpoint splitLines (cur : jsstring) (s : jsstring) : list jsstring :=
  match s with
  | [] => [rev cur]
  | 13%N :: 10%N :: s' => rev cur :: splitLines [] s'
  | 10%N :: s' => rev cur :: splitLines [] s'
  | c :: s' => splitLines (c :: cur) s'
  end.

End Js.

Import Js.

(* ================================================================== *)
(** * Tokens ([types.ts]) *)
(* ================================================================== *)

(** The members of [enum TokenType], followed by the members that
    [parser.ts] names ([TokenType.COMPONENT], [TokenType.DATA], ...) and
    that [types.ts] does not declare.  [KEYWORDS] never yields one of
    the latter, so no token of the lexer carries them; they are kept as
    constructors so that the parser is embedded as it is written. *)
Inductive TokenType :=
| NUMBER | IDENTIFIER | STRING
| COMPONENT_DATA | STREAM_DATA | THERMODYNAMIC_DATA | UNIT_OPERATIONS
| FLASH | COLUMN | HCURVE | HX | COMPRESSOR | PUMP | MIXER | SPLITTER
| VALVE | REACTOR | CALCULATOR | STCALC
| UID | NAME | FEED | PROD | PRODUCT | TEMP | TEMPERATURE | PRES | PRESSURE
| RATE | COMP | LIBID | BANK | METHOD | SET | SPEC | VARY | DEFINE
| SRK | PR | NRTL
| EQUALS | COMMA | SLASH | PLUS | MINUS | TIMES | DIVIDE | LPAREN | RPAREN
| COMMENT | CONTINUATION | NEWLINE
| EOF | UNKNOWN
| COMPONENT | DATA | STREAM | THERMODYNAMIC | PRINT | PROP | TYPE | INPUT | RESULT.

Definition TokenType_eq_dec (a b : TokenType) : {a = b} + {a <> b}.
Proof. decide equality. Defined.

Definition tt_eqb (a b : TokenType) : bool :=
  if TokenType_eq_dec a b then true else false.

Record Token := mkToken {
  type : TokenType;
  value : jsstring;
  line : nat;
  column : nat;
  length : nat
}.

(** [KEYWORDS], as [types.ts] has it. *)
Definition KEYWORDS_table : list (string * TokenType) :=
  [ ("COMPONENT", COMPONENT_DATA); ("STREAM", STREAM_DATA);
    ("THERMODYNAMIC", THERMODYNAMIC_DATA); ("UNIT", UNIT_OPERATIONS);
    ("FLASH", FLASH); ("COLUMN", COLUMN); ("HCURVE", HCURVE); ("HX", HX);
    ("COMPRESSOR", COMPRESSOR); ("PUMP", PUMP); ("MIXER", MIXER);
    ("SPLITTER", SPLITTER); ("VALVE", VALVE); ("REACTOR", REACTOR);
    ("CALCULATOR", CALCULATOR); ("STCALC", STCALC);
    ("UID", UID); ("NAME", NAME); ("FEED", FEED); ("PROD", PROD);
    ("PRODUCT", PRODUCT); ("TEMP", TEMP); ("TEMPERATURE", TEMPERATURE);
    ("PRES", PRES); ("PRESSURE", PRESSURE); ("RATE", RATE); ("COMP", COMP);
    ("LIBID", LIBID); ("BANK", BANK); ("METHOD", METHOD); ("SET", SET);
    ("SPEC", SPEC); ("VARY", VARY); ("DEFINE", DEFINE);
    ("SRK", SRK); ("PR", PR); ("NRTL", NRTL) ]%string.

(** [KEYWORDS.get(k)] *)
Definition KEYWORDS_get (k : jsstring) : option TokenType :=
  match find (fun p => Js.eqb (str (fst p)) k) KEYWORDS_table with
  | Some p => Some (snd p)
  | None => None
  end.

(* ================================================================== *)
(** * The lexer ([lexer.ts]) *)
(* ================================================================== *)

Module Lexer.
Section WithCaseMapping.
Context {cm : CaseMapping}.

(** The fields of [class Lexer].  [ahead] is [input.slice(position)].
    [discarded] is a ghost counter: it counts the characters that
    [scanToken] drops as insignificant white space, which the source does
    not record. *)
Record State := mkState {
  ahead : jsstring;
  curLine : nat;
  curColumn : nat;
  tokens : list Token;
  discarded : nat
}.

Definition isAtEnd (s : State) : bool :=
  match ahead s with [] => true | _ => false end.

Definition currentChar (s : State) : char :=
  match ahead s with [] => NUL | c :: _ => c end.

Definition peek (s : State) : char :=
  match ahead s with _ :: c :: _ => c | _ => NUL end.

Definition advance (s : State) : State :=
  match ahead s with
  | [] => s
  | _ :: rest =>
      mkState rest (curLine s) (S (curColumn s)) (tokens s) (discarded s)
  end.

Definition isDigit (c : char) : bool := (48 <=? c)%N && (c <=? 57)%N.

Definition isAlpha (c : char) : bool :=
  ((97 <=? c)%N && (c <=? 122)%N) || ((65 <=? c)%N && (c <=? 90)%N).

Definition isAlphaNumeric (c : char) : bool := isAlpha c || isDigit c.

Definition createToken (ty : TokenType) (v : jsstring) (len : nat)
    (startColumn : option nat) (s : State) : Token :=
  mkToken ty v (curLine s)
          (match startColumn with Some c => c | None => curColumn s end) len.

Definition push (t : Token) (s : State) : State :=
  mkState (ahead s) (curLine s) (curColumn s) (tokens s ++ [t]) (discarded s).

(** [while (p(currentChar())) { value += currentChar(); advance(); }]
    for a test [p] that fails at the end of the input: the longest
    prefix of what is ahead whose characters pass [p]. *)
Fixpoint span (p : char -> bool) (l : jsstring) : jsstring * jsstring :=
  match l with
  | [] => ([], [])
  | c :: l' =>
      if p c then let (a, b) := span p l' in (c :: a, b) else ([], l)
  end.

Definition takeWhile (p : char -> bool) (s : State) : jsstring * State :=
  let (taken, rest) := span p (ahead s) in
  (taken,
   mkState rest (curLine s) (curColumn s + List.length taken)
           (tokens s) (discarded s)).

Definition scanComment (s : State) : State :=
  let startColumn := curColumn s in
  let commentChar := currentChar s in
  let s1 := advance s in
  let (body, s2) := takeWhile (fun c => negb (c =? LF)%N) s1 in
  let v := commentChar :: body in
  push (createToken COMMENT v (List.length v) (Some startColumn) s2) s2.

Definition scanNumber (s : State) : State :=
  let startColumn := curColumn s in
  (* negative sign *)
  let '(v0, s0) :=
    if (currentChar s =? ch "-")%N then ([ch "-"], advance s) else ([], s) in
  (* integer part *)
  let '(ds, s1) := takeWhile isDigit s0 in
  let v1 := v0 ++ ds in
  (* decimal part *)
  let '(v2, s2) :=
    if (currentChar s1 =? ch ".")%N && isDigit (peek s1) then
      let '(fs, s') := takeWhile isDigit (advance s1) in
      (v1 ++ [ch "."] ++ fs, s')
    else (v1, s1) in
  (* scientific notation *)
  let '(v3, s3) :=
    if (currentChar s2 =? ch "E")%N || (currentChar s2 =? ch "e")%N then
      let va := v2 ++ [currentChar s2] in
      let sa := advance s2 in
      let '(vb, sb) :=
        if (currentChar sa =? ch "+")%N || (currentChar sa =? ch "-")%N
        then (va ++ [currentChar sa], advance sa) else (va, sa) in
      let '(es, sc) := takeWhile isDigit sb in
      (vb ++ es, sc)
    else (v2, s2) in
  push (createToken NUMBER v3 (List.length v3) (Some startColumn) s3) s3.

Definition scanIdentifier (s : State) : State :=
  let startColumn := curColumn s in
  let '(v, s1) := takeWhile (fun c => isAlphaNumeric c || (c =? ch "_")%N) s in
  let upperValue := toUpperCase v in
  let tokenType :=
    match KEYWORDS_get upperValue with Some ty => ty | None => IDENTIFIER end in
  push (createToken tokenType v (List.length v) (Some startColumn) s1) s1.

Definition scanString (quote : char) (s : State) : State :=
  let startColumn := curColumn s in
  let s0 := advance s in
  let '(body, s1) :=
    takeWhile (fun c => negb (c =? quote)%N && negb (c =? LF)%N) s0 in
  let v1 := quote :: body in
  let '(v2, s2) :=
    if (currentChar s1 =? quote)%N
    then (v1 ++ [quote], advance s1) else (v1, s1) in
  push (createToken STRING v2 (List.length v2) (Some startColumn) s2) s2.

(** A single-character token. *)
Definition single (ty : TokenType) (c : char) (s : State) : State :=
  let col := curColumn s in
  let s1 := advance s in
  push (createToken ty [c] 1 (Some col) s1) s1.

(** The characters for which [scanToken] has a rule. *)
Definition isWhitespace (c : char) : bool :=
  (c =? SPACE)%N || (c =? TAB)%N || (c =? CR)%N.

Definition operatorOf (c : char) : option TokenType :=
  if (c =? ch "=")%N then Some EQUALS
  else if (c =? ch ",")%N then Some COMMA
  else if (c =? ch "/")%N then Some SLASH
  else if (c =? ch "+")%N then Some PLUS
  else if (c =? ch "*")%N then Some TIMES
  else if (c =? ch "(")%N then Some LPAREN
  else if (c =? ch ")")%N then Some RPAREN
  else None.

Definition scanToken (s : State) : State :=
  let c := currentChar s in
  if isWhitespace c then
    let s1 := advance s in
    mkState (ahead s1) (curLine s1) (curColumn s1) (tokens s1) (S (discarded s1))
  else if (c =? LF)%N then
    let col := curColumn s in
    let s1 := advance s in
    let s2 := push (mkToken NEWLINE [LF] (curLine s1) col 1) s1 in
    mkState (ahead s2) (S (curLine s2)) 1 (tokens s2) (discarded s2)
  else if (c =? ch "$")%N || (c =? ch "%")%N then scanComment s
  else if (c =? ch "&")%N then single CONTINUATION c s
  else if (c =? ch "=")%N then single EQUALS c s
  else if (c =? ch ",")%N then single COMMA c s
  else if (c =? ch "/")%N then single SLASH c s
  else if (c =? ch "+")%N then single PLUS c s
  else if (c =? ch "-")%N then
    if isDigit (peek s) then scanNumber s else single MINUS c s
  else if (c =? ch "*")%N then single TIMES c s
  else if (c =? ch "(")%N then single LPAREN c s
  else if (c =? ch ")")%N then single RPAREN c s
  else if isDigit c then scanNumber s
  else if isAlpha c then scanIdentifier s
  else if (c =? DQUOTE)%N || (c =? SQUOTE)%N then scanString c s
  else single UNKNOWN c s.

(** A character that matches no rule of [scanToken]. *)
Definition unrecognized (c : char) : bool :=
  negb (isWhitespace c || (c =? LF)%N
        || (c =? ch "$")%N || (c =? ch "%")%N || (c =? ch "&")%N
        || (c =? ch "=")%N || (c =? ch ",")%N || (c =? ch "/")%N
        || (c =? ch "+")%N || (c =? ch "-")%N || (c =? ch "*")%N
        || (c =? ch "(")%N || (c =? ch ")")%N
        || isDigit c || isAlpha c || (c =? DQUOTE)%N || (c =? SQUOTE)%N).

Definition init (input : jsstring) : State := mkState input 1 1 [] 0.

(** [while (this.position < this.input.length) this.scanToken();] on a
    budget of iterations: [None] when the budget runs out first. *)
Fixpoint scanAll (budget : nat) (s : State) : option State :=
  if isAtEnd s then Some s
  else match budget with
       | 0 => None
       | S b => scanAll b (scanToken s)
       end.

Definition finish (s : State) : list Token :=
  tokens s ++ [createToken EOF [] 0 None s].

Definition tokenizeWithin (budget : nat) (input : jsstring) : option (list Token) :=
  option_map finish (scanAll budget (init input)).

(** [new Lexer(input).tokenize()].  One iteration per character is
    always enough ([scanAll_enough] below). *)
Definition tokenize (input : jsstring) : list Token :=
  match tokenizeWithin (List.length input) input with
  | Some ts => ts
  | None => []
  end.

(** The white space characters [tokenize] drops. *)
Definition discardedBy (input : jsstring) : nat :=
  match scanAll (List.length input) (init input) with
  | Some s => discarded s
  | None => 0
  end.

End WithCaseMapping.

(** ** Vocabulary of the lexer's properties *)

(** [s'] is [s] with its cursor moved over [n] characters. *)
Definition consumes (n : nat) (s s' : State) : Prop :=
  List.length (ahead s) = n + List.length (ahead s')
  /\ tokens s' = tokens s /\ discarded s' = discarded s.

(** [s'] is [s] after one token was scanned: the token is the last of
    [tokens s'] and its length is the number of characters passed. *)
Definition emits (s s' : State) : Prop :=
  exists t, tokens s' = tokens s ++ [t]
            /\ discarded s' = discarded s
            /\ List.length (ahead s) = length t + List.length (ahead s')
            /\ 0 < length t.

(** [s'] is [s] after one white space character was dropped. *)
Definition skips (s s' : State) : Prop :=
  tokens s' = tokens s /\ discarded s' = S (discarded s)
  /\ List.length (ahead s) = 1 + List.length (ahead s').

(** The number of characters the tokens [ts] stand for. *)
Definition sumLengths (ts : list Token) : nat :=
  fold_right (fun t n => length t + n) 0 ts.


(** What [scanToken] keeps unchanged: the characters already turned
    into tokens, those dropped, and those still ahead add up to the
    input. *)
Definition accounted (s : State) : nat :=
  sumLengths (tokens s) + discarded s + List.length (ahead s).

End Lexer.

(* ================================================================== *)
(** * The syntax tree ([ast.ts]) *)
(* ================================================================== *)

Record NumberNode := mkNumber {
  num_startLine : nat;
  num_endLine : nat;
  num_value : number;
  num_raw : jsstring
}.

Record IdentifierNode := mkIdentifier {
  id_startLine : nat;
  id_endLine : nat;
  name : jsstring
}.

Record StringNode := mkString {
  str_startLine : nat;
  str_endLine : nat;
  str_value : jsstring
}.

Inductive Separator := SepComma | SepSlash.

#[local] Set Warnings "-register-all".

Inductive ValueNode :=
| VNumber (n : NumberNode)
| VIdentifier (i : IdentifierNode)
| VString (s : StringNode)
| VList (startLine endLine : nat) (values : list ValueNode) (separator : Separator).

Record ParameterNode := mkParameter {
  par_startLine : nat;
  par_endLine : nat;
  par_name : IdentifierNode;
  par_value : ValueNode
}.

Record StreamReferenceNode := mkStreamReference {
  ref_startLine : nat;
  ref_endLine : nat;
  streamName : IdentifierNode;
  streamType : option jsstring
}.

Record ComponentNode := mkComponent {
  comp_startLine : nat;
  comp_endLine : nat;
  identifier : jsstring;
  libid : option NumberNode
}.

Record UnitOperationNode := mkUnitOperation {
  unit_statementType : jsstring;
  unit_startLine : nat;
  unit_endLine : nat;
  uid : option IdentifierNode;
  unit_parameters : list ParameterNode;
  feedStreams : list StreamReferenceNode;
  productStreams : list StreamReferenceNode
}.

Inductive ComponentStatementType := LIBID_stmt | NAME_stmt | BANK_stmt.

Record ComponentDataNode := mkComponentData {
  cd_statementType : ComponentStatementType;
  cd_startLine : nat;
  cd_endLine : nat;
  components : list ComponentNode
}.

Inductive StreamStatementType := PROP_stmt | COMP_stmt.

Record StreamDataNode := mkStreamData {
  sd_statementType : StreamStatementType;
  sd_startLine : nat;
  sd_endLine : nat;
  sd_streamName : IdentifierNode;
  dataType : jsstring;
  sd_parameters : list ParameterNode
}.

Inductive ThermodynamicStatementType := METHOD_stmt | SET_stmt.

Record ThermodynamicDataNode := mkThermodynamicData {
  td_statementType : ThermodynamicStatementType;
  td_startLine : nat;
  td_endLine : nat;
  method : option jsstring;
  td_parameters : list ParameterNode
}.

Record PrintStatementNode := mkPrintStatement {
  pr_startLine : nat;
  pr_endLine : nat;
  pr_parameters : list ParameterNode
}.

Inductive StatementNode :=
| UnitOperation (n : UnitOperationNode)
| ComponentData (n : ComponentDataNode)
| StreamData (n : StreamDataNode)
| ThermodynamicData (n : ThermodynamicDataNode)
| PrintStatement (n : PrintStatementNode).

Inductive SectionType :=
| SEC_COMPONENT_DATA | SEC_STREAM_DATA | SEC_THERMODYNAMIC_DATA
| SEC_UNIT_OPERATIONS | SEC_PRINT | SEC_OTHER.

Record SectionNode := mkSection {
  sec_startLine : nat;
  sec_endLine : nat;
  sectionType : SectionType;
  statements : list StatementNode
}.

Record ProgramNode := mkProgram {
  prog_startLine : nat;
  prog_endLine : nat;
  sections : list SectionNode
}.

(* ================================================================== *)
(** * The parser ([parser.ts]) *)
(* ================================================================== *)

Module Parser.

(** The fields of [class Parser]: [ahead] is [tokens.slice(position)]. *)
Record State := mkState {
  ahead : list Token;
  currentLine : nat
}.

(** How a call ends: it returns a value and leaves a state, it throws a
    [TypeError], or one of its loops exhausts the iteration budget. *)
Inductive Outcome (A : Type) :=
| Return (a : A) (s : State)
| Throw
| Exhausted.
Arguments Throw {A}.
Arguments Exhausted {A}.

Definition M (A : Type) := State -> Outcome A.

Definition ret {A} (a : A) : M A := fun s => Return a s.

Definition bind {A B} (m : M A) (k : A -> M B) : M B :=
  fun s =>
    match m s with
    | Return a s' => k a s'
    | Throw => Throw
    | Exhausted => Exhausted
    end.

Declare Scope parser_scope.
Delimit Scope parser_scope with parser.
Notation "x <- m ;; k" := (bind m (fun x => k))
  (at level 61, m at next level, right associativity) : parser_scope.
Notation "' p <- m ;; k" := (bind m (fun x => let 'p := x in k))
  (at level 61, p pattern, m at next level, right associativity) : parser_scope.
Notation "m ;; k" := (bind m (fun _ => k))
  (at level 61, right associativity) : parser_scope.
Local Open Scope parser_scope.

(** A loop body either asks for another iteration or leaves the loop. *)
Inductive Ctl (A : Type) :=
| Continue (a : A)
| Break (a : A).

(** A [while] loop over the variables [a], on a budget of iterations. *)
Fixpoint loop {A} (budget : nat) (body : A -> M (Ctl A)) (a : A) : M A :=
  fun s =>
    match budget with
    | 0 => Exhausted
    | S b =>
        match body a s with
        | Return (Continue a') s' => loop b body a' s'
        | Return (Break a') s' => Return a' s'
        | Throw => Throw
        | Exhausted => Exhausted
        end
    end.

(** ** Helper methods *)

(** [this.tokens[this.position]], [undefined] past the last token. *)
Definition currentOpt (s : State) : option Token := hd_error (ahead s).

Definition peekOpt (s : State) : option Token :=
  match ahead s with
  | _ :: t :: _ => Some t
  | _ => None
  end.

Definition isAtEndS (s : State) : bool :=
  match ahead s with
  | [] => true
  | t :: _ => tt_eqb (type t) EOF
  end.

Definition checkS (ty : TokenType) (s : State) : bool :=
  match ahead s with
  | [] => false
  | t :: _ => if tt_eqb (type t) EOF then false else tt_eqb (type t) ty
  end.

Definition checkNextS (ty : TokenType) (s : State) : bool :=
  match peekOpt s with
  | Some t => tt_eqb (type t) ty
  | None => false
  end.

Definition advanceS (s : State) : State :=
  match ahead s with
  | [] => s
  | t :: rest => if tt_eqb (type t) EOF then s else mkState rest (line t)
  end.

Definition getCurrentLineS (s : State) : nat :=
  match ahead s with
  | [] => currentLine s
  | t :: _ => if tt_eqb (type t) EOF then currentLine s else line t
  end.

(** [while (this.check(NEWLINE)) this.advance();] *)
Fixpoint consumeNewlinesL (l : list Token) (cl : nat) : State :=
  match l with
  | t :: rest =>
      if checkS NEWLINE (mkState l cl) then consumeNewlinesL rest (line t)
      else mkState l cl
  | [] => mkState l cl
  end.

Definition consumeNewlinesS (s : State) : State :=
  consumeNewlinesL (ahead s) (currentLine s).

Fixpoint skipWhitespaceAndCommentsL (l : list Token) (cl : nat) : State :=
  match l with
  | t :: rest =>
      if checkS NEWLINE (mkState l cl) || checkS COMMENT (mkState l cl)
      then skipWhitespaceAndCommentsL rest (line t)
      else mkState l cl
  | [] => mkState l cl
  end.

Definition skipWhitespaceAndCommentsS (s : State) : State :=
  skipWhitespaceAndCommentsL (ahead s) (currentLine s).

Fixpoint advanceToNewlineL (l : list Token) (cl : nat) : State :=
  match l with
  | t :: rest =>
      if negb (isAtEndS (mkState l cl)) && negb (checkS NEWLINE (mkState l cl))
      then advanceToNewlineL rest (line t)
      else mkState l cl
  | [] => mkState l cl
  end.

Definition advanceLineS (s : State) : State :=
  consumeNewlinesS (advanceToNewlineL (ahead s) (currentLine s)).

(** The same methods as computations. *)
Definition current : M (option Token) := fun s => Return (currentOpt s) s.

(** [this.current().p]: reading a property of the current token. *)
Definition currentToken : M Token :=
  fun s => match currentOpt s with Some t => Return t s | None => Throw end.

Definition isAtEnd : M bool := fun s => Return (isAtEndS s) s.
Definition check (ty : TokenType) : M bool := fun s => Return (checkS ty s) s.
Definition checkNext (ty : TokenType) : M bool := fun s => Return (checkNextS ty s) s.
Definition advance : M unit := fun s => Return tt (advanceS s).
Definition getCurrentLine : M nat := fun s => Return (getCurrentLineS s) s.
Definition consumeNewlines : M unit := fun s => Return tt (consumeNewlinesS s).
Definition skipWhitespaceAndComments : M unit :=
  fun s => Return tt (skipWhitespaceAndCommentsS s).
Definition advanceLine : M unit := fun s => Return tt (advanceLineS s).

Definition consume (ty : TokenType) : M bool :=
  b <- check ty ;;
  if b then advance ;; ret true else ret false.

Definition isUnitOperationType (ty : TokenType) : bool :=
  match ty with
  | FLASH | COLUMN | HCURVE | HX | COMPRESSOR | PUMP | MIXER | SPLITTER
  | VALVE | REACTOR | CALCULATOR | STCALC => true
  | _ => false
  end.

Definition isParameterKeyword (ty : TokenType) : bool :=
  match ty with
  | TEMP | PRES | RATE | TYPE | INPUT | RESULT => true
  | _ => false
  end.

Definition isNextSection : M bool :=
  c <- check COMPONENT ;; cd <- checkNext DATA ;;
  s <- check STREAM ;; sd <- checkNext DATA ;;
  t <- check THERMODYNAMIC ;; td <- checkNext DATA ;;
  u <- check UNIT_OPERATIONS ;;
  p <- check PRINT ;;
  ret ((c && cd) || (s && sd) || (t && td) || u || p).

Definition isListStart : M bool :=
  n <- check NUMBER ;; i <- check IDENTIFIER ;;
  if negb n && negb i then ret false
  else
    fun s =>
      match peekOpt s with
      | Some next => Return (tt_eqb (type next) COMMA || tt_eqb (type next) SLASH) s
      | None => Return false s
      end.

Section WithBudget.
Context {cm : CaseMapping}.

(** The budget of iterations given to each loop of one [parse] call. *)
Variable budget : nat.

(** ** Leaves *)

Definition parseNumber : M NumberNode :=
  token <- currentToken ;;
  let startLine := line token in
  advance ;;
  ret (mkNumber startLine startLine (parseFloat (value token)) (value token)).

Definition parseIdentifier : M IdentifierNode :=
  token <- currentToken ;;
  let startLine := line token in
  advance ;;
  ret (mkIdentifier startLine startLine (value token)).

(** [value.slice(1, -1)] when [value] starts and ends with the same
    quote character. *)
Definition dequote (v : jsstring) : jsstring :=
  let quoted (q : char) :=
    match v with
    | c :: _ => (c =? q)%N && (last v NUL =? q)%N
    | [] => false
    end in
  if quoted DQUOTE || quoted SQUOTE then removelast (tl v) else v.

Definition parseString : M StringNode :=
  token <- currentToken ;;
  let startLine := line token in
  advance ;;
  ret (mkString startLine startLine (dequote (value token))).

Definition numberOf (t : Token) : NumberNode :=
  mkNumber (line t) (line t) (parseFloat (value t)) (value t).

Definition identifierOf (t : Token) : IdentifierNode :=
  mkIdentifier (line t) (line t) (value t).

(** The [while] loop of [parseList]: each iteration consumes the
    separator under the cursor, then a number or an identifier if there
    is one, and leaves the loop otherwise.  [l] is what is ahead. *)
Fixpoint parseListRest (l : list Token) (cl : nat) (values : list ValueNode)
  : list ValueNode * State :=
  let s := mkState l cl in
  if checkS COMMA s || checkS SLASH s then
    match l with
    | [] => (values, s)
    | sep :: rest =>
        let s1 := mkState rest (line sep) in
        match rest with
        | v :: rest' =>
            if checkS NUMBER s1
            then parseListRest rest' (line v) (values ++ [VNumber (numberOf v)])
            else if checkS IDENTIFIER s1
            then parseListRest rest' (line v) (values ++ [VIdentifier (identifierOf v)])
            else (values, s1)
        | [] => (values, s1)
        end
    end
  else (values, s).

Definition parseList : M ValueNode :=
  startLine <- getCurrentLine ;;
  (* first value *)
  n <- check NUMBER ;;
  values <-
    (if n then v <- parseNumber ;; ret [VNumber v]
     else i <- check IDENTIFIER ;;
          if i then v <- parseIdentifier ;; ret [VIdentifier v] else ret []) ;;
  (* separator *)
  sl <- check SLASH ;;
  let separator := if sl then SepSlash else SepComma in
  (* remaining values *)
  values' <- (fun s =>
                let (vs, s') := parseListRest (ahead s) (currentLine s) values in
                Return vs s') ;;
  endLine <- getCurrentLine ;;
  ret (VList startLine endLine values' separator).

Definition parseValue : M ValueNode :=
  l <- isListStart ;;
  if l then parseList
  else
    n <- check NUMBER ;;
    if n then v <- parseNumber ;; ret (VNumber v)
    else
      st <- check STRING ;;
      if st then v <- parseString ;; ret (VString v)
      else v <- parseIdentifier ;; ret (VIdentifier v).

Definition parseParameter : M (option ParameterNode) :=
  startLine <- getCurrentLine ;;
  i <- check IDENTIFIER ;;
  kw <- (if i then ret true
         else t <- currentToken ;; ret (isParameterKeyword (type t))) ;;
  if negb kw then ret None
  else
    name <- parseIdentifier ;;
    e <- consume EQUALS ;;
    if negb e then ret None
    else
      value <- parseValue ;;
      endLine <- getCurrentLine ;;
      ret (Some (mkParameter startLine endLine name value)).

Definition parseStreamReference : M (option StreamReferenceNode) :=
  startLine <- getCurrentLine ;;
  i <- check IDENTIFIER ;;
  if negb i then ret None
  else
    streamName <- parseIdentifier ;;
    c <- consume COMMA ;;
    streamType <-
      (if c then
         i2 <- check IDENTIFIER ;;
         if i2 then
           t <- currentToken ;;
           advance ;;
           ret (Some (toUpperCase (value t)))
         else ret None
       else ret None) ;;
    endLine <- getCurrentLine ;;
    ret (Some (mkStreamReference startLine endLine streamName streamType)).

Definition parseComponent : M (option ComponentNode) :=
  startLine <- getCurrentLine ;;
  n <- check NUMBER ;;
  if n then
    libid <- parseNumber ;;
    consume SLASH ;;
    t <- currentToken ;;
    let identifier := value t in
    advance ;;
    endLine <- getCurrentLine ;;
    ret (Some (mkComponent startLine endLine identifier (Some libid)))
  else
    i <- check IDENTIFIER ;;
    if i then
      t <- currentToken ;;
      let identifier := value t in
      advance ;;
      sl <- consume SLASH ;;
      isNum <- (if sl then check NUMBER else ret false) ;;
      libid <- (if isNum then v <- parseNumber ;; ret (Some v) else ret None) ;;
      endLine <- getCurrentLine ;;
      ret (Some (mkComponent startLine endLine identifier libid))
    else ret None.

Definition pushOpt {A} (l : list A) (o : option A) : list A :=
  match o with Some a => l ++ [a] | None => l end.

(** ** Statements *)

(** [while (!isAtEnd() && !check(NEWLINE)) { continuation; item; if
    (!consume(COMMA)) break; }], the loop shared in shape by the
    component, stream and thermodynamic statements. *)
Definition itemsBody {A} (withContinuation : bool) (item : M (option A))
    (acc : list A) : M (Ctl (list A)) :=
  e <- isAtEnd ;; nl <- check NEWLINE ;;
  if e || nl then ret (Break acc)
  else
    c <- (if withContinuation then check CONTINUATION else ret false) ;;
    if c then advance ;; consumeNewlines ;; ret (Continue acc)
    else
      x <- item ;;
      let acc' := pushOpt acc x in
      comma <- consume COMMA ;;
      if comma then ret (Continue acc') else ret (Break acc').

(** The [do ... while (consume(COMMA))] of the PROD branch. *)
Definition productsBody (acc : list StreamReferenceNode)
  : M (Ctl (list StreamReferenceNode)) :=
  stream <- parseStreamReference ;;
  let acc' := pushOpt acc stream in
  comma <- consume COMMA ;;
  if comma then ret (Continue acc') else ret (Break acc').

Definition UnitVars : Type :=
  option IdentifierNode * list ParameterNode
  * list StreamReferenceNode * list StreamReferenceNode.

Definition unitBody (vars : UnitVars) : M (Ctl UnitVars) :=
  let '(uid, parameters, feeds, products) := vars in
  e <- isAtEnd ;; nl <- check NEWLINE ;;
  if e || nl then ret (Break vars)
  else
    c <- check CONTINUATION ;;
    if c then advance ;; consumeNewlines ;; ret (Continue vars)
    else
      vars' <-
        (u <- check UID ;;
         if u then
           advance ;;
           eq <- consume EQUALS ;;
           if eq then i <- parseIdentifier ;; ret (Some i, parameters, feeds, products)
           else ret vars
         else
           f <- check FEED ;;
           if f then
             advance ;;
             stream <- parseStreamReference ;;
             ret (uid, parameters, pushOpt feeds stream, products)
           else
             p <- check PROD ;; p' <- check PRODUCT ;;
             if p || p' then
               advance ;;
               products' <- loop budget productsBody products ;;
               ret (uid, parameters, feeds, products')
             else
               param <- parseParameter ;;
               ret (uid, pushOpt parameters param, feeds, products)) ;;
      consume COMMA ;;
      ret (Continue vars').

Definition parseUnitOperation : M (option UnitOperationNode) :=
  startLine <- getCurrentLine ;;
  unitType <- currentToken ;;
  if negb (isUnitOperationType (type unitType)) then ret None
  else
    let statementType := toUpperCase (value unitType) in
    advance ;;
    ' (uid, parameters, feeds, products) <- loop budget unitBody (None, [], [], []) ;;
    consumeNewlines ;;
    endLine <- getCurrentLine ;;
    ret (Some (mkUnitOperation statementType startLine endLine
                               uid parameters feeds products)).

Definition parseComponentStatement : M (option ComponentDataNode) :=
  startLine <- getCurrentLine ;;
  l <- check LIBID ;; n <- check NAME ;; b <- check BANK ;;
  match (if l then Some LIBID_stmt
         else if n then Some NAME_stmt
         else if b then Some BANK_stmt else None) with
  | None => advanceLine ;; ret None
  | Some statementType =>
      advance ;;
      components <- loop budget (itemsBody true parseComponent) [] ;;
      consumeNewlines ;;
      endLine <- getCurrentLine ;;
      ret (Some (mkComponentData statementType startLine endLine components))
  end.

Definition parseStreamStatement : M (option StreamDataNode) :=
  startLine <- getCurrentLine ;;
  p <- check PROP ;; c <- check COMP ;;
  match (if p then Some PROP_stmt else if c then Some COMP_stmt else None) with
  | None => advanceLine ;; ret None
  | Some statementType =>
      advance ;;
      d <- check DATA ;;
      dataType <-
        (if d then advance ;; ret (str "DATA")
         else r <- check RATE ;;
              if r then advance ;; ret (str "RATE") else ret []) ;;
      consume EQUALS ;;
      streamName <- parseIdentifier ;;
      consume COMMA ;;
      parameters <- loop budget (itemsBody true parseParameter) [] ;;
      consumeNewlines ;;
      endLine <- getCurrentLine ;;
      ret (Some (mkStreamData statementType startLine endLine
                              streamName dataType parameters))
  end.

Definition parseThermodynamicStatement : M (option ThermodynamicDataNode) :=
  startLine <- getCurrentLine ;;
  m <- check METHOD ;; st <- check SET ;;
  match (if m then Some METHOD_stmt else if st then Some SET_stmt else None) with
  | None => advanceLine ;; ret None
  | Some statementType =>
      advance ;;
      a <- check SRK ;; b <- check PR ;; c <- check NRTL ;;
      method <-
        (if a || b || c then
           t <- currentToken ;; advance ;; ret (Some (toUpperCase (value t)))
         else ret None) ;;
      parameters <- loop budget (itemsBody true parseParameter) [] ;;
      consumeNewlines ;;
      endLine <- getCurrentLine ;;
      ret (Some (mkThermodynamicData statementType startLine endLine
                                     method parameters))
  end.

Definition parsePrintStatement : M (option PrintStatementNode) :=
  startLine <- getCurrentLine ;;
  p <- check PRINT ;;
  if negb p then ret None
  else
    advance ;;
    parameters <- loop budget (itemsBody false parseParameter) [] ;;
    consumeNewlines ;;
    endLine <- getCurrentLine ;;
    ret (Some (mkPrintStatement startLine endLine parameters)).

(** ** Sections *)

(** [while (!isAtEnd() && !isNextSection()) { stmt = parse(); if (stmt)
    statements.push(stmt); skipWhitespaceAndComments(); }] *)
Definition statementsBody (stmt : M (option StatementNode))
    (acc : list StatementNode) : M (Ctl (list StatementNode)) :=
  e <- isAtEnd ;; n <- isNextSection ;;
  if e || n then ret (Break acc)
  else
    x <- stmt ;;
    skipWhitespaceAndComments ;;
    ret (Continue (pushOpt acc x)).

Definition asStatement {A} (wrap : A -> StatementNode) (m : M (option A))
  : M (option StatementNode) :=
  x <- m ;; ret (option_map wrap x).

Definition parseSection : M (option SectionNode) :=
  startLine <- getCurrentLine ;;
  c <- check COMPONENT ;; s <- check STREAM ;; t <- check THERMODYNAMIC ;;
  d <- checkNext DATA ;;
  u <- check UNIT_OPERATIONS ;; p <- check PRINT ;;
  let finish (sectionType : SectionType) (statements : list StatementNode) :=
    endLine <- getCurrentLine ;;
    ret (Some (mkSection startLine endLine sectionType statements)) in
  if c && d then
    advance ;; advance ;; consumeNewlines ;;
    stmts <- loop budget
               (statementsBody (asStatement ComponentData parseComponentStatement)) [] ;;
    finish SEC_COMPONENT_DATA stmts
  else if s && d then
    advance ;; advance ;; consumeNewlines ;;
    stmts <- loop budget
               (statementsBody (asStatement StreamData parseStreamStatement)) [] ;;
    finish SEC_STREAM_DATA stmts
  else if t && d then
    advance ;; advance ;; consumeNewlines ;;
    stmts <- loop budget
               (statementsBody
                  (asStatement ThermodynamicData parseThermodynamicStatement)) [] ;;
    finish SEC_THERMODYNAMIC_DATA stmts
  else if u then
    advance ;; consumeNewlines ;;
    stmts <- loop budget
               (statementsBody (asStatement UnitOperation parseUnitOperation)) [] ;;
    finish SEC_UNIT_OPERATIONS stmts
  else if p then
    stmt <- parsePrintStatement ;;
    consumeNewlines ;;
    finish SEC_PRINT (pushOpt [] (option_map PrintStatement stmt))
  else
    advanceLine ;; ret None.

Definition sectionsBody (acc : list SectionNode) : M (Ctl (list SectionNode)) :=
  e <- isAtEnd ;;
  if e then ret (Break acc)
  else
    section <- parseSection ;;
    skipWhitespaceAndComments ;;
    ret (Continue (pushOpt acc section)).

Definition parseM : M ProgramNode :=
  skipWhitespaceAndComments ;;
  sections <- loop budget sectionsBody [] ;;
  fun s => Return (mkProgram 1 (currentLine s) sections) s.

End WithBudget.

(** [new Parser(tokens).parse()], each loop on [budget] iterations. *)
Definition parse {cm : CaseMapping} (budget : nat) (tokens : list Token)
  : Outcome ProgramNode :=
  parseM budget (mkState tokens 1).

(** The tree a call returned, if it returned. *)
Definition returned {A} (o : Outcome A) : option A :=
  match o with Return a _ => Some a | _ => None end.

(** ** Vocabulary of the parser's properties *)

(** [o'] is [o], unless [o] ran out of budget. *)
Definition refines {A} (o o' : Outcome A) : Prop := o = Exhausted \/ o = o'.

Definition Refines {A} (m m' : M A) : Prop := forall s, refines (m s) (m' s).

(** The tokens ahead end with the end-of-input token. *)
Definition eofLast (l : list Token) : Prop :=
  exists pre eof, l = pre ++ [eof] /\ type eof = EOF.

(** From a state whose tokens end with the end-of-input token, [m] does
    not throw and leaves such a state. *)
Definition Safe {A} (m : M A) : Prop :=
  forall s, eofLast (ahead s) ->
            match m s with
            | Return _ s' => eofLast (ahead s')
            | Throw => False
            | Exhausted => True
            end.

(** A token on which the statement loop of a UNIT OPERATIONS section
    neither ends nor moves: no unit operation starts with it, and it is
    neither the end of the input, nor skipped between statements, nor
    the start of a section. *)
Definition inert (ty : TokenType) : bool :=
  negb (isUnitOperationType ty)
  && negb (existsb (tt_eqb ty)
             [EOF; NEWLINE; COMMENT; UNIT_OPERATIONS; PRINT;
              COMPONENT; STREAM; THERMODYNAMIC]).

Definition isSeparator (t : Token) : bool :=
  tt_eqb (type t) COMMA || tt_eqb (type t) SLASH.

(** The cursor is on a number or an identifier [t] and the next token
    is a comma or a slash. *)
Definition startsList (t : Token) (rest : list Token) : bool :=
  (tt_eqb (type t) NUMBER || tt_eqb (type t) IDENTIFIER)
  && match rest with next :: _ => isSeparator next | [] => false end.

Definition isList (v : ValueNode) : bool :=
  match v with VList _ _ _ _ => true | _ => false end.

Definition separatorOf (v : ValueNode) : option Separator :=
  match v with VList _ _ _ sep => Some sep | _ => None end.

Definition valuesOf (v : ValueNode) : list ValueNode :=
  match v with VList _ _ vs _ => vs | _ => [] end.

(** The scalar node made of the token [t]. *)
Definition scalarOf (t : Token) : ValueNode :=
  if tt_eqb (type t) NUMBER then VNumber (numberOf t)
  else if tt_eqb (type t) STRING
       then VString (mkString (line t) (line t) (dequote (value t)))
       else VIdentifier (identifierOf t).

End Parser.

(* ================================================================== *)
(** * The symbol table ([symbolTable.ts]) *)
(* ================================================================== *)

Module SymbolTable.

Inductive SymbolKind := STREAM | UNIT | COMPONENT | PARAMETER.

Definition kind_eqb (a b : SymbolKind) : bool :=
  match a, b with
  | STREAM, STREAM | UNIT, UNIT | COMPONENT, COMPONENT | PARAMETER, PARAMETER => true
  | _, _ => false
  end.

(** The [context] of a reference: ['definition'], ['feed'], ['product'],
    ['parameter']. *)
Inductive Context := definition | feed | product | parameter.

Definition context_eqb (a b : Context) : bool :=
  match a, b with
  | definition, definition | feed, feed | product, product
  | parameter, parameter => true
  | _, _ => false
  end.

Record Reference := mkReference {
  ref_line : nat;
  context : Context
}.

(** The [metadata] bag; an absent key is [None]. *)
Record Metadata := mkMetadata {
  unitType : option jsstring;
  md_libid : option number;
  componentName : option jsstring;
  temp : option number;
  pres : option number;
  rate : option number;
  rateUnit : option jsstring;
  formula : option jsstring;
  md_type : option jsstring;
  molecularWeight : option jsstring
}.

Definition noMetadata : Metadata :=
  mkMetadata None None None None None None None None None None.

Record Symbol := mkSymbol {
  sym_name : jsstring;
  kind : SymbolKind;
  definedAt : nat;
  references : list Reference;
  metadata : option Metadata
}.

(** ** [getComponentDetails] *)

Record Details := mkDetails {
  det_type : jsstring;
  det_formula : jsstring;
  det_molecularWeight : option jsstring
}.

Definition componentDetails : list (jsstring * Details) :=
  [
    (str "H2O", mkDetails (str "Inorganic") (str "H" ++ [8322%N] ++ str "O") (Some (str "18.02")));
    (str "H2", mkDetails (str "Inorganic Gas") (str "H" ++ [8322%N]) (Some (str "2.02")));
    (str "N2", mkDetails (str "Inorganic Gas") (str "N" ++ [8322%N]) (Some (str "28.01")));
    (str "O2", mkDetails (str "Inorganic Gas") (str "O" ++ [8322%N]) (Some (str "32.00")));
    (str "CO2", mkDetails (str "Inorganic Gas") (str "CO" ++ [8322%N]) (Some (str "44.01")));
    (str "CO", mkDetails (str "Inorganic Gas") (str "CO") (Some (str "28.01")));
    (str "H2S", mkDetails (str "Inorganic Gas") (str "H" ++ [8322%N] ++ str "S") (Some (str "34.08")));
    (str "NH3", mkDetails (str "Inorganic Gas") (str "NH" ++ [8323%N]) (Some (str "17.03")));
    (str "C1", mkDetails (str "Hydrocarbon") (str "CH" ++ [8324%N] ++ str " (Methane)") (Some (str "16.04")));
    (str "CH4", mkDetails (str "Hydrocarbon") (str "CH" ++ [8324%N] ++ str " (Methane)") (Some (str "16.04")));
    (str "C2", mkDetails (str "Hydrocarbon") (str "C" ++ [8322%N] ++ str "H" ++ [8326%N] ++ str " (Ethane)") (Some (str "30.07")));
    (str "C2H6", mkDetails (str "Hydrocarbon") (str "C" ++ [8322%N] ++ str "H" ++ [8326%N] ++ str " (Ethane)") (Some (str "30.07")));
    (str "ETHANE", mkDetails (str "Hydrocarbon") (str "C" ++ [8322%N] ++ str "H" ++ [8326%N] ++ str " (Ethane)") (Some (str "30.07")));
    (str "C3", mkDetails (str "Hydrocarbon") (str "C" ++ [8323%N] ++ str "H" ++ [8328%N] ++ str " (Propane)") (Some (str "44.10")));
    (str "C3H8", mkDetails (str "Hydrocarbon") (str "C" ++ [8323%N] ++ str "H" ++ [8328%N] ++ str " (Propane)") (Some (str "44.10")));
    (str "PROPANE", mkDetails (str "Hydrocarbon") (str "C" ++ [8323%N] ++ str "H" ++ [8328%N] ++ str " (Propane)") (Some (str "44.10")));
    (str "IC4", mkDetails (str "Hydrocarbon") (str "C" ++ [8324%N] ++ str "H" ++ [8321%N] ++ [8320%N] ++ str " (i-Butane)") (Some (str "58.12")));
    (str "ISOBUTANE", mkDetails (str "Hydrocarbon") (str "C" ++ [8324%N] ++ str "H" ++ [8321%N] ++ [8320%N] ++ str " (i-Butane)") (Some (str "58.12")));
    (str "NC4", mkDetails (str "Hydrocarbon") (str "C" ++ [8324%N] ++ str "H" ++ [8321%N] ++ [8320%N] ++ str " (n-Butane)") (Some (str "58.12")));
    (str "N-BUTANE", mkDetails (str "Hydrocarbon") (str "C" ++ [8324%N] ++ str "H" ++ [8321%N] ++ [8320%N] ++ str " (n-Butane)") (Some (str "58.12")));
    (str "IC5", mkDetails (str "Hydrocarbon") (str "C" ++ [8325%N] ++ str "H" ++ [8321%N] ++ [8322%N] ++ str " (i-Pentane)") (Some (str "72.15")));
    (str "NC5", mkDetails (str "Hydrocarbon") (str "C" ++ [8325%N] ++ str "H" ++ [8321%N] ++ [8322%N] ++ str " (n-Pentane)") (Some (str "72.15")));
    (str "NC6", mkDetails (str "Hydrocarbon") (str "C" ++ [8326%N] ++ str "H" ++ [8321%N] ++ [8324%N] ++ str " (n-Hexane)") (Some (str "86.18")));
    (str "NC7", mkDetails (str "Hydrocarbon") (str "C" ++ [8327%N] ++ str "H" ++ [8321%N] ++ [8326%N] ++ str " (n-Heptane)") (Some (str "100.20")));
    (str "NC8", mkDetails (str "Hydrocarbon") (str "C" ++ [8328%N] ++ str "H" ++ [8321%N] ++ [8328%N] ++ str " (n-Octane)") (Some (str "114.23")));
    (str "NC9", mkDetails (str "Hydrocarbon") (str "C" ++ [8329%N] ++ str "H" ++ [8322%N] ++ [8320%N] ++ str " (n-Nonane)") (Some (str "128.26")));
    (str "NC10", mkDetails (str "Hydrocarbon") (str "C" ++ [8321%N] ++ [8320%N] ++ str "H" ++ [8322%N] ++ [8322%N] ++ str " (n-Decane)") (Some (str "142.28")));
    (str "NC12", mkDetails (str "Hydrocarbon") (str "C" ++ [8321%N] ++ [8322%N] ++ str "H" ++ [8322%N] ++ [8326%N] ++ str " (n-Dodecane)") (Some (str "170.34")));
    (str "NC13", mkDetails (str "Hydrocarbon") (str "C" ++ [8321%N] ++ [8323%N] ++ str "H" ++ [8322%N] ++ [8328%N] ++ str " (n-Tridecane)") (Some (str "184.36")));
    (str "NC14", mkDetails (str "Hydrocarbon") (str "C" ++ [8321%N] ++ [8324%N] ++ str "H" ++ [8323%N] ++ [8320%N] ++ str " (n-Tetradecane)") (Some (str "198.39")));
    (str "NC15", mkDetails (str "Hydrocarbon") (str "C" ++ [8321%N] ++ [8325%N] ++ str "H" ++ [8323%N] ++ [8322%N] ++ str " (n-Pentadecane)") (Some (str "212.41")));
    (str "NC16", mkDetails (str "Hydrocarbon") (str "C" ++ [8321%N] ++ [8326%N] ++ str "H" ++ [8323%N] ++ [8324%N] ++ str " (n-Hexadecane)") (Some (str "226.44")));
    (str "BENZENE", mkDetails (str "Aromatic") (str "C" ++ [8326%N] ++ str "H" ++ [8326%N]) (Some (str "78.11")));
    (str "TOLUENE", mkDetails (str "Aromatic") (str "C" ++ [8327%N] ++ str "H" ++ [8328%N]) (Some (str "92.14")));
    (str "ETHYLBENZENE", mkDetails (str "Aromatic") (str "C" ++ [8328%N] ++ str "H" ++ [8321%N] ++ [8320%N]) (Some (str "106.17")));
    (str "XYLENE", mkDetails (str "Aromatic") (str "C" ++ [8328%N] ++ str "H" ++ [8321%N] ++ [8320%N]) (Some (str "106.17")))
  ].

Definition getComponentDetails (name : jsstring) : option Details :=
  option_map snd (find (fun p => Js.eqb (fst p) name) componentDetails).

(** ** [extractStreamProperties] *)

(** The class [\s] of a regular expression. *)
Definition isSpace (c : char) : bool :=
  existsb (N.eqb c)
    [9; 10; 11; 12; 13; 32; 160; 5760; 8232; 8233; 8239; 8287; 12288; 65279]%N
  || ((8192 <=? c)%N && (c <=? 8202)%N).

(** The class [[\d.]]. *)
Definition isDigitOrDot (c : char) : bool :=
  ((48 <=? c)%N && (c <=? 57)%N) || (c =? 46)%N.

Fixpoint dropWhile (p : char -> bool) (s : jsstring) : jsstring :=
  match s with
  | c :: s' => if p c then dropWhile p s' else s
  | [] => []
  end.

Fixpoint takeWhile (p : char -> bool) (s : jsstring) : jsstring :=
  match s with
  | c :: s' => if p c then c :: takeWhile p s' else []
  | [] => []
  end.

(** An upper-case ASCII word of a pattern under the [i] flag, at the
    head of [s]: what follows it. *)
Fixpoint word (pat : jsstring) (s : jsstring) : option jsstring :=
  match pat, s with
  | [], _ => Some s
  | p :: pat', c :: s' =>
      if (c =? p)%N || (c =? p + 32)%N then word pat' s' else None
  | _ :: _, [] => None
  end.

(** [\s*=\s*([\d.]+)] at the head of [s]: the captured group. *)
Definition assigned (s : jsstring) : option jsstring :=
  match dropWhile isSpace s with
  | 61%N :: s1 =>
      match takeWhile isDigitOrDot (dropWhile isSpace s1) with
      | [] => None
      | v => Some v
      end
  | _ => None
  end.

(** [(?:\(([^)]+)\))?] at the head of [s]: the captured group, if the
    group took part in the match, and what follows. *)
Definition parenthesised (s : jsstring) : option jsstring * jsstring :=
  match s with
  | 40%N :: s1 =>
      let inner := takeWhile (fun c => negb (c =? 41)%N) s1 in
      match inner, dropWhile (fun c => negb (c =? 41)%N) s1 with
      | _ :: _, 41%N :: s2 => (Some inner, s2)
      | _, _ => (None, s)
      end
  | _ => (None, s)
  end.

(** The leftmost position at which [m] matches. *)
Fixpoint search {A} (m : jsstring -> option A) (s : jsstring) : option A :=
  match m s with
  | Some a => Some a
  | None => match s with [] => None | _ :: s' => search m s' end
  end.

(** [/TEMP\s*=\s*([\d.]+)/i] *)
Definition tempMatch (lineText : jsstring) : option jsstring :=
  search (fun s => match word (str "TEMP") s with
                   | Some s1 => assigned s1
                   | None => None
                   end) lineText.

(** [/PRES(?:SURE)?\s*(?:\([^)]+\))?\s*=\s*([\d.]+)/i] *)
Definition presMatch (lineText : jsstring) : option jsstring :=
  search (fun s => match word (str "PRES") s with
                   | Some s1 =>
                       let s2 := match word (str "SURE") s1 with
                                 | Some r => r
                                 | None => s1
                                 end in
                       assigned (snd (parenthesised (dropWhile isSpace s2)))
                   | None => None
                   end) lineText.

(** [/RATE\s*(?:\(([^)]+)\))?\s*=\s*([\d.]+)/i]: groups 1 and 2. *)
Definition rateMatch (lineText : jsstring) : option (option jsstring * jsstring) :=
  search (fun s => match word (str "RATE") s with
                   | Some s1 =>
                       let (unit_, s2) := parenthesised (dropWhile isSpace s1) in
                       match assigned s2 with
                       | Some v => Some (unit_, v)
                       | None => None
                       end
                   | None => None
                   end) lineText.

(** The properties found in a line: the keys of [props]. *)
Definition extractStreamProperties (lineText : jsstring) : Metadata :=
  mkMetadata None None None
    (option_map parseFloat (tempMatch lineText))
    (option_map parseFloat (presMatch lineText))
    (option_map (fun m => parseFloat (snd m)) (rateMatch lineText))
    (match rateMatch lineText with Some (Some u, _) => Some u | _ => None end)
    None None None.

(** The object spread [{ ...a, ...b }]: the keys of [b] win. *)
Definition spread (a b : Metadata) : Metadata :=
  let pick {A} (x y : option A) := match y with Some _ => y | None => x end in
  mkMetadata
    (pick (unitType a) (unitType b)) (pick (md_libid a) (md_libid b))
    (pick (componentName a) (componentName b))
    (pick (temp a) (temp b)) (pick (pres a) (pres b)) (pick (rate a) (rate b))
    (pick (rateUnit a) (rateUnit b))
    (pick (formula a) (formula b)) (pick (md_type a) (md_type b))
    (pick (molecularWeight a) (molecularWeight b)).

(** ** The map [symbols]

    A [Map] keeps its keys in insertion order; it is the list of its
    entries.  The symbols are objects that the methods change in place,
    which is [update] at their key. *)
Definition Symbols := list (jsstring * Symbol).

Definition get (k : jsstring) (m : Symbols) : option Symbol :=
  option_map snd (find (fun p => Js.eqb (fst p) k) m).

Definition has (k : jsstring) (m : Symbols) : bool :=
  match get k m with Some _ => true | None => false end.

Fixpoint update (k : jsstring) (f : Symbol -> Symbol) (m : Symbols) : Symbols :=
  match m with
  | [] => []
  | (k', v) :: m' =>
      if Js.eqb k' k then (k', f v) :: m' else (k', v) :: update k f m'
  end.

(** [symbols.set(k, v)] *)
Definition set (k : jsstring) (v : Symbol) (m : Symbols) : Symbols :=
  if has k m then update k (fun _ => v) m else m ++ [(k, v)].

Definition values (m : Symbols) : list Symbol := map snd m.

(** A call of one of the four methods that write the map. *)
Inductive Call :=
| AddComponent (comp : ComponentNode)
| AddStream (name : jsstring) (line : nat) (ctx : Context) (lineText : jsstring)
| AddStreamReference (name : jsstring) (line : nat) (ctx : Context)
| AddUnit (name : jsstring) (line : nat) (unitType : jsstring).

Section WithCaseMapping.
Context {cm : CaseMapping}.

(** [documentText] is the second argument of [build], [''] by default. *)
Variable documentText : jsstring.

Definition getLineText (lineNumber : nat) : jsstring :=
  match documentText with
  | [] => []
  | _ =>
      match lineNumber with
      | 0 => []
      | S n => nth n (splitLines [] documentText) []
      end
  end.

Definition addComponent (comp : ComponentNode) (m : Symbols) : Symbols :=
  let name := toUpperCase (identifier comp) in
  if negb (has name m) then
    let details := getComponentDetails name in
    set name
        (mkSymbol name COMPONENT (comp_startLine comp) []
           (Some (mkMetadata None (option_map num_value (libid comp))
                             (Some (identifier comp)) None None None None
                             (option_map det_formula details)
                             (option_map det_type details)
                             (match details with
                              | Some d => det_molecularWeight d
                              | None => None
                              end)))) m
  else m.

Definition addStream (name : jsstring) (line : nat) (ctx : Context)
    (lineText : jsstring) (m : Symbols) : Symbols :=
  let upperName := toUpperCase name in
  if negb (has upperName m) then
    set upperName
        (mkSymbol upperName STREAM line [mkReference line ctx]
                  (Some (extractStreamProperties lineText))) m
  else
    update upperName
      (fun symbol =>
         if kind_eqb (kind symbol) STREAM then
           let pushed := references symbol ++ [mkReference line ctx] in
           match context_eqb ctx definition, lineText with
           | true, _ :: _ =>
               let props := extractStreamProperties lineText in
               mkSymbol (sym_name symbol) (kind symbol) (definedAt symbol) pushed
                        (Some (spread (match metadata symbol with
                                       | Some md => md
                                       | None => noMetadata
                                       end) props))
           | _, _ =>
               mkSymbol (sym_name symbol) (kind symbol) (definedAt symbol) pushed
                        (metadata symbol)
           end
         else symbol) m.

Definition addStreamReference (name : jsstring) (line : nat) (ctx : Context)
    (m : Symbols) : Symbols :=
  let upperName := toUpperCase name in
  if negb (has upperName m) then
    set upperName
        (mkSymbol upperName STREAM line [mkReference line ctx] None) m
  else
    update upperName
      (fun symbol =>
         mkSymbol (sym_name symbol) (kind symbol) (definedAt symbol)
                  (references symbol ++ [mkReference line ctx])
                  (metadata symbol)) m.

Definition addUnit (name : jsstring) (line : nat) (unitType : jsstring)
    (m : Symbols) : Symbols :=
  let upperName := toUpperCase name in
  if negb (has upperName m) then
    set upperName
        (mkSymbol upperName UNIT line [mkReference line definition]
                  (Some (mkMetadata (Some unitType) None None None None None
                                    None None None None))) m
  else m.

(** [for (const x of xs) step(x)] *)
Definition forEach {A} (xs : list A) (step : A -> Symbols -> Symbols)
    (m : Symbols) : Symbols :=
  fold_left (fun acc x => step x acc) xs m.

Definition processComponentData (section : SectionNode) (m : Symbols) : Symbols :=
  forEach (statements section)
    (fun stmt acc =>
       match stmt with
       | ComponentData compStmt => forEach (components compStmt) addComponent acc
       | _ => acc
       end) m.

Definition processStreamData (section : SectionNode) (m : Symbols) : Symbols :=
  forEach (statements section)
    (fun stmt acc =>
       match stmt with
       | StreamData streamStmt =>
           let lineText := getLineText (sd_startLine streamStmt) in
           addStream (name (sd_streamName streamStmt)) (sd_startLine streamStmt)
                     definition lineText acc
       | _ => acc
       end) m.

Definition processUnitOperation (unitStmt : UnitOperationNode) (m : Symbols)
  : Symbols :=
  let m1 :=
    match uid unitStmt with
    | Some u => addUnit (name u) (unit_startLine unitStmt)
                        (unit_statementType unitStmt) m
    | None => m
    end in
  let m2 :=
    forEach (feedStreams unitStmt)
      (fun f => addStreamReference (name (streamName f)) (ref_startLine f) feed) m1 in
  forEach (productStreams unitStmt)
    (fun p => addStreamReference (name (streamName p)) (ref_startLine p) product) m2.

Definition processUnitOperations (section : SectionNode) (m : Symbols) : Symbols :=
  forEach (statements section)
    (fun stmt acc =>
       match stmt with
       | UnitOperation unitStmt => processUnitOperation unitStmt acc
       | _ => acc
       end) m.

Definition processSection (section : SectionNode) (m : Symbols) : Symbols :=
  match sectionType section with
  | SEC_COMPONENT_DATA => processComponentData section m
  | SEC_STREAM_DATA => processStreamData section m
  | SEC_UNIT_OPERATIONS => processUnitOperations section m
  | _ => m
  end.

(** [build(ast, documentText)]: the map after the call. *)
Definition build (ast : ProgramNode) : Symbols :=
  forEach (sections ast) processSection [].

(** ** Queries *)

Definition getSymbol (m : Symbols) (name : jsstring) : option Symbol :=
  get (toUpperCase name) m.

Definition getSymbolsByKind (m : Symbols) (k : SymbolKind) : list Symbol :=
  filter (fun s => kind_eqb (kind s) k) (values m).

Definition getAllSymbols (m : Symbols) : list Symbol := values m.

Definition isDefined (m : Symbols) (name : jsstring) : bool :=
  has (toUpperCase name) m.

Definition hasDefinition (symbol : Symbol) : bool :=
  existsb (fun ref => context_eqb (context ref) definition) (references symbol).

Definition getUndefinedSymbols (m : Symbols) : list Symbol :=
  filter (fun symbol =>
            if kind_eqb (kind symbol) STREAM
            then negb (hasDefinition symbol)
                 && (0 <? List.length (references symbol))
            else false) (values m).

Definition getStats (m : Symbols) : nat * nat * nat :=
  (List.length (getSymbolsByKind m STREAM),
   List.length (getSymbolsByKind m UNIT),
   List.length (getSymbolsByKind m COMPONENT)).

(** ** The calls of a build *)

Definition run (c : Call) (m : Symbols) : Symbols :=
  match c with
  | AddComponent comp => addComponent comp m
  | AddStream name line ctx lineText => addStream name line ctx lineText m
  | AddStreamReference name line ctx => addStreamReference name line ctx m
  | AddUnit name line unitType => addUnit name line unitType m
  end.

Definition runAll (cs : list Call) (m : Symbols) : Symbols :=
  fold_left (fun acc c => run c acc) cs m.

(** The canonical key a call reads and writes. *)
Definition keyOf (c : Call) : jsstring :=
  match c with
  | AddComponent comp => toUpperCase (identifier comp)
  | AddStream name _ _ _ => toUpperCase name
  | AddStreamReference name _ _ => toUpperCase name
  | AddUnit name _ _ => toUpperCase name
  end.

Definition callsOfUnitOperation (u : UnitOperationNode) : list Call :=
  match uid u with
  | Some i => [AddUnit (name i) (unit_startLine u) (unit_statementType u)]
  | None => []
  end
  ++ map (fun f => AddStreamReference (name (streamName f)) (ref_startLine f) feed)
         (feedStreams u)
  ++ map (fun p => AddStreamReference (name (streamName p)) (ref_startLine p) product)
         (productStreams u).

Definition callsOfStatement (ty : SectionType) (stmt : StatementNode) : list Call :=
  match ty, stmt with
  | SEC_COMPONENT_DATA, ComponentData c => map AddComponent (components c)
  | SEC_STREAM_DATA, StreamData s =>
      [AddStream (name (sd_streamName s)) (sd_startLine s) definition
                 (getLineText (sd_startLine s))]
  | SEC_UNIT_OPERATIONS, UnitOperation u => callsOfUnitOperation u
  | _, _ => []
  end.

Definition callsOfSection (section : SectionNode) : list Call :=
  flat_map (callsOfStatement (sectionType section)) (statements section).

(** The calls one [build] makes, in order ([build_calls] below). *)
Definition callsOf (ast : ProgramNode) : list Call :=
  flat_map callsOfSection (sections ast).

End WithCaseMapping.

(** ** Vocabulary of the symbol table's properties *)

(** The statements [build] visits: those of the kind that the section
    type of their section selects. *)
Definition componentStatementsOf (ast : ProgramNode) : list ComponentDataNode :=
  flat_map (fun section =>
              match sectionType section with
              | SEC_COMPONENT_DATA =>
                  flat_map (fun stmt => match stmt with
                                        | ComponentData c => [c]
                                        | _ => []
                                        end) (statements section)
              | _ => []
              end) (sections ast).

Definition componentsOf (ast : ProgramNode) : list ComponentNode :=
  flat_map components (componentStatementsOf ast).

Definition streamStatementsOf (ast : ProgramNode) : list StreamDataNode :=
  flat_map (fun section =>
              match sectionType section with
              | SEC_STREAM_DATA =>
                  flat_map (fun stmt => match stmt with
                                        | StreamData s => [s]
                                        | _ => []
                                        end) (statements section)
              | _ => []
              end) (sections ast).

Definition unitOperationsOf (ast : ProgramNode) : list UnitOperationNode :=
  flat_map (fun section =>
              match sectionType section with
              | SEC_UNIT_OPERATIONS =>
                  flat_map (fun stmt => match stmt with
                                        | UnitOperation u => [u]
                                        | _ => []
                                        end) (statements section)
              | _ => []
              end) (sections ast).

(** What a call records when it meets its key for the first time. *)
Definition kindOf (c : Call) : SymbolKind :=
  match c with
  | AddComponent _ => COMPONENT
  | AddStream _ _ _ _ | AddStreamReference _ _ _ => STREAM
  | AddUnit _ _ _ => UNIT
  end.

Definition lineOf (c : Call) : nat :=
  match c with
  | AddComponent comp => comp_startLine comp
  | AddStream _ line _ _ | AddStreamReference _ line _ | AddUnit _ line _ => line
  end.

Definition firstReferences (c : Call) : list Reference :=
  match c with
  | AddComponent _ => []
  | AddStream _ line ctx _ | AddStreamReference _ line ctx => [mkReference line ctx]
  | AddUnit _ line _ => [mkReference line definition]
  end.

(** What a call appends to the references of the symbol [sym] that
    already holds its key. *)
Definition appendedTo (sym : Symbol) (c : Call) : list Reference :=
  match c with
  | AddStreamReference _ line ctx => [mkReference line ctx]
  | AddStream _ line ctx _ =>
      if kind_eqb (kind sym) STREAM then [mkReference line ctx] else []
  | AddComponent _ | AddUnit _ _ _ => []
  end.

(** One entry per key, and every symbol carries its key as its name. *)
Definition wellFormed (m : Symbols) : Prop :=
  NoDup (map fst m) /\ forall k sym, In (k, sym) m -> sym_name sym = k.





End SymbolTable.

(* ================================================================== *)
(** * The pipeline *)
(* ================================================================== *)

(** [tokenize], then [parse], then [build] with the text of the
    document, as a caller of the three stages chains them. *)
Definition pipeline {cm : CaseMapping} (budget : nat) (text : jsstring)
  : Parser.Outcome SymbolTable.Symbols :=
  match Parser.parse budget (Lexer.tokenize text) with
  | Parser.Return ast s => Parser.Return (SymbolTable.build text ast) s
  | Parser.Throw => Parser.Throw
  | Parser.Exhausted => Parser.Exhausted
  end.

(* ================================================================== *)
(** * The documents of the scenarios *)
(* ================================================================== *)

Definition lines (ls : list string) : jsstring :=
  flat_map (fun l => str l ++ [LF]) ls.

(** The header of a UNIT OPERATIONS section, as the tests write it. *)
Definition hangingText : jsstring := lines ["UNIT OPERATIONS"%string].

Definition componentText : jsstring :=
  lines ["COMPONENT DATA"; "LIBID 1, C1/2, C2/3"]%string.

Definition flashText : jsstring :=
  lines ["FLASH UID=F-100"; "FEED FEED"; "PROD VAPOR, LIQUID"]%string.

(** The same statement under the header of its section, as the test
    "extracts unit operations with UIDs" writes it. *)
Definition flashUnderHeaderText : jsstring :=
  lines ["UNIT OPERATIONS"; "FLASH UID=F-100"; "FEED FEED";
         "PROD VAPOR, LIQUID"]%string.

(** The same statement under the header UNIT, the one word after which
    the statements of a UNIT OPERATIONS section are reached. *)
Definition flashUnderUnitText : jsstring :=
  lines ["UNIT"; "FLASH UID=F-100"; "FEED FEED"; "PROD VAPOR, LIQUID"]%string.

(** The same with a uid that is one word. *)
Definition flashPlainUidText : jsstring :=
  lines ["UNIT"; "FLASH UID=F100"; "FEED FEED"; "PROD VAPOR, LIQUID"]%string.

(** The same on one line, its parts separated by commas. *)
Definition flashOneLineText : jsstring :=
  lines ["UNIT"; "FLASH UID=F100, FEED FEED, PROD VAPOR, LIQUID"]%string.


(** A unit that is fed by a stream no statement defines. *)
Definition feedOnlyText : jsstring := lines ["UNIT"; "FLASH FEED X"]%string.


(** U+212A KELVIN SIGN *)
Definition kelvin : jsstring := [8490%N].

(** A unit whose uid is the Kelvin sign. *)
Definition kelvinText : jsstring :=
  lines ["UNIT"%string] ++ str "FLASH UID=" ++ kelvin.

(** The tokens of a text with the words COMPONENT and DATA tagged as
    [parser.ts] names them. *)
Definition asParserNames (ts : list Token) : list Token :=
  map (fun t =>
         if Js.eqb (value t) (str "COMPONENT")
         then mkToken COMPONENT (value t) (line t) (column t) (length t)
         else if Js.eqb (value t) (str "DATA")
              then mkToken DATA (value t) (line t) (column t) (length t)
              else t) ts.


(** The tree of [feedOnlyText]. *)
Definition feedOnlyTree : ProgramNode :=
  Eval vm_compute in
    match Parser.parse (cm := basicLatin) 3
                       (Lexer.tokenize (cm := basicLatin) feedOnlyText) with
    | Parser.Return ast _ => ast
    | _ => mkProgram 1 1 []
    end.

Unset Implicit Arguments.

(* ================================================================== *)
(** * The hover provider ([symbolHoverProvider.ts]) *)
(* ================================================================== *)

Module HoverProvider.
Import SymbolTable.

(** What the host makes of the numbers this development does not
    evaluate: [String(x)] and the truth value of [x], for [x] the number
    that [parseFloat] reads in a text. *)
Class FloatHost := {
  floatToString : jsstring -> jsstring;
  floatIsTruthy : jsstring -> bool
}.

(** [`${n}`] for a line number or a count. *)
Definition showNat (n : nat) : jsstring :=
  str (DecimalString.NilEmpty.string_of_uint (Nat.to_uint n)).

(** [`${x}`] *)
Definition numberToString {fh : FloatHost} (x : number) : jsstring :=
  match x with
  | Int z => str (DecimalString.NilZero.string_of_int (Z.to_int z))
  | ParseFloatOf raw => floatToString raw
  end.

(** A number is falsy when it is 0 or NaN. *)
Definition truthyNumber {fh : FloatHost} (x : option number) : bool :=
  match x with
  | Some (Int z) => negb (z =? 0)%Z
  | Some (ParseFloatOf raw) => floatIsTruthy raw
  | None => false
  end.

(** [s || fallback] for a string that may be absent. *)
Definition orElse (s : option jsstring) (fallback : jsstring) : jsstring :=
  match s with
  | Some (c :: r) => c :: r
  | _ => fallback
  end.

Definition truthyString (s : option jsstring) : bool :=
  match s with Some (_ :: _) => true | _ => false end.

(** [lines.join('\n')] *)
Fixpoint join (ls : list jsstring) : jsstring :=
  match ls with
  | [] => []
  | [l] => l
  | l :: ls' => l ++ [LF] ++ join ls'
  end.

(** [xs.filter(r => r.context === c).length] *)
Definition countContext (c : Context) (refs : list Reference) : nat :=
  List.length (filter (fun r => context_eqb (context r) c) refs).

Section WithHost.
Context {cm : CaseMapping} {fh : FloatHost}.

(** The lines [createStreamHover] pushes for a stream symbol.  No method
    of the symbol table writes the keys [description] and [phase] of the
    metadata, so the two lines that show them are never pushed. *)
Definition streamHoverLines (symbol : Symbol) : list jsstring :=
  let md := metadata symbol in
  let get {A} (f : Metadata -> option A) : option A :=
    match md with Some m => f m | None => None end in
  let hasProps :=
    truthyNumber (get temp) || truthyNumber (get pres) || truthyNumber (get rate) in
  let feedRefs := countContext feed (references symbol) in
  let prodRefs := countContext product (references symbol) in
  [ (str "### " ++ [55356; 57098]%N ++ str " Stream: ") ++ sym_name symbol ++ [LF] ]
  ++ (if hasProps then
        [ str "| Property | Value |"; str "|----------|-------|" ]
        ++ match get temp with
           | Some x => [ str "| **Temperature** | " ++ numberToString x ++ (str " " ++ [176]%N ++ str "C |") ]
           | None => []
           end
        ++ match get pres with
           | Some x => [ str "| **Pressure** | " ++ numberToString x ++ str " bar |" ]
           | None => []
           end
        ++ match get rate with
           | Some x =>
               let unit_ := orElse (get rateUnit) (str "kg/hr") in
               [ str "| **Rate** | " ++ numberToString x ++ str " " ++ unit_ ++ str " |" ]
           | None => []
           end
        ++ [ [] ]
      else [])
  ++ (if (0 <? feedRefs) || (0 <? prodRefs) then
        [ str "**Usage:**" ]
        ++ (if 0 <? feedRefs
            then [ str "- Used as feed " ++ showNat feedRefs ++ str " time(s)" ] else [])
        ++ (if 0 <? prodRefs
            then [ str "- Used as product " ++ showNat prodRefs ++ str " time(s)" ] else [])
        ++ [ [] ]
      else [])
  ++ [ ([55357; 56481]%N ++ str " *Defined at line ") ++ showNat (definedAt symbol) ++ str "*" ].

(** The value of the markdown content of the hover, [null] as [None]. *)
Definition createStreamHover (m : Symbols) (streamName : jsstring)
  : option jsstring :=
  match getSymbol m streamName with
  | Some symbol =>
      if kind_eqb (kind symbol) STREAM then Some (join (streamHoverLines symbol))
      else None
  | None => None
  end.

Definition componentHoverLines (symbol : Symbol) : list jsstring :=
  let md := metadata symbol in
  let get {A} (f : Metadata -> option A) : option A :=
    match md with Some m => f m | None => None end in
  [ (str "### " ++ [55358; 56810]%N ++ str " Component: ") ++ sym_name symbol ++ [LF];
    str "| Property | Value |"; str "|----------|-------|";
    str "| **Index** | "
      ++ (if truthyNumber (get md_libid)
          then match get md_libid with Some x => numberToString x | None => [] end
          else str "N/A")
      ++ str " |";
    str "| **Name** | " ++ orElse (get componentName) (sym_name symbol) ++ str " |" ]
  ++ (if truthyString (get md_type)
      then [ str "| **Type** | " ++ orElse (get md_type) [] ++ str " |" ] else [])
  ++ (if truthyString (get formula)
      then [ str "| **Formula** | " ++ orElse (get formula) [] ++ str " |" ] else [])
  ++ (if truthyString (get molecularWeight)
      then [ str "| **Molecular Weight** | " ++ orElse (get molecularWeight) [] ++ str " g/mol |" ] else [])
  ++ [ []; ([55357; 56481]%N ++ str " *Hover over any component name to see its properties*") ].

Definition createComponentHover (m : Symbols) (componentName : jsstring)
  : option jsstring :=
  match getSymbol m componentName with
  | Some symbol =>
      if kind_eqb (kind symbol) COMPONENT
      then Some (join (componentHoverLines symbol))
      else None
  | None => None
  end.

Definition unitOperationHoverLines (symbol : Symbol) : list jsstring :=
  let unitType_ := match metadata symbol with Some m => unitType m | None => None end in
  [ (str "### " ++ [9881; 65039]%N ++ str " Unit Operation: ") ++ sym_name symbol ++ [LF] ]
  ++ (if truthyString unitType_
      then [ str "**Type**: " ++ orElse unitType_ [] ++ [LF] ] else [])
  ++ [ ([55357; 56481]%N ++ str " *Defined at line ") ++ showNat (definedAt symbol) ++ str "*" ].

Definition createUnitOperationHover (m : Symbols) (unitName : jsstring)
  : option jsstring :=
  match getSymbol m unitName with
  | Some symbol =>
      if kind_eqb (kind symbol) UNIT
      then Some (join (unitOperationHoverLines symbol))
      else None
  | None => None
  end.

Definition provideHover (m : Symbols) (word : jsstring) : option jsstring :=
  let upperWord := toUpperCase word in
  match getSymbol m upperWord with
  | None => None
  | Some symbol =>
      match kind symbol with
      | STREAM => createStreamHover m upperWord
      | COMPONENT => createComponentHover m upperWord
      | UNIT => createUnitOperationHover m upperWord
      | PARAMETER => None
      end
  end.

End WithHost.

(** The lines of the hover of a symbol, by its kind. *)
Definition hoverLines {cm : CaseMapping} {fh : FloatHost} (symbol : Symbol)
  : list jsstring :=
  match kind symbol with
  | STREAM => streamHoverLines symbol
  | COMPONENT => componentHoverLines symbol
  | UNIT => unitOperationHoverLines symbol
  | PARAMETER => []
  end.

End HoverProvider.

(* ================================================================== *)
(** * The server ([server.ts]) *)
(* ================================================================== *)

Module Server.

(** [DiagnosticSeverity] of the language-server protocol. *)
Inductive DiagnosticSeverity := Error | Warning | Information | Hint.

Record Position := mkPosition { pos_line : Z; character : Z }.
Record Range := mkRange { range_start : Position; range_end : Position }.

Record Diagnostic := mkDiagnostic {
  severity : DiagnosticSeverity;
  range : Range;
  message : jsstring;
  source : jsstring
}.

(** How a handler ends: it returns, or the parser it calls exhausts the
    iteration budget. *)
Inductive Result (A : Type) :=
| Done (a : A)
| OutOfBudget.
Arguments Done {A} a.
Arguments OutOfBudget {A}.

(** The diagnostic [validateDocument] pushes for a token of type
    UNKNOWN. *)
Definition unknownTokenDiagnostic (token : Token) : Diagnostic :=
  mkDiagnostic Warning
    (mkRange
       (mkPosition (Z.of_nat (line token) - 1) (Z.of_nat (column token) - 1))
       (mkPosition (Z.of_nat (line token) - 1)
                   (Z.of_nat (column token) + Z.of_nat (length token) - 1)))
    (str "Unknown token: " ++ value token)
    (str "proii-lsp").

Section WithHost.
Context {cm : CaseMapping}.

(** [`${error}`] for the [TypeError] the parser throws; its text is the
    engine's. *)
Variable errorText : jsstring.

Definition parseErrorDiagnostic : Diagnostic :=
  mkDiagnostic Error
    (mkRange (mkPosition 0 0) (mkPosition 0 10))
    (str "Parse error: " ++ errorText)
    (str "proii-lsp").

(** [parseDocument]: what it returns ([null] as [None]) and the entry of
    [documentASTs] for the document, [stored] before the call. *)
Definition parseDocument (budget : nat) (text : jsstring)
    (stored : option ProgramNode)
  : Result (option ProgramNode * option ProgramNode) :=
  let tokens := Lexer.tokenize text in
  match Parser.parse budget tokens with
  | Parser.Return ast _ => Done (Some ast, Some ast)
  | Parser.Throw => Done (None, stored)
  | Parser.Exhausted => OutOfBudget
  end.

(** [validateDocument]: the diagnostics it sends and the entry of
    [documentASTs] for the document, [stored] before the call. *)
Definition validateDocument (budget : nat) (text : jsstring)
    (stored : option ProgramNode)
  : Result (list Diagnostic * option ProgramNode) :=
  let tokens := Lexer.tokenize text in
  let diagnostics :=
    flat_map (fun token =>
                if tt_eqb (type token) UNKNOWN
                then [unknownTokenDiagnostic token] else [])
             tokens in
  match Parser.parse budget tokens with
  | Parser.Return ast _ => Done (diagnostics, Some ast)
  | Parser.Throw => Done (diagnostics ++ [parseErrorDiagnostic], stored)
  | Parser.Exhausted => OutOfBudget
  end.

End WithHost.

End Server.

(* ================================================================== *)
(** * Vocabulary of the further properties *)
(* ================================================================== *)

Module LexerFacts.
Import Lexer.

Definition noLineFeed (v : jsstring) : bool :=
  forallb (fun c => negb (c =? LF)%N) v.

(** [s'] is [s] with its cursor moved over the characters [v] of one
    line. *)
Definition reads (v : jsstring) (s s' : State) : Prop :=
  ahead s = v ++ ahead s' /\ curLine s' = curLine s
  /\ curColumn s' = curColumn s + List.length v
  /\ tokens s' = tokens s /\ discarded s' = discarded s
  /\ noLineFeed v = true.

(** The type of the token whose text is [v]: the rules of [scanToken],
    in their order, on the first character of [v]. *)
Definition typeOfText {cm : CaseMapping} (v : jsstring) : TokenType :=
  match v with
  | [] => EOF
  | c :: rest =>
      if (c =? LF)%N then NEWLINE
      else if (c =? ch "$")%N || (c =? ch "%")%N then COMMENT
      else if (c =? ch "&")%N then CONTINUATION
      else if (c =? ch "=")%N then EQUALS
      else if (c =? ch ",")%N then COMMA
      else if (c =? ch "/")%N then SLASH
      else if (c =? ch "+")%N then PLUS
      else if (c =? ch "-")%N then
        match rest with [] => MINUS | _ => NUMBER end
      else if (c =? ch "*")%N then TIMES
      else if (c =? ch "(")%N then LPAREN
      else if (c =? ch ")")%N then RPAREN
      else if isDigit c then NUMBER
      else if isAlpha c then
        match KEYWORDS_get (toUpperCase v) with
        | Some ty => ty
        | None => IDENTIFIER
        end
      else if (c =? DQUOTE)%N || (c =? SQUOTE)%N then STRING
      else UNKNOWN
  end.

Definition isWordChar (c : char) : bool := isAlphaNumeric c || (c =? ch "_")%N.

(** The texts a token can have: a comment, a number, a string, a word
    of letters, digits and underscores, or one character that is not
    white space. *)
Definition isLexeme (v : jsstring) : bool :=
  match v with
  | [] => false
  | c :: rest =>
      if (c =? ch "$")%N || (c =? ch "%")%N then true
      else if (c =? ch "-")%N then true
      else if isDigit c then true
      else if isAlpha c then forallb isWordChar rest
      else if (c =? DQUOTE)%N || (c =? SQUOTE)%N then true
      else negb (isWhitespace c) && match rest with [] => true | _ => false end
  end.

(** The token of text [v] at line [ln], column [col]. *)
Definition tokenAt {cm : CaseMapping} (v : jsstring) (ln col : nat) : Token :=
  mkToken (typeOfText v) v ln col (List.length v).

(** [Located text ln col ts]: the tokens [ts] are what stands in [text],
    in order, when [text] starts at line [ln], column [col]: white space
    between tokens, a line feed starting a new line at column 1, the
    end-of-input token last. *)
Inductive Located {cm : CaseMapping} : jsstring -> nat -> nat -> list Token -> Prop :=
| Located_end ln col : Located [] ln col [mkToken EOF [] ln col 0]
| Located_space c text ln col ts :
    isWhitespace c = true -> Located text ln (S col) ts ->
    Located (c :: text) ln col ts
| Located_newline text ln col ts :
    Located text (S ln) 1 ts ->
    Located (LF :: text) ln col (mkToken NEWLINE [LF] ln col 1 :: ts)
| Located_token v text ln col ts :
    isLexeme v = true -> noLineFeed v = true ->
    Located text ln (col + List.length v) ts ->
    Located (v ++ text) ln col (tokenAt v ln col :: ts).

(** The line and the column of the character that follows [before]. *)
Definition countLF (s : jsstring) : nat :=
  List.length (filter (fun c => (c =? LF)%N) s).

Fixpoint lastLine (cur s : jsstring) : jsstring :=
  match s with
  | [] => cur
  | c :: s' => if (c =? LF)%N then lastLine [] s' else lastLine (cur ++ [c]) s'
  end.

Definition lineAfter (before : jsstring) : nat := 1 + countLF before.
Definition columnAfter (before : jsstring) : nat := 1 + List.length (lastLine [] before).

(** What one scanner returns: the state [s'] after the characters [v],
    which start with the character under the cursor, and the token of
    type [ty] made of them. *)
Definition scansHead (ty : TokenType) (s s1 : State) : Prop :=
  exists v s',
    s1 = push (mkToken ty v (curLine s) (curColumn s) (List.length v)) s'
    /\ reads v s s' /\ exists r, v = currentChar s :: r.

(** The text of a number starts with the character under the cursor;
    behind a minus sign there is a digit. *)
Definition numberHead (s : State) (v : jsstring) : Prop :=
  exists r, v = currentChar s :: r
            /\ ((currentChar s =? ch "-")%N = true -> r <> []).

(** One call of [scanToken]: it drops a white space character, or
    emits a NEWLINE token and starts a line, or emits the token of the
    text it reads. *)
Definition dropsSpace (s s1 : State) : Prop :=
  exists c, isWhitespace c = true /\ ahead s = c :: ahead s1
            /\ curLine s1 = curLine s /\ curColumn s1 = S (curColumn s)
            /\ tokens s1 = tokens s.

Definition startsLine (s s1 : State) : Prop :=
  ahead s = LF :: ahead s1 /\ curLine s1 = S (curLine s) /\ curColumn s1 = 1
  /\ tokens s1 = tokens s ++ [mkToken NEWLINE [LF] (curLine s) (curColumn s) 1].

Definition emitsToken {cm : CaseMapping} (s s1 : State) : Prop :=
  exists v, isLexeme v = true /\ noLineFeed v = true /\ ahead s = v ++ ahead s1
            /\ curLine s1 = curLine s
            /\ curColumn s1 = curColumn s + List.length v
            /\ tokens s1 = tokens s ++ [tokenAt v (curLine s) (curColumn s)].

(** A token of [ts] stands in the text at the line and the column it
    records. *)
Definition placed (text : jsstring) (t : Token) : Prop :=
  exists before after,
    text = before ++ value t ++ after
    /\ line t = lineAfter before /\ column t = columnAfter before.

End LexerFacts.

Module ParserFacts.
Import Parser.

(** The token types with which [parseSection] starts a section. *)
Definition isHeader (ty : TokenType) : bool :=
  match ty with
  | COMPONENT | STREAM | THERMODYNAMIC | UNIT_OPERATIONS | PRINT => true
  | _ => false
  end.

Definition headerless (l : list Token) : bool :=
  forallb (fun t => negb (isHeader (type t))) l.

(** A Number or an Identifier node. *)
Definition isNumberOrIdentifier (v : ValueNode) : bool :=
  match v with VNumber _ | VIdentifier _ => true | _ => false end.

(** A token in a unit statement with which its loop does nothing: it is
    none of the tokens the loop handles and starts no parameter. *)
Definition stray (ty : TokenType) : bool :=
  negb (existsb (tt_eqb ty)
          [EOF; NEWLINE; CONTINUATION; UID; FEED; PROD; PRODUCT; COMMA;
           IDENTIFIER; TEMP; PRES; RATE; TYPE; INPUT; RESULT]).

(** The names of a product list and what the parser makes of them:
    every second name becomes the stream type of the name before it. *)
Fixpoint pairedUp {cm : CaseMapping} (names : list Token)
  : list (jsstring * option jsstring) :=
  match names with
  | a :: b :: rest => (value a, Some (toUpperCase (value b))) :: pairedUp rest
  | [a] => [(value a, None)]
  | [] => []
  end.

(** The tokens of a list of names: the first name, then each further
    name behind its comma. *)
Definition commaList (first : Token) (more : list (Token * Token)) : list Token :=
  first :: flat_map (fun p => [fst p; snd p]) more.

Definition startsWithComma (l : list Token) : bool :=
  match l with t :: _ => tt_eqb (type t) COMMA | [] => false end.

Definition suffixOf (l' l : list Token) : Prop := exists pre, l = pre ++ l'.

(** The name and the stream type of a stream reference. *)
Definition namedAs (r : StreamReferenceNode) : jsstring * option jsstring :=
  (name (streamName r), streamType r).

(** Tokens that do not end with the end-of-input token. *)
Definition truncatedTokens : list Token :=
  [ mkToken UNIT_OPERATIONS (str "UNIT") 1 1 4;
    mkToken FLASH (str "FLASH") 1 6 5;
    mkToken UID (str "UID") 1 12 3;
    mkToken EQUALS (str "=") 1 15 1 ].

End ParserFacts.

Module TerminationFacts.
Import Parser ParserFacts.

(** No token starts a UNIT OPERATIONS section. *)
Definition unitless (l : list Token) : bool :=
  forallb (fun t => negb (tt_eqb (type t) UNIT_OPERATIONS)) l.

(** What is ahead in [s'] is the end of what is ahead in [s]. *)
Definition behind (s' s : State) : Prop := suffixOf (ahead s') (ahead s).

Definition wellBehind (s' s : State) : Prop :=
  behind s' s /\ List.length (ahead s') < List.length (ahead s).

(** A state with at most [n] tokens ahead, none of which starts a
    UNIT OPERATIONS section. *)
Definition within (n : nat) (s : State) : Prop :=
  List.length (ahead s) <= n /\ unitless (ahead s) = true.

(** From such a state [m] ends, and does not move the cursor back. *)
Definition Steady {A} (n : nat) (m : M A) : Prop :=
  forall s, within n s ->
            match m s with
            | Return _ s' => behind s' s
            | Throw => True
            | Exhausted => False
            end.

(** From such a state that is not at the end, [m] ends and moves the
    cursor forward. *)
Definition Strict {A} (n : nat) (m : M A) : Prop :=
  forall s, within n s -> isAtEndS s = false ->
            match m s with
            | Return _ s' => wellBehind s' s
            | Throw => True
            | Exhausted => False
            end.

(** A loop body that moves the cursor forward when it asks for another
    iteration. *)
Definition Advancing {A} (n : nat) (body : M (Ctl A)) : Prop :=
  forall s, within n s ->
            match body s with
            | Return (Continue _) s' => wellBehind s' s
            | Return (Break _) s' => behind s' s
            | Throw => True
            | Exhausted => False
            end.

End TerminationFacts.

Module SymbolTableFacts.
Import SymbolTable.

(** The keys of [ks] that are not in [seen], each at its first
    occurrence. *)
Fixpoint distinct (seen ks : list jsstring) : list jsstring :=
  match ks with
  | [] => []
  | k :: ks' =>
      if existsb (Js.eqb k) seen then distinct seen ks'
      else k :: distinct (seen ++ [k]) ks'
  end.

(** What every symbol of a built table satisfies, by kind. *)
Definition settled {cm : CaseMapping} (sym : Symbol) : Prop :=
  match kind sym with
  | STREAM =>
      exists r rest, references sym = r :: rest /\ ref_line r = definedAt sym
  | UNIT =>
      (exists rest,
          references sym = mkReference (definedAt sym) definition :: rest)
      /\ exists md ty, metadata sym = Some md /\ unitType md = Some ty
  | COMPONENT =>
      exists md id, metadata sym = Some md /\ componentName md = Some id
                    /\ toUpperCase id = sym_name sym
  | PARAMETER => False
  end.

(** The names a unit operation brings to the table: its uid, its feed
    streams and its product streams. *)
Definition namesOfUnit (u : UnitOperationNode) : list jsstring :=
  match uid u with Some i => [name i] | None => [] end
  ++ map (fun f => name (streamName f)) (feedStreams u)
  ++ map (fun p => name (streamName p)) (productStreams u).

(** The names of the tree that [build] visits: the components, the
    streams of the stream statements and the names of the units. *)
Definition namesOf (ast : ProgramNode) : list jsstring :=
  map identifier (componentsOf ast)
  ++ map (fun sd => name (sd_streamName sd)) (streamStatementsOf ast)
  ++ flat_map namesOfUnit (unitOperationsOf ast).

End SymbolTableFacts.

Module ServerFacts.
Import Server.

(** The one-character range that starts after the text [before]. *)
Definition rangeAfter (before : jsstring) : Range :=
  let l := Z.of_nat (LexerFacts.countLF before) in
  let c := Z.of_nat (List.length (LexerFacts.lastLine [] before)) in
  mkRange (mkPosition l c) (mkPosition l (c + 1)).

(** [d] warns of the character [c] of [text], which the lexer does not
    recognize, over the range of that character. *)
Definition warnsOf (text : jsstring) (d : Diagnostic) : Prop :=
  exists before c after,
    text = before ++ c :: after
    /\ Lexer.unrecognized c = true
    /\ d = mkDiagnostic Warning (rangeAfter before)
             (str "Unknown token: " ++ [c]) (str "proii-lsp").

End ServerFacts.

(* ================================================================== *)
(** * Properties *)
(* ================================================================== *)

Unset Implicit Arguments.

(* ------------------------------------------------------------------ *)
(** ** The lexer *)
(* ------------------------------------------------------------------ *)

Section LexerProperties.
Context {cm : CaseMapping}.
Import Lexer.

Ltac chain :=
  unfold consumes in *; rewrite ?length_app in *; simpl List.length in *;
  intuition (try congruence; try lia).

Lemma nonNul_ahead s c :
  (currentChar s =? c)%N = true -> c <> NUL -> ahead s <> [].
Proof.
  unfold currentChar. destruct (ahead s); [|discriminate].
  intros H Hc _. apply N.eqb_eq in H. congruence.
Qed.

Lemma advance_consumes s : ahead s <> [] -> consumes 1 s (advance s).
Proof.
  unfold advance, consumes. destruct (ahead s) as [|c r]; [congruence|].
  intros _. simpl. auto.
Qed.

Lemma span_length p l :
  List.length l = List.length (fst (span p l)) + List.length (snd (span p l)).
Proof.
  induction l as [|c l IH]; simpl; [reflexivity|].
  destruct (p c); simpl; [|reflexivity].
  destruct (span p l); simpl in *. lia.
Qed.

Lemma takeWhile_consumes p s v s' :
  takeWhile p s = (v, s') -> consumes (List.length v) s s'.
Proof.
  unfold takeWhile. pose proof (span_length p (ahead s)) as H.
  destruct (span p (ahead s)) as [a b]. intros E. inversion E; subst.
  unfold consumes; simpl in *. auto.
Qed.

Lemma takeWhile_head p s v s' :
  p (currentChar s) = true -> ahead s <> [] -> takeWhile p s = (v, s') -> v <> [].
Proof.
  unfold takeWhile, currentChar. destruct (ahead s) as [|c r]; [congruence|].
  intros Hp _. simpl. rewrite Hp.
  destruct (span p r). intros E. inversion E. discriminate.
Qed.

Lemma push_emits ty v s s' col :
  consumes (List.length v) s s' -> v <> [] ->
  emits s (push (createToken ty v (List.length v) col s') s').
Proof.
  intros (H1 & H2 & H3) Hv. eexists. simpl. repeat split.
  - rewrite H2. reflexivity.
  - assumption.
  - simpl. assumption.
  - simpl. destruct v; [congruence | simpl; lia].
Qed.

Lemma single_emits ty c s : ahead s <> [] -> emits s (single ty c s).
Proof.
  intros H. unfold single. pose proof (advance_consumes s H).
  apply push_emits with (v := [c]); [chain | discriminate].
Qed.

Lemma scanComment_emits s : ahead s <> [] -> emits s (scanComment s).
Proof.
  intros H. unfold scanComment.
  destruct (takeWhile _ (advance s)) as [body s2] eqn:E.
  pose proof (advance_consumes s H). pose proof (takeWhile_consumes _ _ _ _ E).
  apply push_emits with (v := currentChar s :: body); [chain | discriminate].
Qed.

Lemma isAlpha_ahead s : isAlpha (currentChar s) = true -> ahead s <> [].
Proof. unfold currentChar. destruct (ahead s); [discriminate | discriminate]. Qed.

Lemma isDigit_ahead s : isDigit (currentChar s) = true -> ahead s <> [].
Proof. unfold currentChar. destruct (ahead s); [discriminate | discriminate]. Qed.

Lemma scanIdentifier_emits s :
  isAlpha (currentChar s) = true -> emits s (scanIdentifier s).
Proof.
  intros H. unfold scanIdentifier.
  destruct (takeWhile _ s) as [v s1] eqn:E.
  apply push_emits.
  - apply takeWhile_consumes with (1 := E).
  - eapply takeWhile_head; [| apply isAlpha_ahead, H | exact E].
    unfold isAlphaNumeric. cbv beta. rewrite H. reflexivity.
Qed.

Lemma scanString_emits q s :
  ahead s <> [] -> q <> NUL -> emits s (scanString q s).
Proof.
  intros H Hq. unfold scanString.
  destruct (takeWhile _ (advance s)) as [body s1] eqn:E.
  pose proof (advance_consumes s H). pose proof (takeWhile_consumes _ _ _ _ E).
  destruct (currentChar s1 =? q)%N eqn:Q.
  - pose proof (advance_consumes s1 (nonNul_ahead _ _ Q Hq)).
    apply push_emits with (v := (q :: body) ++ [q]); [chain | discriminate].
  - apply push_emits with (v := q :: body); [chain | discriminate].
Qed.

Lemma scanNumber_emits s :
  isDigit (currentChar s) = true \/ (currentChar s =? ch "-")%N = true ->
  emits s (scanNumber s).
Proof.
  intros H. unfold scanNumber.
  (* sign *)
  set (p0 := if (currentChar s =? ch "-")%N then ([ch "-"], advance s) else ([], s)).
  assert (C0 : consumes (List.length (fst p0)) s (snd p0)
               /\ (fst p0 = [] -> isDigit (currentChar (snd p0)) = true)).
  { subst p0. destruct (currentChar s =? ch "-")%N eqn:E; simpl.
    - split; [|discriminate].
      apply advance_consumes. apply nonNul_ahead with (1 := E). discriminate.
    - split; [chain|]. intros _. destruct H as [H|H]; [exact H | congruence]. }
  destruct p0 as [v0 s0]. simpl in C0. destruct C0 as [C0 N0].
  (* integer part *)
  destruct (takeWhile isDigit s0) as [ds s1] eqn:E1.
  pose proof (takeWhile_consumes _ _ _ _ E1) as C1.
  assert (N1 : v0 ++ ds <> []).
  { destruct v0; [|discriminate]. simpl. specialize (N0 eq_refl).
    eapply takeWhile_head; [exact N0 | apply isDigit_ahead, N0 | exact E1]. }
  (* decimal part *)
  set (p2 := if (currentChar s1 =? ch ".")%N && isDigit (peek s1)
             then let '(fs, s') := takeWhile isDigit (advance s1) in
                  ((v0 ++ ds) ++ [ch "."] ++ fs, s')
             else (v0 ++ ds, s1)).
  assert (C2 : consumes (List.length (fst p2)) s (snd p2) /\ fst p2 <> []).
  { subst p2. destruct ((currentChar s1 =? ch ".")%N && isDigit (peek s1)) eqn:E.
    - apply andb_prop in E. destruct E as [E _].
      pose proof (advance_consumes s1 (nonNul_ahead _ _ E ltac:(discriminate))).
      destruct (takeWhile isDigit (advance s1)) as [fs s'] eqn:E2.
      pose proof (takeWhile_consumes _ _ _ _ E2). simpl. split; [chain|].
      destruct (v0 ++ ds); discriminate.
    - simpl. split; [chain | assumption]. }
  destruct p2 as [v2 s2]. simpl in C2. destruct C2 as [C2 N2].
  (* exponent *)
  match goal with
  | |- emits s (let '(v3, s3) := ?p in _) => set (p3 := p)
  end.
  assert (C3 : consumes (List.length (fst p3)) s (snd p3) /\ fst p3 <> []).
  { subst p3. destruct ((currentChar s2 =? ch "E")%N || (currentChar s2 =? ch "e")%N) eqn:E.
    - assert (Ha : ahead s2 <> []).
      { apply orb_prop in E. destruct E as [E|E]; apply nonNul_ahead with (1 := E); discriminate. }
      pose proof (advance_consumes s2 Ha) as Ca.
      set (pb := if (currentChar (advance s2) =? ch "+")%N || (currentChar (advance s2) =? ch "-")%N
                 then ((v2 ++ [currentChar s2]) ++ [currentChar (advance s2)], advance (advance s2))
                 else (v2 ++ [currentChar s2], advance s2)).
      assert (Cb : consumes (List.length (fst pb)) s (snd pb) /\ fst pb <> []).
      { subst pb.
        destruct ((currentChar (advance s2) =? ch "+")%N || (currentChar (advance s2) =? ch "-")%N) eqn:Es; simpl.
        - assert (Hb : ahead (advance s2) <> []).
          { apply orb_prop in Es. destruct Es as [Es|Es]; apply nonNul_ahead with (1 := Es); discriminate. }
          pose proof (advance_consumes _ Hb).
          split; [chain | destruct v2; discriminate].
        - split; [chain | destruct v2; discriminate]. }
      destruct pb as [vb sb]. simpl in Cb. destruct Cb as [Cb Nb].
      destruct (takeWhile isDigit sb) as [es sc] eqn:E4.
      pose proof (takeWhile_consumes _ _ _ _ E4). simpl. split; [chain|].
      destruct vb; [congruence | discriminate].
    - simpl. auto. }
  destruct p3 as [v3 s3]. simpl in C3. destruct C3 as [C3 N3].
  apply push_emits; assumption.
Qed.

Lemma scanToken_step s :
  ahead s <> [] -> emits s (scanToken s) \/ skips s (scanToken s).
Proof.
  intros H. unfold scanToken.
  destruct (isWhitespace (currentChar s)).
  { right. destruct (advance_consumes s H) as (A & B & C).
    unfold skips. simpl. auto. }
  left.
  destruct (currentChar s =? LF)%N.
  { destruct (advance_consumes s H) as (A & B & C).
    exists (mkToken NEWLINE [LF] (curLine (advance s)) (curColumn s) 1).
    simpl. rewrite B. repeat split; auto. }
  destruct ((currentChar s =? ch "$")%N || (currentChar s =? ch "%")%N).
  { apply scanComment_emits, H. }
  repeat match goal with
         | |- emits s (if (currentChar s =? ch "-")%N then _ else _) => fail 1
         | |- emits s (if ?b then single _ _ _ else _) =>
             destruct b; [apply single_emits, H|]
         end.
  destruct (currentChar s =? ch "-")%N eqn:Em.
  { destruct (isDigit (peek s)); [apply scanNumber_emits; auto | apply single_emits, H]. }
  repeat match goal with
         | |- emits s (if ?b then single _ _ _ else _) =>
             destruct b; [apply single_emits, H|]
         end.
  destruct (isDigit (currentChar s)) eqn:Ed.
  { apply scanNumber_emits; auto. }
  destruct (isAlpha (currentChar s)) eqn:Ea.
  { apply scanIdentifier_emits, Ea. }
  destruct ((currentChar s =? DQUOTE)%N || (currentChar s =? SQUOTE)%N) eqn:Eq.
  { apply scanString_emits; [exact H|].
    apply orb_prop in Eq. destruct Eq as [Eq|Eq]; apply N.eqb_eq in Eq;
      rewrite Eq; discriminate. }
  apply single_emits, H.
Qed.

Lemma sumLengths_app ts t : sumLengths (ts ++ [t]) = sumLengths ts + length t.
Proof. induction ts as [|x ts IH]; simpl; lia. Qed.

Lemma scanToken_progress s :
  ahead s <> [] ->
  List.length (ahead (scanToken s)) < List.length (ahead s)
  /\ accounted (scanToken s) = accounted s.
Proof.
  intros H. unfold accounted.
  destruct (scanToken_step s H) as [(t & A & B & C & D) | (A & B & C)].
  - rewrite A, B, sumLengths_app. lia.
  - rewrite A, B. lia.
Qed.

Lemma isAtEnd_iff s : isAtEnd s = true <-> ahead s = [].
Proof. unfold isAtEnd. destruct (ahead s); split; congruence. Qed.

Lemma scanAll_enough budget : forall s,
  List.length (ahead s) <= budget ->
  exists s', scanAll budget s = Some s' /\ ahead s' = []
             /\ accounted s' = accounted s.
Proof.
  induction budget as [|b IH]; intros s Hb.
  - exists s. simpl. destruct (ahead s) eqn:E; simpl in Hb; [|lia].
    unfold isAtEnd. rewrite E. auto.
  - simpl. destruct (isAtEnd s) eqn:E.
    + exists s. apply isAtEnd_iff in E. auto.
    + assert (H : ahead s <> []).
      { intros K. apply isAtEnd_iff in K. congruence. }
      destruct (scanToken_progress s H) as [P Q].
      destruct (IH (scanToken s)) as (s' & A & B & C); [lia|].
      exists s'. rewrite <- Q. auto.
Qed.





Lemma tokenize_finish (input : jsstring) :
  exists s', tokenize input = finish s'.
Proof.
  destruct (scanAll_enough (List.length input) (init input) (le_n _))
    as (s' & A & _).
  exists s'. unfold tokenize, tokenizeWithin. rewrite A. reflexivity.
Qed.


(** The [length] fields of the tokens of [tokenize input] and the
    number of characters [scanToken] dropped add up to the length of the
    input. *)
Lemma lengths_add_up (input : jsstring) :
  sumLengths (tokenize input) + discardedBy input = List.length input.
Proof.
  destruct (scanAll_enough (List.length input) (init input) (le_n _))
    as (s' & A & B & C).
  unfold tokenize, tokenizeWithin, discardedBy. rewrite A. simpl.
  unfold finish. rewrite sumLengths_app. simpl.
  unfold accounted in C. rewrite B in C. simpl in C. lia.
Qed.

End LexerProperties.

(* ------------------------------------------------------------------ *)
(** ** The parser *)
(* ------------------------------------------------------------------ *)

Section ParserProperties.
Context {cm : CaseMapping}.
Import Parser.

(** ** Budgets: more is never worse *)

Lemma Refines_refl {A} (m : M A) : Refines m m.
Proof. intros s. right. reflexivity. Qed.

Lemma Refines_bind {A B} (m m' : M A) (k k' : A -> M B) :
  Refines m m' -> (forall a, Refines (k a) (k' a)) ->
  Refines (bind m k) (bind m' k').
Proof.
  intros Hm Hk s. unfold bind. destruct (Hm s) as [E|E]; rewrite E.
  - left. reflexivity.
  - destruct (m' s); [apply Hk | right; reflexivity | right; reflexivity].
Qed.

Lemma Refines_loop {A} (body body' : A -> M (Ctl A)) :
  (forall a, Refines (body a) (body' a)) ->
  forall b b', b <= b' -> forall a, Refines (loop b body a) (loop b' body' a).
Proof.
  intros Hb b. induction b as [|b IH]; intros b' Hle a s.
  - left. reflexivity.
  - destruct b' as [|b']; [lia|]. simpl.
    destruct (Hb a s) as [E|E]; rewrite E; [left; reflexivity|].
    destruct (body' a s) as [[a'|a'] s'| |]; try (right; reflexivity).
    apply IH. lia.
Qed.

Create HintDb refines discriminated.

Ltac refines :=
  repeat
    match goal with
    | |- Refines ?m ?m => apply Refines_refl
    | |- Refines (bind _ _) (bind _ _) => apply Refines_bind; [|intro]
    | |- Refines (loop _ _ _) (loop _ _ _) => apply Refines_loop; [intro | assumption]
    | |- Refines (if ?c then _ else _) (if ?c then _ else _) => destruct c
    | |- Refines (match ?x with _ => _ end) (match ?x with _ => _ end) => destruct x
    | |- Refines (let '(_, _) := ?x in _) _ => destruct x
    | |- Refines _ _ => solve [auto with refines]
    end.

Section Monotone.
Variables (b b' : nat).
Hypothesis Hle : b <= b'.

Lemma unitBody_refines vars : Refines (unitBody b vars) (unitBody b' vars).
Proof. unfold unitBody. destruct vars as [[[u ps] fs] prs]. refines. Qed.
#[local] Hint Resolve unitBody_refines : refines.

Lemma parseUnitOperation_refines :
  Refines (parseUnitOperation b) (parseUnitOperation b').
Proof. unfold parseUnitOperation. refines. Qed.

Lemma parseComponentStatement_refines :
  Refines (parseComponentStatement b) (parseComponentStatement b').
Proof. unfold parseComponentStatement. refines. Qed.

Lemma parseStreamStatement_refines :
  Refines (parseStreamStatement b) (parseStreamStatement b').
Proof. unfold parseStreamStatement. refines. Qed.

Lemma parseThermodynamicStatement_refines :
  Refines (parseThermodynamicStatement b) (parseThermodynamicStatement b').
Proof. unfold parseThermodynamicStatement. refines. Qed.

Lemma parsePrintStatement_refines :
  Refines (parsePrintStatement b) (parsePrintStatement b').
Proof. unfold parsePrintStatement. refines. Qed.
#[local] Hint Resolve parseUnitOperation_refines parseComponentStatement_refines
  parseStreamStatement_refines parseThermodynamicStatement_refines
  parsePrintStatement_refines : refines.

Lemma statementsBody_refines stmt stmt' acc :
  Refines stmt stmt' -> Refines (statementsBody stmt acc) (statementsBody stmt' acc).
Proof. intros H. unfold statementsBody. refines. Qed.

Lemma asStatement_refines {A} (wrap : A -> StatementNode) m m' :
  Refines m m' -> Refines (asStatement wrap m) (asStatement wrap m').
Proof. intros H. unfold asStatement. refines. Qed.
#[local] Hint Resolve statementsBody_refines asStatement_refines : refines.

Lemma parseSection_refines : Refines (parseSection b) (parseSection b').
Proof. unfold parseSection. refines. Qed.
#[local] Hint Resolve parseSection_refines : refines.

Lemma sectionsBody_refines acc : Refines (sectionsBody b acc) (sectionsBody b' acc).
Proof. unfold sectionsBody. refines. Qed.
#[local] Hint Resolve sectionsBody_refines : refines.

Lemma parseM_refines : Refines (parseM b) (parseM b').
Proof. unfold parseM. refines. Qed.

End Monotone.

(** A call that returns on a budget returns the same on every larger
    budget. *)
Lemma parse_more (b b' : nat) (tokens : list Token) p s :
  b <= b' -> parse b tokens = Return p s -> parse b' tokens = Return p s.
Proof.
  intros Hle H. unfold parse in *.
  destruct (parseM_refines b b' Hle (mkState tokens 1)) as [E|E]; congruence.
Qed.


(** ** A loop that does not move *)

Lemma loop_stuck {A} (body : A -> M (Ctl A)) (a : A) (s : State) :
  body a s = Return (Continue a) s ->
  forall budget, loop budget body a s = Exhausted.
Proof.
  intros H budget. induction budget as [|n IH]; simpl; [reflexivity|].
  rewrite H. exact IH.
Qed.

Lemma bind_Exhausted {A B} (m : M A) (k : A -> M B) s :
  m s = Exhausted -> bind m k s = Exhausted.
Proof. intros H. unfold bind. rewrite H. reflexivity. Qed.

Lemma bind_Return {A B} (m : M A) (k : A -> M B) s a s' :
  m s = Return a s' -> bind m k s = k a s'.
Proof. intros H. unfold bind. rewrite H. reflexivity. Qed.

Lemma unit_statements_stuck budget t rest cl acc :
  inert (type t) = true ->
  loop budget
       (statementsBody (asStatement UnitOperation (parseUnitOperation budget)))
       acc (mkState (t :: rest) cl)
  = Exhausted.
Proof.
  intros H. apply loop_stuck.
  destruct t as [ty v ln col len]. simpl in H.
  destruct ty; try discriminate H; reflexivity.
Qed.

Lemma unit_section_stuck budget u t rest cl :
  type u = UNIT_OPERATIONS -> inert (type t) = true ->
  parseSection budget (mkState (u :: t :: rest) cl) = Exhausted.
Proof.
  intros Hu Ht. destruct u as [ty v ln col len]. simpl in Hu. subst ty.
  pose proof (unit_statements_stuck budget t rest ln [] Ht) as K.
  assert (E : consumeNewlinesS (mkState (t :: rest) ln) = mkState (t :: rest) ln).
  { destruct t as [ty' v' ln' col' len']. simpl in Ht.
    destruct ty'; try discriminate Ht; reflexivity. }
  unfold parseSection, bind, check, checkNext, getCurrentLine, advance,
    consumeNewlines, ret.
  cbn -[loop statementsBody asStatement parseUnitOperation consumeNewlinesS].
  rewrite E, K. reflexivity.
Qed.

(** What is ahead when the input starts with the header of a UNIT
    OPERATIONS section followed by an inert token. *)
Lemma parse_stuck budget u t rest :
  type u = UNIT_OPERATIONS -> inert (type t) = true ->
  parse budget (u :: t :: rest) = Exhausted.
Proof.
  intros Hu Ht. unfold parse, parseM.
  assert (E : skipWhitespaceAndComments (mkState (u :: t :: rest) 1)
              = Return tt (mkState (u :: t :: rest) 1)).
  { destruct u as [ty v ln col len]. simpl in Hu. subst ty. reflexivity. }
  rewrite (bind_Return _ _ _ _ _ E).
  apply bind_Exhausted.
  destruct budget as [|n]; [reflexivity|].
  simpl loop. unfold sectionsBody at 1.
  assert (F : isAtEnd (mkState (u :: t :: rest) 1)
              = Return false (mkState (u :: t :: rest) 1)).
  { destruct u as [ty v ln col len]. simpl in Hu. subst ty. reflexivity. }
  rewrite (bind_Return _ _ _ _ _ F).
  rewrite (bind_Exhausted _ _ _ (unit_section_stuck (S n) u t rest 1 Hu Ht)).
  reflexivity.
Qed.
End ParserProperties.

(** C1 (the code at the failing input): on the tokens of the text
    "UNIT OPERATIONS", the header of a section as the tests of the
    repository write it, [parse] returns on no budget: the statement
    loop of the section meets the identifier OPERATIONS, on which
    [parseUnitOperation] returns [null] without moving the cursor, and
    no iteration ceiling ends the loop. *)
Theorem parse_hangs :
  forall budget,
    Parser.parse (cm := basicLatin) budget
                 (Lexer.tokenize (cm := basicLatin) hangingText)
    = Parser.Exhausted.
Proof.
  intros budget.
  set (toks := Lexer.tokenize hangingText). vm_compute in toks. subst toks.
  apply parse_stuck; reflexivity.
Qed.

Section ValueProperties.
Import Parser.

Lemma tt_eqb_eq a b : tt_eqb a b = true <-> a = b.
Proof. unfold tt_eqb. destruct (TokenType_eq_dec a b); split; congruence. Qed.

Lemma tt_eqb_refl a : tt_eqb a a = true.
Proof. apply tt_eqb_eq. reflexivity. Qed.

Lemma parseListRest_extends l : forall cl values,
  exists more, fst (parseListRest l cl values) = values ++ more.
Proof.
  assert (H : forall n l, List.length l <= n -> forall cl values,
             exists more, fst (parseListRest l cl values) = values ++ more).
  { induction n as [|n IH]; intros l0 Hl cl values.
    - destruct l0; [|simpl in Hl; lia]. exists []. simpl. rewrite app_nil_r. reflexivity.
    - destruct l0 as [|sep [|v rest']].
      + exists []. simpl. rewrite app_nil_r. reflexivity.
      + exists []. simpl. rewrite app_nil_r.
        destruct (checkS COMMA _ || checkS SLASH _); reflexivity.
      + simpl parseListRest.
        destruct (checkS COMMA _ || checkS SLASH _);
          [|exists []; simpl; rewrite app_nil_r; reflexivity].
        destruct (checkS NUMBER _).
        { destruct (IH rest' ltac:(simpl in Hl; lia) (line v) (values ++ [VNumber (numberOf v)]))
            as [more E]. rewrite E. rewrite <- app_assoc. eauto. }
        destruct (checkS IDENTIFIER _).
        { destruct (IH rest' ltac:(simpl in Hl; lia) (line v) (values ++ [VIdentifier (identifierOf v)]))
            as [more E]. rewrite E. rewrite <- app_assoc. eauto. }
        exists []. simpl. rewrite app_nil_r. reflexivity. }
  intros. eapply H. apply le_n.
Qed.

(** C9: with the cursor on a token [t], [parseValue] returns a value;
    the value is a List node exactly when [t] is a number or an
    identifier and the token that follows it is a comma or a slash.  The
    list then starts with the value of [t], and its separator is the
    slash when the token after [t] is a slash and the comma otherwise.
    In every other case the value is the scalar made of [t]: a Number
    for a number token, a String for a string token, an Identifier
    otherwise. *)
Theorem parseValue_list_or_scalar (t : Token) (rest : list Token) (cl : nat) :
  exists v s',
    parseValue (mkState (t :: rest) cl) = Return v s'
    /\ isList v = startsList t rest
    /\ (startsList t rest = true ->
        exists more,
          valuesOf v = scalarOf t :: more
          /\ separatorOf v
             = Some (match rest with
                     | next :: _ => if tt_eqb (type next) SLASH then SepSlash else SepComma
                     | [] => SepComma
                     end))
    /\ (startsList t rest = false -> v = scalarOf t).
Proof.
  unfold startsList, scalarOf, isSeparator.
  destruct t as [ty v ln col len]. simpl type.
  assert (L : forall ty' v' ln' col' len' rest' first,
             exists vs s1,
               parseListRest (mkToken ty' v' ln' col' len' :: rest') ln [first] = (vs, s1)
               /\ exists more, vs = first :: more).
  { intros. destruct (parseListRest _ ln [first]) as [vs s1] eqn:E.
    exists vs, s1. split; [reflexivity|].
    destruct (parseListRest_extends (mkToken ty' v' ln' col' len' :: rest') ln [first])
      as [more K]. rewrite E in K. simpl in K. eauto. }
  destruct ty;
    try (eexists; eexists; split; [reflexivity|];
         simpl; repeat split; intros; try discriminate; auto; fail);
    (destruct rest as [|[ty' v' ln' col' len'] rest'];
     [ eexists; eexists; split; [reflexivity|];
       simpl; repeat split; intros; try discriminate; auto
     | destruct ty';
       try (eexists; eexists; split; [reflexivity|];
            simpl; repeat split; intros; try discriminate; auto; fail) ]).
  all: match goal with
       | |- context [parseValue (mkState (?t :: mkToken ?sep _ _ _ _ :: _) _)] =>
           destruct (L sep v' ln' col' len' rest' (scalarOf t))
             as (vs & s1 & E & more & K)
       end;
       unfold parseValue, parseList, isListStart, bind, check, ret,
         getCurrentLine, parseNumber, parseIdentifier, currentToken, advance;
       cbn -[parseListRest];
       unfold scalarOf, numberOf, identifierOf in E, K;
       cbn -[parseListRest] in E, K; rewrite E;
       eexists; eexists; (split; [reflexivity|]);
       subst vs; simpl; repeat split; intros; try discriminate; eauto.
Qed.
End ValueProperties.

(** *** No [TypeError] on tokens that end with the end-of-input token *)

Section NoThrow.
Context {cm : CaseMapping}.
Import Parser.

Lemma eofLast_tail t rest :
  eofLast (t :: rest) -> tt_eqb (type t) EOF = false -> eofLast rest.
Proof.
  intros (pre & eof & E & T) H. destruct pre as [|p pre]; simpl in E; inversion E; subst.
  - rewrite T in H. discriminate.
  - exists pre, eof. auto.
Qed.

Lemma eofLast_nonempty l : eofLast l -> l <> [].
Proof. intros (pre & eof & E & _) K. subst. destruct pre; discriminate. Qed.

Lemma advanceS_eofLast s : eofLast (ahead s) -> eofLast (ahead (advanceS s)).
Proof.
  unfold advanceS. destruct (ahead s) as [|t rest] eqn:E; [rewrite E; auto|].
  destruct (tt_eqb (type t) EOF) eqn:T; [rewrite E; auto|].
  simpl. intros H. eapply eofLast_tail; eauto.
Qed.

Lemma checkS_not_eof ty t rest cl :
  checkS ty (mkState (t :: rest) cl) = true -> tt_eqb (type t) EOF = false.
Proof. unfold checkS. simpl. destruct (tt_eqb (type t) EOF); congruence. Qed.

Lemma consumeNewlinesL_eofLast l : forall cl,
  eofLast l -> eofLast (ahead (consumeNewlinesL l cl)).
Proof.
  induction l as [|t rest IH]; intros cl H; [exact H|].
  simpl consumeNewlinesL. destruct (checkS NEWLINE _) eqn:C; [|exact H].
  apply IH. eapply eofLast_tail; [exact H|]. eapply checkS_not_eof, C.
Qed.

Lemma skipWhitespaceAndCommentsL_eofLast l : forall cl,
  eofLast l -> eofLast (ahead (skipWhitespaceAndCommentsL l cl)).
Proof.
  induction l as [|t rest IH]; intros cl H; [exact H|].
  simpl skipWhitespaceAndCommentsL.
  destruct (checkS NEWLINE _ || checkS COMMENT _) eqn:C; [|exact H].
  apply IH. eapply eofLast_tail; [exact H|].
  apply orb_prop in C. destruct C as [C|C]; eapply checkS_not_eof, C.
Qed.

Lemma advanceToNewlineL_eofLast l : forall cl,
  eofLast l -> eofLast (ahead (advanceToNewlineL l cl)).
Proof.
  induction l as [|t rest IH]; intros cl H; [exact H|].
  simpl advanceToNewlineL.
  destruct (negb (isAtEndS _) && negb (checkS NEWLINE _)) eqn:C; [|exact H].
  apply IH. eapply eofLast_tail; [exact H|].
  apply andb_prop in C. destruct C as [C _]. apply negb_true_iff in C. exact C.
Qed.

Lemma parseListRest_eofLast n : forall l cl values,
  List.length l <= n -> eofLast l -> eofLast (ahead (snd (parseListRest l cl values))).
Proof.
  induction n as [|n IH]; intros l cl values Hl H.
  - destruct l; [|simpl in Hl; lia]. exact H.
  - destruct l as [|sep [|v rest']].
    + exact H.
    + simpl. destruct (checkS COMMA _ || checkS SLASH _) eqn:C; [|exact H].
      simpl. eapply eofLast_tail; [exact H|].
      apply orb_prop in C. destruct C as [C|C]; eapply checkS_not_eof, C.
    + simpl parseListRest.
      destruct (checkS COMMA _ || checkS SLASH _) eqn:C; [|exact H].
      assert (H1 : eofLast (v :: rest')).
      { eapply eofLast_tail; [exact H|].
        apply orb_prop in C. destruct C as [C|C]; eapply checkS_not_eof, C. }
      destruct (checkS NUMBER _) eqn:Cn.
      { apply IH; [simpl in Hl; lia|].
        eapply eofLast_tail; [exact H1 | eapply checkS_not_eof, Cn]. }
      destruct (checkS IDENTIFIER _) eqn:Ci.
      { apply IH; [simpl in Hl; lia|].
        eapply eofLast_tail; [exact H1 | eapply checkS_not_eof, Ci]. }
      exact H1.
Qed.

Lemma Safe_ret {A} (a : A) : Safe (ret a).
Proof. intros s H. exact H. Qed.

Lemma Safe_bind {A B} (m : M A) (k : A -> M B) :
  Safe m -> (forall a, Safe (k a)) -> Safe (bind m k).
Proof.
  intros Hm Hk s H. unfold bind. specialize (Hm s H).
  destruct (m s) as [a s'| |]; [apply Hk, Hm | exact Hm | exact I].
Qed.

Lemma Safe_loop {A} (body : A -> M (Ctl A)) :
  (forall a, Safe (body a)) -> forall b a, Safe (loop b body a).
Proof.
  intros Hb b. induction b as [|b IH]; intros a s H; simpl; [exact I|].
  specialize (Hb a s H). destruct (body a s) as [[a'|a'] s'| |]; auto.
  apply IH, Hb.
Qed.

Lemma Safe_pure {A} (f : State -> A) : Safe (fun s => Return (f s) s).
Proof. intros s H. exact H. Qed.

Lemma Safe_currentToken : Safe currentToken.
Proof.
  intros s H. unfold currentToken, currentOpt.
  destruct (ahead s) eqn:E; simpl; [|rewrite E; exact H].
  apply eofLast_nonempty in H. contradiction.
Qed.

Lemma Safe_advance : Safe advance.
Proof. intros s H. apply advanceS_eofLast, H. Qed.

Lemma Safe_consumeNewlines : Safe consumeNewlines.
Proof. intros s H. apply consumeNewlinesL_eofLast, H. Qed.

Lemma Safe_skipWhitespaceAndComments : Safe skipWhitespaceAndComments.
Proof. intros s H. apply skipWhitespaceAndCommentsL_eofLast, H. Qed.

Lemma Safe_advanceLine : Safe advanceLine.
Proof.
  intros s H. unfold advanceLine, advanceLineS, consumeNewlinesS.
  apply consumeNewlinesL_eofLast, advanceToNewlineL_eofLast, H.
Qed.

Lemma Safe_check ty : Safe (check ty).
Proof. apply Safe_pure. Qed.

Lemma Safe_checkNext ty : Safe (checkNext ty).
Proof. apply Safe_pure. Qed.

Lemma Safe_isAtEnd : Safe isAtEnd.
Proof. apply Safe_pure. Qed.

Lemma Safe_getCurrentLine : Safe getCurrentLine.
Proof. apply Safe_pure. Qed.

Create HintDb safe discriminated.
#[local] Hint Resolve Safe_ret Safe_currentToken Safe_advance Safe_consumeNewlines
  Safe_skipWhitespaceAndComments Safe_advanceLine Safe_check Safe_checkNext
  Safe_isAtEnd Safe_getCurrentLine : safe.

Ltac safe :=
  repeat
    match goal with
    | |- Safe (bind _ _) => apply Safe_bind; [|intro]
    | |- Safe (loop _ _ _) => apply Safe_loop; intro
    | |- Safe (if ?c then _ else _) => destruct c
    | |- Safe (match ?x with _ => _ end) => destruct x
    | |- Safe (let '(_, _) := ?x in _) => destruct x
    | |- Safe _ => solve [auto with safe]
    end.

Lemma Safe_consume ty : Safe (consume ty).
Proof. unfold consume. safe. Qed.

Lemma Safe_isNextSection : Safe isNextSection.
Proof. unfold isNextSection. safe. Qed.

Lemma Safe_isListStart : Safe isListStart.
Proof.
  unfold isListStart. safe. intros s H. destruct (peekOpt s); exact H.
Qed.
#[local] Hint Resolve Safe_consume Safe_isNextSection Safe_isListStart : safe.

Lemma Safe_parseNumber : Safe parseNumber.
Proof. unfold parseNumber. safe. Qed.

Lemma Safe_parseIdentifier : Safe parseIdentifier.
Proof. unfold parseIdentifier. safe. Qed.

Lemma Safe_parseString : Safe parseString.
Proof. unfold parseString. safe. Qed.
#[local] Hint Resolve Safe_parseNumber Safe_parseIdentifier Safe_parseString : safe.

Lemma Safe_parseList : Safe parseList.
Proof.
  unfold parseList. safe.
  intros s H.
  match goal with
  | |- context [parseListRest ?l ?c ?v] =>
      destruct (parseListRest l c v) as [vs s'] eqn:E
  end.
  change s' with (snd (vs, s')). rewrite <- E.
  eapply parseListRest_eofLast; [apply le_n | exact H].
Qed.
#[local] Hint Resolve Safe_parseList : safe.

Lemma Safe_parseValue : Safe parseValue.
Proof. unfold parseValue. safe. Qed.
#[local] Hint Resolve Safe_parseValue : safe.

Lemma Safe_parseParameter : Safe parseParameter.
Proof. unfold parseParameter. safe. Qed.

Lemma Safe_parseStreamReference : Safe parseStreamReference.
Proof. unfold parseStreamReference. safe. Qed.

Lemma Safe_parseComponent : Safe parseComponent.
Proof. unfold parseComponent. safe. Qed.
#[local] Hint Resolve Safe_parseParameter Safe_parseStreamReference
  Safe_parseComponent : safe.

Lemma Safe_itemsBody {A} c (item : M (option A)) acc :
  Safe item -> Safe (itemsBody c item acc).
Proof. intros H. unfold itemsBody. safe. Qed.

Lemma Safe_productsBody acc : Safe (productsBody acc).
Proof. unfold productsBody. safe. Qed.
#[local] Hint Resolve Safe_itemsBody Safe_productsBody : safe.

Variable budget : nat.

Lemma Safe_unitBody vars : Safe (unitBody budget vars).
Proof. unfold unitBody. destruct vars as [[[u ps] fs] prs]. safe. Qed.
#[local] Hint Resolve Safe_unitBody : safe.

Lemma Safe_parseUnitOperation : Safe (parseUnitOperation budget).
Proof. unfold parseUnitOperation. safe. Qed.

Lemma Safe_parseComponentStatement : Safe (parseComponentStatement budget).
Proof. unfold parseComponentStatement. safe. Qed.

Lemma Safe_parseStreamStatement : Safe (parseStreamStatement budget).
Proof. unfold parseStreamStatement. safe. Qed.

Lemma Safe_parseThermodynamicStatement : Safe (parseThermodynamicStatement budget).
Proof. unfold parseThermodynamicStatement. safe. Qed.

Lemma Safe_parsePrintStatement : Safe (parsePrintStatement budget).
Proof. unfold parsePrintStatement. safe. Qed.
#[local] Hint Resolve Safe_parseUnitOperation Safe_parseComponentStatement
  Safe_parseStreamStatement Safe_parseThermodynamicStatement
  Safe_parsePrintStatement : safe.

Lemma Safe_asStatement {A} (wrap : A -> StatementNode) m :
  Safe m -> Safe (asStatement wrap m).
Proof. intros H. unfold asStatement. safe. Qed.

Lemma Safe_statementsBody stmt acc : Safe stmt -> Safe (statementsBody stmt acc).
Proof. intros H. unfold statementsBody. safe. Qed.
#[local] Hint Resolve Safe_asStatement Safe_statementsBody : safe.

Lemma Safe_parseSection : Safe (parseSection budget).
Proof. unfold parseSection. safe. Qed.
#[local] Hint Resolve Safe_parseSection : safe.

Lemma Safe_sectionsBody acc : Safe (sectionsBody budget acc).
Proof. unfold sectionsBody. safe. Qed.
#[local] Hint Resolve Safe_sectionsBody : safe.

Lemma Safe_parseM : Safe (parseM budget).
Proof. unfold parseM. safe. Qed.

End NoThrow.


(* ------------------------------------------------------------------ *)
(** ** The symbol table *)
(* ------------------------------------------------------------------ *)

Lemma jsstring_eqb_eq (a b : jsstring) : Js.eqb a b = true <-> a = b.
Proof.
  revert b. induction a as [|x a IH]; intros [|y b]; simpl; split; try congruence.
  - intros H. apply andb_prop in H. destruct H as [H1 H2].
    apply N.eqb_eq in H1. apply IH in H2. congruence.
  - intros H. inversion H; subst. rewrite N.eqb_refl. apply IH. reflexivity.
Qed.

Lemma jsstring_eqb_refl (a : jsstring) : Js.eqb a a = true.
Proof. apply jsstring_eqb_eq. reflexivity. Qed.

Lemma jsstring_eqb_neq (a b : jsstring) : a <> b -> Js.eqb a b = false.
Proof.
  intros H. destruct (Js.eqb a b) eqn:E; [|reflexivity].
  apply jsstring_eqb_eq in E. contradiction.
Qed.

Lemma jsstring_eqb_sym (a b : jsstring) : Js.eqb a b = Js.eqb b a.
Proof.
  destruct (Js.eqb a b) eqn:E.
  - apply jsstring_eqb_eq in E. subst. symmetry. apply jsstring_eqb_refl.
  - destruct (Js.eqb b a) eqn:F; [|reflexivity].
    apply jsstring_eqb_eq in F. subst. rewrite jsstring_eqb_refl in E. discriminate.
Qed.

Section MapFacts.
Import SymbolTable.

Lemma get_cons k k' v m :
  get k ((k', v) :: m) = if Js.eqb k' k then Some v else get k m.
Proof. unfold get. simpl. destruct (Js.eqb k' k); reflexivity. Qed.

Lemma get_app_absent k m m' : get k m = None -> get k (m ++ m') = get k m'.
Proof.
  induction m as [|[k' v] m IH]; [reflexivity|].
  rewrite get_cons. simpl app. rewrite get_cons.
  destruct (Js.eqb k' k); [discriminate | exact IH].
Qed.

Lemma get_app_present k m m' v : get k m = Some v -> get k (m ++ m') = Some v.
Proof.
  induction m as [|[k' v'] m IH]; [discriminate|].
  rewrite get_cons. simpl app. rewrite get_cons.
  destruct (Js.eqb k' k); [auto | exact IH].
Qed.

Lemma get_update_same k f m : get k (update k f m) = option_map f (get k m).
Proof.
  induction m as [|[k' v] m IH]; [reflexivity|].
  simpl update. destruct (Js.eqb k' k) eqn:E; rewrite !get_cons, E; [reflexivity | exact IH].
Qed.

Lemma get_update_other k k' f m : k <> k' -> get k' (update k f m) = get k' m.
Proof.
  intros H. induction m as [|[k0 v] m IH]; [reflexivity|].
  simpl update. destruct (Js.eqb k0 k) eqn:E; rewrite !get_cons.
  - apply jsstring_eqb_eq in E. subst k0. rewrite (jsstring_eqb_neq _ _ H). reflexivity.
  - rewrite IH. reflexivity.
Qed.

Lemma keys_update k f m : map fst (update k f m) = map fst m.
Proof.
  induction m as [|[k' v] m IH]; [reflexivity|].
  simpl. destruct (Js.eqb k' k); simpl; [reflexivity | rewrite IH; reflexivity].
Qed.

Lemma get_None_keys k m : get k m = None <-> ~ In k (map fst m).
Proof.
  induction m as [|[k' v] m IH]; simpl.
  - split; auto.
  - rewrite get_cons. destruct (Js.eqb k' k) eqn:E.
    + apply jsstring_eqb_eq in E. subst. split; [discriminate | intros H; exfalso; auto].
    + rewrite IH. split; intros H.
      * intros [K|K]; [subst; rewrite jsstring_eqb_refl in E; discriminate | auto].
      * auto.
Qed.

Lemma has_get k m : has k m = true <-> exists v, get k m = Some v.
Proof.
  unfold has. destruct (get k m); split; eauto; try discriminate.
  intros [v H]. discriminate.
Qed.

Lemma has_false k m : has k m = false <-> get k m = None.
Proof. unfold has. destruct (get k m); split; congruence. Qed.

(** In a map without repeated keys, the entries are what [get] finds. *)
Lemma In_get k v m : NoDup (map fst m) -> (In (k, v) m <-> get k m = Some v).
Proof.
  induction m as [|[k' v'] m IH]; simpl; intros ND.
  - split; [contradiction | discriminate].
  - inversion ND as [|? ? Hn ND']; subst. rewrite get_cons.
    destruct (Js.eqb k' k) eqn:E.
    + apply jsstring_eqb_eq in E. subst k'. split.
      * intros [H|H]; [congruence|]. exfalso. apply Hn.
        change k with (fst (k, v)). apply in_map, H.
      * intros H. left. congruence.
    + rewrite <- (IH ND'). split; [|auto].
      intros [H|H]; [|exact H]. inversion H; subst. rewrite jsstring_eqb_refl in E. discriminate.
Qed.

End MapFacts.

Section BuildFacts.
Import SymbolTable.
Context {cm : CaseMapping}.
Variable documentText : jsstring.

Lemma forEach_app {A} (xs ys : list A) step m :
  forEach (xs ++ ys) step m = forEach ys step (forEach xs step m).
Proof. unfold forEach. apply fold_left_app. Qed.

Lemma runAll_app cs cs' m : runAll (cs ++ cs') m = runAll cs' (runAll cs m).
Proof. unfold runAll. apply fold_left_app. Qed.

Lemma forEach_flat_map {A} (xs : list A) (f : A -> list Call) step :
  (forall x m, step x m = runAll (f x) m) ->
  forall m, forEach xs step m = runAll (flat_map f xs) m.
Proof.
  intros H. induction xs as [|x xs IH]; intros m; [reflexivity|].
  simpl flat_map. rewrite runAll_app, <- IH, <- H. reflexivity.
Qed.

Lemma forEach_map {A} (xs : list A) (f : A -> Call) step :
  (forall x m, step x m = run (f x) m) ->
  forall m, forEach xs step m = runAll (map f xs) m.
Proof.
  intros H. induction xs as [|x xs IH]; intros m; [reflexivity|].
  simpl. unfold runAll in *. simpl. rewrite <- H. apply IH.
Qed.

Lemma processUnitOperation_calls u m :
  processUnitOperation u m = runAll (callsOfUnitOperation u) m.
Proof.
  unfold processUnitOperation, callsOfUnitOperation.
  rewrite !runAll_app.
  rewrite <- !forEach_map with (step := fun p => addStreamReference (name (streamName p)) (ref_startLine p) product) by reflexivity.
  rewrite <- !forEach_map with (step := fun f => addStreamReference (name (streamName f)) (ref_startLine f) feed) by reflexivity.
  destruct (uid u); reflexivity.
Qed.

Lemma processSection_calls section m :
  processSection documentText section m = runAll (callsOfSection documentText section) m.
Proof.
  unfold processSection, callsOfSection, processComponentData, processStreamData,
    processUnitOperations.
  assert (Z : forall ty, (forall stmt, callsOfStatement documentText ty stmt = []) ->
                         m = runAll (flat_map (callsOfStatement documentText ty)
                                              (statements section)) m).
  { intros ty H. induction (statements section) as [|stmt l IH]; [reflexivity|].
    simpl. rewrite H. exact IH. }
  destruct (sectionType section).
  - apply forEach_flat_map. intros [u|c|s|t|p] m'; try reflexivity.
    simpl. apply forEach_map. reflexivity.
  - apply forEach_flat_map. intros [u|c|s|t|p] m'; reflexivity.
  - apply Z. intros [u|c|s|t|p]; reflexivity.
  - apply forEach_flat_map. intros [u|c|s|t|p] m'; try reflexivity.
    simpl. apply processUnitOperation_calls.
  - apply Z. intros [u|c|s|t|p]; reflexivity.
  - apply Z. intros [u|c|s|t|p]; reflexivity.
Qed.

Lemma build_calls ast :
  build documentText ast = runAll (callsOf documentText ast) [].
Proof.
  unfold build, callsOf. apply forEach_flat_map. apply processSection_calls.
Qed.

End BuildFacts.

Section StepFacts.
Import SymbolTable.
Context {cm : CaseMapping}.

Lemma set_absent k v m : get k m = None -> set k v m = m ++ [(k, v)].
Proof. intros H. unfold set. apply has_false in H. rewrite H. reflexivity. Qed.

Lemma get_snoc_same k v m : get k m = None -> get k (m ++ [(k, v)]) = Some v.
Proof. intros H. rewrite get_app_absent by exact H. rewrite get_cons, jsstring_eqb_refl. reflexivity. Qed.

Lemma get_snoc_other k k' v m : k <> k' -> get k' (m ++ [(k, v)]) = get k' m.
Proof.
  intros H. destruct (get k' m) eqn:E.
  - apply get_app_present, E.
  - rewrite get_app_absent by exact E. rewrite get_cons, (jsstring_eqb_neq _ _ H). reflexivity.
Qed.

Lemma update_same k m : update k (fun s => s) m = m.
Proof.
  induction m as [|[k' v] m IH]; [reflexivity|].
  simpl. destruct (Js.eqb k' k); [reflexivity | rewrite IH; reflexivity].
Qed.

(** The two ways a call ends: it appends a new symbol under its key, or
    it rewrites the symbol its key holds. *)
Lemma run_absent c m :
  get (keyOf c) m = None ->
  exists sym,
    run c m = m ++ [(keyOf c, sym)]
    /\ sym_name sym = keyOf c /\ kind sym = kindOf c
    /\ definedAt sym = lineOf c /\ references sym = firstReferences c.
Proof.
  intros H. pose proof H as Hh. apply has_false in Hh.
  destruct c; simpl in *; unfold addComponent, addStream, addStreamReference, addUnit;
    rewrite Hh; simpl; rewrite set_absent by exact H; eexists; split;
      try reflexivity; simpl; auto.
Qed.

Lemma update_get k f m sym :
  get k m = Some sym -> update k f m = update k (fun _ => f sym) m.
Proof.
  induction m as [|[k' v] m IH]; [discriminate|].
  rewrite get_cons. simpl. destruct (Js.eqb k' k).
  - intros H. inversion H. reflexivity.
  - intros H. rewrite (IH H). reflexivity.
Qed.

Lemma update_unchanged k m sym :
  get k m = Some sym -> update k (fun _ => sym) m = m.
Proof.
  intros H. rewrite <- (update_get k (fun s => s) m sym H). apply update_same.
Qed.

Lemma run_present c m sym :
  get (keyOf c) m = Some sym ->
  exists sym',
    run c m = update (keyOf c) (fun _ => sym') m
    /\ sym_name sym' = sym_name sym /\ kind sym' = kind sym
    /\ definedAt sym' = definedAt sym
    /\ references sym' = references sym ++ appendedTo sym c.
Proof.
  intros H. assert (Hh : has (keyOf c) m = true) by (apply has_get; eauto).
  destruct c; simpl in *; unfold addComponent, addStream, addStreamReference, addUnit;
    rewrite Hh; simpl.
  - exists sym. rewrite update_unchanged by exact H. rewrite app_nil_r. auto.
  - rewrite (update_get _ _ _ _ H). eexists. split; [reflexivity|].
    destruct (kind_eqb (kind sym) STREAM).
    + destruct (context_eqb ctx definition), lineText; simpl; auto.
    + rewrite app_nil_r. auto.
  - rewrite (update_get _ _ _ _ H). eexists. split; [reflexivity|]. simpl. auto.
  - exists sym. rewrite update_unchanged by exact H. rewrite app_nil_r. auto.
Qed.

(** What one call does to the map. *)
Lemma run_spec (c : Call) (m : Symbols) :
  let k := keyOf c in
  let m' := run c m in
  (get k m = None ->
   exists sym,
     get k m' = Some sym /\ map fst m' = map fst m ++ [k]
     /\ sym_name sym = k /\ kind sym = kindOf c
     /\ definedAt sym = lineOf c /\ references sym = firstReferences c)
  /\ (forall sym,
        get k m = Some sym ->
        exists sym',
          get k m' = Some sym' /\ map fst m' = map fst m
          /\ sym_name sym' = sym_name sym /\ kind sym' = kind sym
          /\ definedAt sym' = definedAt sym
          /\ references sym' = references sym ++ appendedTo sym c)
  /\ (forall k', k' <> k -> get k' m' = get k' m)
  /\ (forall k', has k' m = true -> has k' m' = true).
Proof.
  intros k m'. subst k m'.
  assert (A : get (keyOf c) m = None ->
              exists sym,
                get (keyOf c) (run c m) = Some sym
                /\ map fst (run c m) = map fst m ++ [keyOf c]
                /\ sym_name sym = keyOf c /\ kind sym = kindOf c
                /\ definedAt sym = lineOf c /\ references sym = firstReferences c).
  { intros H. destruct (run_absent c m H) as (sym & E & P). exists sym.
    rewrite E, map_app, get_snoc_same by exact H. auto. }
  assert (B : forall sym,
             get (keyOf c) m = Some sym ->
             exists sym',
               get (keyOf c) (run c m) = Some sym' /\ map fst (run c m) = map fst m
               /\ sym_name sym' = sym_name sym /\ kind sym' = kind sym
               /\ definedAt sym' = definedAt sym
               /\ references sym' = references sym ++ appendedTo sym c).
  { intros sym H. destruct (run_present c m sym H) as (sym' & E & P). exists sym'.
    rewrite E, get_update_same, keys_update, H. auto. }
  assert (C : forall k', k' <> keyOf c -> get k' (run c m) = get k' m).
  { intros k' Hk. destruct (get (keyOf c) m) as [sym|] eqn:G.
    - destruct (run_present c m sym G) as (sym' & E & _). rewrite E.
      apply get_update_other. congruence.
    - destruct (run_absent c m G) as (sym & E & _). rewrite E.
      apply get_snoc_other. congruence. }
  repeat split; auto.
  intros k' Hk. apply has_get in Hk. destruct Hk as [v Hv]. apply has_get.
  destruct (jsstring_eqb_eq k' (keyOf c)) as [_ _].
  destruct (Js.eqb k' (keyOf c)) eqn:E.
  - apply jsstring_eqb_eq in E. subst k'. destruct (B v Hv) as (sym' & G & _). eauto.
  - rewrite C; [eauto|]. intros K. subst k'. rewrite jsstring_eqb_refl in E. discriminate.
Qed.

End StepFacts.

Section Invariants.
Import SymbolTable.
Context {cm : CaseMapping}.
Variable documentText : jsstring.

Lemma NoDup_snoc {A} (l : list A) (a : A) : NoDup l -> ~ In a l -> NoDup (l ++ [a]).
Proof.
  intros H Ha. induction H as [|x l Hx H IH]; simpl.
  - constructor; [auto | constructor].
  - constructor.
    + rewrite in_app_iff. simpl. intros [K|[K|[]]]; [auto|]. subst. apply Ha. left. reflexivity.
    + apply IH. intros K. apply Ha. right. exact K.
Qed.

Lemma In_update k f m k' v' :
  In (k', v') (update k f m) ->
  In (k', v') m \/ (k' = k /\ exists v, In (k, v) m /\ v' = f v).
Proof.
  induction m as [|[k0 v0] m IH]; simpl; [auto|].
  destruct (Js.eqb k0 k) eqn:E; simpl.
  - apply jsstring_eqb_eq in E. subst k0. intros [H|H]; [|auto].
    inversion H; subst. right. split; [reflexivity|]. exists v0. auto.
  - intros [H|H]; [auto|]. destruct (IH H) as [K|(K1 & v & K2 & K3)]; [auto|].
    right. split; [exact K1|]. exists v. auto.
Qed.

Lemma run_wellFormed c m : wellFormed m -> wellFormed (run c m).
Proof.
  intros [ND NM]. destruct (get (keyOf c) m) as [sym|] eqn:G.
  - destruct (run_present c m sym G) as (sym' & E & N & _). rewrite E. split.
    + rewrite keys_update. exact ND.
    + intros k v H. apply In_update in H. destruct H as [H|(-> & v0 & H & ->)]; [auto|].
      rewrite N. apply NM. apply In_get; assumption.
  - destruct (run_absent c m G) as (sym & E & N & _). rewrite E. split.
    + rewrite map_app. apply NoDup_snoc; [exact ND|]. apply get_None_keys, G.
    + intros k v H. apply in_app_iff in H. destruct H as [H|[H|[]]]; [auto|].
      inversion H; subst. exact N.
Qed.

Lemma runAll_wellFormed cs : forall m, wellFormed m -> wellFormed (runAll cs m).
Proof.
  induction cs as [|c cs IH]; intros m H; [exact H|].
  apply IH, run_wellFormed, H.
Qed.

Lemma wellFormed_nil : wellFormed [].
Proof. split; [constructor | intros k sym []]. Qed.

Lemma build_wellFormed ast : wellFormed (build documentText ast).
Proof. rewrite build_calls. apply runAll_wellFormed, wellFormed_nil. Qed.

(** Every key written by a call is a canonical name. *)
Lemma run_keys c m k :
  In k (map fst (run c m)) -> In k (map fst m) \/ k = keyOf c.
Proof.
  destruct (get (keyOf c) m) as [sym|] eqn:G.
  - destruct (run_present c m sym G) as (sym' & E & _). rewrite E, keys_update. auto.
  - destruct (run_absent c m G) as (sym & E & _). rewrite E, map_app, in_app_iff.
    simpl. intros [H|[H|[]]]; auto.
Qed.

Lemma runAll_keys cs : forall m k,
  In k (map fst (runAll cs m)) ->
  In k (map fst m) \/ exists c, In c cs /\ k = keyOf c.
Proof.
  induction cs as [|c cs IH]; intros m k H; [auto|].
  simpl in H. apply IH in H. destruct H as [H|(c' & H1 & H2)].
  - apply run_keys in H. destruct H as [H|H]; [auto|]. right. exists c. simpl. auto.
  - right. exists c'. simpl. auto.
Qed.

Lemma keyOf_canonical c : exists n, keyOf c = toUpperCase n.
Proof. destruct c; simpl; eauto. Qed.

End Invariants.

Section UndefinedStreams.
Import SymbolTable.
Context {cm : CaseMapping}.
Variable documentText : jsstring.


Lemma kind_eqb_eq a b : kind_eqb a b = true <-> a = b.
Proof. destruct a, b; simpl; split; congruence. Qed.











End UndefinedStreams.

Section TreeFacts.
Import SymbolTable.
Context {cm : CaseMapping}.
Variable documentText : jsstring.

Lemma callsOf_In c ast :
  In c (callsOf documentText ast) <->
  exists section stmt,
    In section (sections ast) /\ In stmt (statements section)
    /\ In c (callsOfStatement documentText (sectionType section) stmt).
Proof.
  unfold callsOf, callsOfSection. rewrite in_flat_map. split.
  - intros (section & H1 & H2). apply in_flat_map in H2.
    destruct H2 as (stmt & H2 & H3). eauto.
  - intros (section & stmt & H1 & H2 & H3). exists section. split; [exact H1|].
    apply in_flat_map. eauto.
Qed.

Lemma unitOperationsOf_In u ast :
  In u (unitOperationsOf ast) <->
  exists section,
    In section (sections ast) /\ sectionType section = SEC_UNIT_OPERATIONS
    /\ In (UnitOperation u) (statements section).
Proof.
  unfold unitOperationsOf. rewrite in_flat_map. split.
  - intros (section & H1 & H2). exists section.
    destruct (sectionType section); try contradiction.
    apply in_flat_map in H2. destruct H2 as ([x|x|x|x|x] & H2 & H3); simpl in H3;
      try contradiction. destruct H3 as [->|[]]. auto.
  - intros (section & H1 & H2 & H3). exists section. rewrite H2. split; [exact H1|].
    apply in_flat_map. exists (UnitOperation u). simpl. auto.
Qed.

Lemma streamStatementsOf_In sd ast :
  In sd (streamStatementsOf ast) <->
  exists section,
    In section (sections ast) /\ sectionType section = SEC_STREAM_DATA
    /\ In (StreamData sd) (statements section).
Proof.
  unfold streamStatementsOf. rewrite in_flat_map. split.
  - intros (section & H1 & H2). exists section.
    destruct (sectionType section); try contradiction.
    apply in_flat_map in H2. destruct H2 as ([x|x|x|x|x] & H2 & H3); simpl in H3;
      try contradiction. destruct H3 as [->|[]]. auto.
  - intros (section & H1 & H2 & H3). exists section. rewrite H2. split; [exact H1|].
    apply in_flat_map. exists (StreamData sd). simpl. auto.
Qed.

Lemma componentsOf_In comp ast :
  In comp (componentsOf ast) <->
  exists section c,
    In section (sections ast) /\ sectionType section = SEC_COMPONENT_DATA
    /\ In (ComponentData c) (statements section) /\ In comp (components c).
Proof.
  unfold componentsOf, componentStatementsOf. rewrite in_flat_map. split.
  - intros (c & H1 & H2). apply in_flat_map in H1. destruct H1 as (section & H1 & H3).
    exists section, c. destruct (sectionType section); try contradiction.
    apply in_flat_map in H3. destruct H3 as ([x|x|x|x|x] & H3 & H4); simpl in H4;
      try contradiction. destruct H4 as [->|[]]. auto.
  - intros (section & c & H1 & H2 & H3 & H4). exists c. split; [|exact H4].
    apply in_flat_map. exists section. rewrite H2. split; [exact H1|].
    apply in_flat_map. exists (ComponentData c). simpl. auto.
Qed.



Lemma callsOf_definition sd ast :
  In sd (streamStatementsOf ast) ->
  In (AddStream (name (sd_streamName sd)) (sd_startLine sd) definition
                (getLineText documentText (sd_startLine sd)))
     (callsOf documentText ast).
Proof.
  intros H. apply streamStatementsOf_In in H. destruct H as (section & A & B & C).
  apply callsOf_In. exists section, (StreamData sd). rewrite B. simpl. auto.
Qed.




End TreeFacts.
(* ------------------------------------------------------------------ *)
(** ** The pipeline on the documents of the scenarios *)
(* ------------------------------------------------------------------ *)

Section Pipeline.
Import SymbolTable.

Lemma pipeline_more {cm : CaseMapping} (b b' : nat) (text : jsstring) m s :
  b <= b' -> pipeline b text = Parser.Return m s ->
  pipeline b' text = Parser.Return m s.
Proof.
  unfold pipeline. intros Hle H.
  destruct (Parser.parse b (Lexer.tokenize text)) as [ast s0| |] eqn:E;
    try discriminate.
  rewrite (parse_more b b' _ ast s0 Hle E). exact H.
Qed.

(** The final state of the parser on a text of [n] lines whose tokens
    were all consumed. *)
Definition atEof (ln col cl : nat) : Parser.State :=
  Parser.mkState [mkToken EOF [] ln col 0] cl.

(** C3: on the COMPONENT DATA scenario the pipeline returns, and what it
    returns is the empty table: the document yields no component
    symbol. *)
Theorem component_scenario_yields_no_symbol :
  forall budget,
    pipeline (cm := basicLatin) (3 + budget) componentText
    = Parser.Return [] (atEof 3 1 2).
Proof.
  intros budget. apply pipeline_more with (b := 3); [lia|].
  vm_compute. reflexivity.
Qed.

(** On the tokens of the same document tagged as [parser.ts] names
    them, the section is recognised, and its only component is the
    comma that follows the number 1. *)
Lemma component_scenario_as_parser_names :
  forall budget,
    option_map
      (fun ast => map (fun c => (identifier c, option_map num_value (libid c)))
                      (componentsOf ast))
      (Parser.returned
         (Parser.parse (cm := basicLatin) (3 + budget)
            (asParserNames (Lexer.tokenize (cm := basicLatin) componentText))))
    = Some [(str ",", Some (Int 1))].
Proof.
  intros budget.
  destruct (Parser.parse (cm := basicLatin) 3
              (asParserNames (Lexer.tokenize (cm := basicLatin) componentText)))
    as [ast s| |] eqn:E; try (vm_compute in E; discriminate E).
  rewrite (parse_more (cm := basicLatin) 3 (3 + budget) _ ast s ltac:(lia) E).
  vm_compute in E. inversion E; subst. vm_compute. reflexivity.
Qed.

(** On the FLASH scenario as it stands the pipeline returns the empty
    table.  No section header precedes the statement, so each of its
    three lines is skipped as an unknown section: the tree has no
    section, and there is no unit symbol, no stream symbol and no
    undefined symbol. *)
Lemma flash_scenario_yields_no_symbol :
  forall budget,
    Parser.returned
      (Parser.parse (cm := basicLatin) (4 + budget)
                    (Lexer.tokenize (cm := basicLatin) flashText))
    = Some (mkProgram 1 3 [])
    /\ pipeline (cm := basicLatin) (4 + budget) flashText
       = Parser.Return [] (atEof 4 1 3)
    /\ getSymbolsByKind [] UNIT = []
    /\ getSymbolsByKind [] STREAM = []
    /\ getUndefinedSymbols [] = [].
Proof.
  intros budget.
  assert (P : Parser.parse (cm := basicLatin) (4 + budget)
                (Lexer.tokenize (cm := basicLatin) flashText)
              = Parser.Return (mkProgram 1 3 []) (atEof 4 1 3)).
  { apply (parse_more (cm := basicLatin)) with (b := 4); [lia|].
    vm_compute. reflexivity. }
  split; [rewrite P; reflexivity|]. split; [|auto].
  apply pipeline_more with (b := 4); [lia|]. vm_compute. reflexivity.
Qed.

(** On the FLASH scenario no symbol F-100 and no symbol FEED is found,
    and there is no unit symbol. *)
Lemma flash_scenario_has_no_unit :
  exists m s,
    pipeline (cm := basicLatin) 4 flashText = Parser.Return m s
    /\ getSymbol (cm := basicLatin) m (str "F-100") = None
    /\ getSymbol (cm := basicLatin) m (str "FEED") = None
    /\ getSymbolsByKind m UNIT = []
    /\ getUndefinedSymbols m = [].
Proof.
  eexists. eexists. split; [vm_compute; reflexivity|].
  repeat split; reflexivity.
Qed.

(** Under the header UNIT OPERATIONS the statement is not reached: the
    statement loop of the section stays on the word OPERATIONS. *)
Lemma flash_scenario_under_header_hangs :
  forall budget,
    pipeline (cm := basicLatin) budget flashUnderHeaderText = Parser.Exhausted.
Proof.
  intros budget. unfold pipeline.
  set (toks := Lexer.tokenize flashUnderHeaderText). vm_compute in toks. subst toks.
  rewrite (parse_stuck (cm := basicLatin)); reflexivity.
Qed.



(** A stream that is referenced before it is defined keeps the line of
    its first reference as its position. *)
Lemma reference_fixes_position :
  let m := addStream (cm := basicLatin) (str "X") 5 definition []
             (addStreamReference (cm := basicLatin) (str "X") 2 feed []) in
  option_map (fun sym => (definedAt sym, references sym))
             (getSymbol (cm := basicLatin) m (str "X"))
  = Some (2, [mkReference 2 feed; mkReference 5 definition]).
Proof. vm_compute. reflexivity. Qed.

(** Under [basicLatin], lower-casing a name that has no Kelvin sign does
    not change its upper-case form: so it is for every ASCII name. *)
Lemma basicLatin_lower_then_upper (N : jsstring) :
  Forall (fun c => c <> 8490%N) N ->
  toUpperCase (CaseMapping := basicLatin) (toLowerCase (CaseMapping := basicLatin) N)
  = toUpperCase (CaseMapping := basicLatin) N.
Proof.
  intros H. simpl. rewrite map_map. apply map_ext_in. intros c I.
  rewrite Forall_forall in H. specialize (H c I). unfold upperUnit, lowerUnit.
  destruct ((65 <=? c)%N && (c <=? 90)%N) eqn:E.
  - apply andb_prop in E. destruct E as [E1 E2].
    apply N.leb_le in E1. apply N.leb_le in E2.
    replace ((97 <=? c + 32)%N && (c + 32 <=? 122)%N) with true
      by (symmetry; apply andb_true_iff; split; apply N.leb_le; lia).
    replace ((97 <=? c)%N && (c <=? 122)%N) with false
      by (symmetry; apply andb_false_iff; left; apply N.leb_gt; lia).
    lia.
  - destruct (c =? 8490)%N eqn:K; [|reflexivity].
    apply N.eqb_eq in K. contradiction.
Qed.

(** C7, the claim as stated refuted: in [kelvinText] the uid of the unit
    is the Kelvin sign; the symbol is found under that name and not
    under its lower-case form, the letter k. *)
Lemma kelvin_sign_lookup_differs :
  exists m s,
    (forall budget,
        pipeline (cm := basicLatin) (2 + budget) kelvinText = Parser.Return m s)
    /\ toLowerCase (CaseMapping := basicLatin) kelvin = str "k"
    /\ getSymbol (cm := basicLatin) m kelvin <> None
    /\ getSymbol (cm := basicLatin) m (toLowerCase (CaseMapping := basicLatin) kelvin)
       = None.
Proof.
  eexists. eexists. split.
  { intros budget. apply pipeline_more with (b := 2); [lia|]. vm_compute. reflexivity. }
  split; [reflexivity|]. split; [vm_compute; discriminate | vm_compute; reflexivity].
Qed.

End Pipeline.

Section PipelineNeverThrows.
Context {cm : CaseMapping}.

Lemma tokenize_eofLast (text : jsstring) : Parser.eofLast (Lexer.tokenize text).
Proof.
  destruct (tokenize_finish text) as [s' E]. rewrite E.
  exists (Lexer.tokens s'), (Lexer.createToken EOF [] 0 None s'). auto.
Qed.

(** On tokens that end with the end-of-input token, [parse] does not
    throw: the cursor never passes that token, so that [current()] is
    always a token. *)
Lemma parse_does_not_throw (budget : nat) (tokens : list Token) :
  Parser.eofLast tokens -> Parser.parse budget tokens <> Parser.Throw.
Proof.
  intros H K. unfold Parser.parse in K.
  pose proof (Safe_parseM budget (Parser.mkState tokens 1) H) as S.
  rewrite K in S. exact S.
Qed.

(** The parser does not throw on what the lexer returns. *)
Theorem pipeline_does_not_throw (budget : nat) (text : jsstring) :
  pipeline budget text <> Parser.Throw.
Proof.
  unfold pipeline.
  pose proof (parse_does_not_throw budget (Lexer.tokenize text)
                (tokenize_eofLast text)) as P.
  destruct (Parser.parse budget (Lexer.tokenize text)); try discriminate.
  exfalso. apply P. reflexivity.
Qed.

End PipelineNeverThrows.


Section Lookup.
Import SymbolTable.
Context {cm : CaseMapping}.

Lemma build_keys_canonical documentText ast k :
  In k (map fst (build documentText ast)) -> exists n, k = toUpperCase n.
Proof.
  rewrite build_calls. intros H. apply runAll_keys in H.
  destruct H as [[]|(c & _ & ->)]. apply keyOf_canonical.
Qed.

(** C7 (as amended): on every built table, a name and its upper-case
    form find the same symbol, and so does its lower-case form when
    lower-casing the name does not change its upper-case form; every key
    of the table is upper case and is the name of its symbol. *)
Theorem lookup_case_insensitive (documentText : jsstring) (ast : ProgramNode)
    (N : jsstring) :
  let m := build documentText ast in
  getSymbol m (toUpperCase N) = getSymbol m N
  /\ (toUpperCase (toLowerCase N) = toUpperCase N ->
      getSymbol m (toLowerCase N) = getSymbol m N)
  /\ forall k sym, In (k, sym) m -> toUpperCase k = k /\ sym_name sym = k.
Proof.
  intros m. unfold getSymbol. rewrite toUpperCase_idempotent.
  split; [reflexivity|]. split; [intros H; rewrite H; reflexivity|].
  intros k sym I. split.
  - assert (J : In k (map fst m)) by (apply in_map_iff; exists (k, sym); auto).
    apply build_keys_canonical in J. destruct J as [n ->].
    apply toUpperCase_idempotent.
  - destruct (build_wellFormed documentText ast) as [_ NM]. apply NM. assumption.
Qed.

(** C10: [isDefined] holds of a name as soon as the table has an entry
    under its upper-case form, whatever the entry; in particular after a
    stream reference to it.  In [feedOnlyText] the stream X is both
    defined in this sense and among the undefined symbols. *)
Theorem isDefined_of_undefined_stream :
  (forall m name',
      isDefined m name' = true <-> exists sym, get (toUpperCase name') m = Some sym)
  /\ (forall m name' line ctx,
        isDefined (addStreamReference name' line ctx m) name' = true)
  /\ exists m s,
       (forall budget,
           pipeline (cm := basicLatin) (3 + budget) feedOnlyText
           = Parser.Return m s)
       /\ isDefined (cm := basicLatin) m (str "X") = true
       /\ map (fun sym => (sym_name sym, kind sym, references sym))
              (getUndefinedSymbols m)
          = [(str "X", STREAM, [mkReference 2 feed])].
Proof.
  split; [|split].
  - intros m name'. unfold isDefined. apply has_get.
  - intros m name' line ctx. unfold isDefined. apply has_get.
    pose proof (run_spec
                  (AddStreamReference name' line ctx) m) as (A & P & _).
    simpl in A, P. destruct (get (toUpperCase name') m) as [sym|] eqn:G.
    + destruct (P sym eq_refl) as (sym' & G' & _). eauto.
    + destruct (A eq_refl) as (sym' & G' & _). eauto.
  - eexists. eexists. split.
    { intros budget. apply pipeline_more with (b := 3); [lia|]. vm_compute. reflexivity. }
    split; vm_compute; reflexivity.
Qed.

End Lookup.

(** C7, an instance: the name x on the table of [feedOnlyText], whose
    only symbol is the stream X. *)
Lemma lookup_case_insensitive_witness :
  toUpperCase (CaseMapping := basicLatin) (toLowerCase (CaseMapping := basicLatin) (str "x"))
  = toUpperCase (CaseMapping := basicLatin) (str "x")
  /\ let m := SymbolTable.build (cm := basicLatin) feedOnlyText feedOnlyTree in
     SymbolTable.getSymbol (cm := basicLatin) m
                           (toUpperCase (CaseMapping := basicLatin) (str "x"))
     = SymbolTable.getSymbol (cm := basicLatin) m (str "x")
     /\ SymbolTable.getSymbol (cm := basicLatin) m
                              (toLowerCase (CaseMapping := basicLatin) (str "x"))
        = SymbolTable.getSymbol (cm := basicLatin) m (str "x")
     /\ forall k sym, In (k, sym) m ->
                      toUpperCase (CaseMapping := basicLatin) k = k
                      /\ SymbolTable.sym_name sym = k.
Proof.
  split; [reflexivity|].
  destruct (lookup_case_insensitive (cm := basicLatin) feedOnlyText feedOnlyTree (str "x"))
    as (U & L & K).
  split; [exact U|]. split; [apply L; reflexivity | exact K].
Defined.

(* ================================================================== *)
(** * Further properties *)
(* ================================================================== *)

(* ------------------------------------------------------------------ *)
(** ** The lexer: where the tokens stand in the text *)
(* ------------------------------------------------------------------ *)

Section LexerPositions.
Context {cm : CaseMapping}.
Import Lexer LexerFacts.

Lemma reads_nil s : reads [] s s.
Proof. unfold reads. simpl. rewrite Nat.add_0_r. auto 10. Qed.

Lemma reads_app v w s s1 s2 : reads v s s1 -> reads w s1 s2 -> reads (v ++ w) s s2.
Proof.
  intros (A1 & A2 & A3 & A4 & A5 & A6) (B1 & B2 & B3 & B4 & B5 & B6).
  unfold reads. split; [rewrite A1, B1, app_assoc; reflexivity|].
  split; [congruence|]. split; [rewrite length_app; lia|].
  split; [congruence|]. split; [congruence|].
  unfold noLineFeed in *. rewrite forallb_app. apply andb_true_intro. split; assumption.
Qed.

Lemma advance_reads s c :
  ahead s <> [] -> currentChar s = c -> (c =? LF)%N = false ->
  reads [c] s (advance s).
Proof.
  unfold currentChar, advance, reads, noLineFeed.
  destruct (ahead s) as [|c' r] eqn:E; [congruence|].
  intros _ -> H. simpl. rewrite H. repeat split; auto. lia.
Qed.

Lemma span_spec p l :
  l = fst (span p l) ++ snd (span p l) /\ forallb p (fst (span p l)) = true.
Proof.
  induction l as [|c l IH]; simpl; [auto|].
  destruct (p c) eqn:E; simpl; [|auto].
  destruct (span p l); simpl in *. rewrite E. destruct IH as [-> ->]. auto.
Qed.

Lemma takeWhile_reads p s v s' :
  (forall c, p c = true -> (c =? LF)%N = false) ->
  takeWhile p s = (v, s') -> reads v s s' /\ forallb p v = true.
Proof.
  intros Hp. unfold takeWhile. pose proof (span_spec p (ahead s)) as [H1 H2].
  destruct (span p (ahead s)) as [a b]. intros E. inversion E; subst. simpl in *.
  split; [|exact H2]. unfold reads, noLineFeed. simpl. repeat split; auto.
  apply forallb_forall. intros c I. rewrite forallb_forall in H2.
  rewrite (Hp c (H2 c I)). reflexivity.
Qed.

Lemma takeWhile_nonempty p s v s' :
  p (currentChar s) = true -> ahead s <> [] -> takeWhile p s = (v, s') ->
  exists r, v = currentChar s :: r.
Proof.
  unfold takeWhile, currentChar. destruct (ahead s) as [|c r]; [congruence|].
  intros Hp _. simpl. rewrite Hp.
  destruct (span p r). intros E. inversion E. eauto.
Qed.

Lemma reads_currentChar c v s s' :
  reads (c :: v) s s' -> currentChar s = c /\ ahead s <> [].
Proof.
  intros (A & _). unfold currentChar. rewrite A. simpl. split; [reflexivity | discriminate].
Qed.

Lemma pushed ty v s s' :
  reads v s s' ->
  push (createToken ty v (List.length v) (Some (curColumn s)) s') s'
  = push (mkToken ty v (curLine s) (curColumn s) (List.length v)) s'.
Proof. intros (_ & L & _). unfold createToken. rewrite L. reflexivity. Qed.

Lemma isDigit_notLF c : isDigit c = true -> (c =? LF)%N = false.
Proof.
  unfold isDigit. intros H. apply andb_prop in H. destruct H as [H _].
  apply N.leb_le in H. apply N.eqb_neq. unfold LF. lia.
Qed.

Lemma isAlpha_notLF c : isAlpha c = true -> (c =? LF)%N = false.
Proof.
  unfold isAlpha. intros H. apply N.eqb_neq. unfold LF.
  apply orb_prop in H. destruct H as [H|H]; apply andb_prop in H;
    destruct H as [H _]; apply N.leb_le in H; lia.
Qed.

Lemma eqb_notLF c k : (c =? k)%N = true -> k <> LF -> (c =? LF)%N = false.
Proof. intros H K. apply N.eqb_eq in H. subst. apply N.eqb_neq. exact K. Qed.

Lemma single_scans ty c s :
  ahead s <> [] -> currentChar s = c -> (c =? LF)%N = false ->
  scansHead ty s (single ty c s).
Proof.
  intros H C L. pose proof (advance_reads s c H C L) as R.
  exists [c], (advance s). split; [|split; [exact R | exists []; congruence]].
  unfold single. apply (pushed ty [c] s (advance s) R).
Qed.

Lemma scanComment_scans s :
  ahead s <> [] -> (currentChar s =? LF)%N = false ->
  scansHead COMMENT s (scanComment s).
Proof.
  intros H L. unfold scanComment.
  destruct (takeWhile _ (advance s)) as [body s2] eqn:E.
  pose proof (advance_reads s _ H eq_refl L) as R1.
  destruct (takeWhile_reads _ _ _ _
              (fun c (K : negb (c =? LF)%N = true) => proj1 (negb_true_iff _) K) E)
    as [R2 _].
  pose proof (reads_app _ _ _ _ _ R1 R2) as R. simpl in R.
  exists (currentChar s :: body), s2. split; [|split; [exact R | eauto]].
  destruct R1 as (_ & _ & C & _). simpl in C.
  replace (curColumn s) with (curColumn s) by reflexivity.
  apply (pushed COMMENT (currentChar s :: body) s s2 R).
Qed.

Lemma scanIdentifier_scans s :
  isAlpha (currentChar s) = true ->
  exists v s',
    scanIdentifier s
    = push (mkToken (match KEYWORDS_get (toUpperCase v) with
                     | Some ty => ty
                     | None => IDENTIFIER
                     end) v (curLine s) (curColumn s) (List.length v)) s'
    /\ reads v s s' /\ forallb isWordChar v = true
    /\ exists r, v = currentChar s :: r.
Proof.
  intros H. unfold scanIdentifier.
  destruct (takeWhile _ s) as [v s1] eqn:E.
  assert (P : forall c, isAlphaNumeric c || (c =? ch "_")%N = true -> (c =? LF)%N = false).
  { intros c K. apply orb_prop in K. destruct K as [K|K].
    - apply orb_prop in K. destruct K; [apply isAlpha_notLF | apply isDigit_notLF]; assumption.
    - apply eqb_notLF with (1 := K). discriminate. }
  destruct (takeWhile_reads _ _ _ _ P E) as [R W].
  exists v, s1. split; [|split; [exact R|split; [exact W|]]].
  - apply pushed, R.
  - eapply takeWhile_nonempty; [| apply isAlpha_ahead, H | exact E].
    unfold isAlphaNumeric. cbv beta. rewrite H. reflexivity.
Qed.

Lemma scanString_scans q s :
  ahead s <> [] -> currentChar s = q -> (q =? LF)%N = false -> q <> NUL ->
  scansHead STRING s (scanString q s).
Proof.
  intros H C L Hq. unfold scanString.
  destruct (takeWhile _ (advance s)) as [body s1] eqn:E.
  pose proof (advance_reads s q H C L) as R0.
  assert (P : forall c, negb (c =? q)%N && negb (c =? LF)%N = true -> (c =? LF)%N = false).
  { intros c K. apply andb_prop in K. destruct K as [_ K]. apply negb_true_iff, K. }
  destruct (takeWhile_reads _ _ _ _ P E) as [R1 _].
  pose proof (reads_app _ _ _ _ _ R0 R1) as R01. simpl in R01.
  destruct (currentChar s1 =? q)%N eqn:Q.
  - pose proof (advance_reads s1 q (nonNul_ahead _ _ Q Hq)
                  (proj1 (N.eqb_eq _ _) Q) L) as R2.
    pose proof (reads_app _ _ _ _ _ R01 R2) as R. simpl in R.
    exists ((q :: body) ++ [q]), (advance s1).
    split; [|split; [exact R | exists (body ++ [q]); simpl; congruence]].
    apply (pushed STRING ((q :: body) ++ [q]) s (advance s1) R).
  - exists (q :: body), s1.
    split; [|split; [exact R01 | exists body; congruence]].
    apply (pushed STRING (q :: body) s s1 R01).
Qed.

Lemma peek_advance s : ahead s <> [] -> currentChar (advance s) = peek s.
Proof.
  unfold currentChar, advance, peek. destruct (ahead s) as [|c [|d r]]; simpl; congruence.
Qed.

Lemma numberHead_app s v x : numberHead s v -> numberHead s (v ++ x).
Proof.
  intros (r & -> & H). exists (r ++ x). split; [reflexivity|].
  intros K. specialize (H K). destruct r; [congruence | discriminate].
Qed.

Lemma advance_eq_reads s k :
  (currentChar s =? k)%N = true -> k <> NUL -> k <> LF ->
  reads [currentChar s] s (advance s).
Proof.
  intros E K1 K2. apply advance_reads; [apply nonNul_ahead with (1 := E), K1 | reflexivity |].
  apply eqb_notLF with (1 := E), K2.
Qed.

Lemma scanNumber_scans s :
  isDigit (currentChar s) = true
  \/ ((currentChar s =? ch "-")%N = true /\ isDigit (peek s) = true) ->
  exists v s',
    scanNumber s = push (mkToken NUMBER v (curLine s) (curColumn s) (List.length v)) s'
    /\ reads v s s' /\ numberHead s v.
Proof.
  intros H. unfold scanNumber.
  (* sign *)
  set (p0 := if (currentChar s =? ch "-")%N then ([ch "-"], advance s) else ([], s)).
  assert (C0 : reads (fst p0) s (snd p0)
               /\ isDigit (currentChar (snd p0)) = true
               /\ (fst p0 = [] /\ (currentChar s =? ch "-")%N = false
                   \/ fst p0 = [currentChar s] /\ (currentChar s =? ch "-")%N = true)).
  { subst p0. destruct (currentChar s =? ch "-")%N eqn:E; simpl.
    - destruct H as [H|[_ H]].
      + exfalso. apply N.eqb_eq in E. rewrite E in H. discriminate.
      + assert (A : ahead s <> []) by (apply nonNul_ahead with (1 := E); discriminate).
        pose proof (advance_eq_reads s _ E ltac:(discriminate) ltac:(discriminate)) as R.
        apply N.eqb_eq in E. rewrite E in R. rewrite E.
        split; [exact R|]. split; [rewrite peek_advance; assumption | auto].
    - split; [apply reads_nil|]. destruct H as [H|[H _]]; [auto | discriminate]. }
  destruct p0 as [v0 s0]. simpl in C0. destruct C0 as (C0 & D0 & N0).
  (* integer part *)
  destruct (takeWhile isDigit s0) as [ds s1] eqn:E1.
  destruct (takeWhile_reads _ _ _ _ isDigit_notLF E1) as [R1 _].
  pose proof (reads_app _ _ _ _ _ C0 R1) as C1.
  assert (N1 : numberHead s (v0 ++ ds)).
  { destruct (takeWhile_nonempty _ _ _ _ D0 (isDigit_ahead _ D0) E1) as [r Hr].
    destruct N0 as [[-> K]|[-> K]]; simpl app.
    - destruct C0 as (A0 & _). simpl in A0.
      exists r. split. 2:{ intros K'. exfalso. apply (eq_true_false_abs _ K' K). } rewrite Hr. unfold currentChar. rewrite A0. reflexivity.
    - exists ds. split; [reflexivity|]. intros _. rewrite Hr. discriminate. }
  (* decimal part *)
  set (p2 := if (currentChar s1 =? ch ".")%N && isDigit (peek s1)
             then let '(fs, s') := takeWhile isDigit (advance s1) in
                  ((v0 ++ ds) ++ [ch "."] ++ fs, s')
             else (v0 ++ ds, s1)).
  assert (C2 : reads (fst p2) s (snd p2) /\ numberHead s (fst p2)).
  { subst p2. destruct ((currentChar s1 =? ch ".")%N && isDigit (peek s1)) eqn:E.
    - apply andb_prop in E. destruct E as [E _].
      pose proof (advance_eq_reads s1 _ E ltac:(discriminate) ltac:(discriminate)) as Ra.
      apply N.eqb_eq in E. rewrite E in Ra.
      destruct (takeWhile isDigit (advance s1)) as [fs s'] eqn:E2.
      destruct (takeWhile_reads _ _ _ _ isDigit_notLF E2) as [R2 _].
      simpl. split.
      + exact (reads_app _ _ _ _ _ C1 (reads_app [ch "."] fs _ _ _ Ra R2)).
      + apply numberHead_app, N1.
    - simpl. auto. }
  destruct p2 as [v2 s2]. simpl in C2. destruct C2 as [C2 N2].
  (* exponent *)
  match goal with
  | |- exists v s', (let '(v3, s3) := ?p in _) = _ /\ _ => set (p3 := p)
  end.
  assert (C3 : reads (fst p3) s (snd p3) /\ numberHead s (fst p3)).
  { subst p3.
    destruct ((currentChar s2 =? ch "E")%N || (currentChar s2 =? ch "e")%N) eqn:E.
    - assert (Ra : reads [currentChar s2] s2 (advance s2)).
      { apply orb_prop in E. destruct E as [E|E];
          apply advance_eq_reads with (1 := E); discriminate. }
      set (pb := if (currentChar (advance s2) =? ch "+")%N
                    || (currentChar (advance s2) =? ch "-")%N
                 then ((v2 ++ [currentChar s2]) ++ [currentChar (advance s2)],
                       advance (advance s2))
                 else (v2 ++ [currentChar s2], advance s2)).
      assert (Cb : reads (fst pb) s (snd pb) /\ numberHead s (fst pb)).
      { subst pb.
        destruct ((currentChar (advance s2) =? ch "+")%N
                  || (currentChar (advance s2) =? ch "-")%N) eqn:Es; simpl.
        - assert (Rb : reads [currentChar (advance s2)] (advance s2)
                             (advance (advance s2))).
          { apply orb_prop in Es. destruct Es as [Es|Es];
              apply advance_eq_reads with (1 := Es); discriminate. }
          split.
          + apply reads_app with (s1 := advance s2); [|exact Rb].
            apply reads_app with (s1 := s2); assumption.
          + apply numberHead_app, numberHead_app, N2.
        - split; [apply reads_app with (s1 := s2); assumption|].
          apply numberHead_app, N2. }
      destruct pb as [vb sb]. simpl in Cb. destruct Cb as [Cb Nb].
      destruct (takeWhile isDigit sb) as [es sc] eqn:E4.
      destruct (takeWhile_reads _ _ _ _ isDigit_notLF E4) as [R4 _].
      simpl. split; [apply reads_app with (s1 := sb); assumption|].
      apply numberHead_app, Nb.
    - simpl. auto. }
  destruct p3 as [v3 s3]. simpl in C3. destruct C3 as [C3 N3].
  exists v3, s3. split; [apply pushed, C3 | auto].
Qed.

Lemma single_exact ty c s :
  ahead s <> [] -> currentChar s = c -> (c =? LF)%N = false ->
  single ty c s = push (mkToken ty [c] (curLine s) (curColumn s) 1) (advance s)
  /\ reads [c] s (advance s).
Proof.
  intros H C L. pose proof (advance_reads s c H C L) as R. split; [|exact R].
  unfold single. apply (pushed ty [c] s (advance s) R).
Qed.

Lemma emitsToken_intro ty v s s' :
  reads v s s' -> isLexeme v = true -> typeOfText v = ty ->
  emitsToken s (push (mkToken ty v (curLine s) (curColumn s) (List.length v)) s').
Proof.
  intros (A & B & C & D & E & F) N T. exists v. simpl.
  unfold tokenAt. rewrite T, D. auto 10.
Qed.

Ltac conditions :=
  repeat match goal with
         | H : _ = false |- _ => rewrite H
         | H : _ = true |- _ => rewrite H
         end.

Lemma scanToken_cases s :
  ahead s <> [] ->
  dropsSpace s (scanToken s) \/ startsLine s (scanToken s)
  \/ emitsToken s (scanToken s).
Proof.
  intros H. unfold scanToken.
  assert (A : ahead s = currentChar s :: ahead (advance s)).
  { unfold currentChar, advance. destruct (ahead s); [congruence | reflexivity]. }
  assert (B : curLine (advance s) = curLine s /\ curColumn (advance s) = S (curColumn s)
              /\ tokens (advance s) = tokens s).
  { unfold advance. destruct (ahead s); [congruence | auto]. }
  destruct B as (B1 & B2 & B3).
  set (c := currentChar s) in *.
  destruct (isWhitespace c) eqn:W.
  { left. exists c. simpl. auto. }
  right.
  destruct (c =? LF)%N eqn:E1.
  { left. apply N.eqb_eq in E1. unfold startsLine. simpl.
    rewrite B1, B3, A, E1. auto. }
  right.
  assert (S1 : forall ty, isLexeme [c] = true -> typeOfText [c] = ty ->
                          emitsToken s (single ty c s)).
  { intros ty K T. destruct (single_exact ty c s H eq_refl E1) as [-> R].
    apply (emitsToken_intro ty [c] s (advance s) R); assumption. }
  destruct ((c =? ch "$")%N || (c =? ch "%")%N) eqn:E2.
  { destruct (scanComment_scans s H E1) as (v & s' & -> & R & r & ->).
    fold c in R |- *.
    apply emitsToken_intro; [exact R | unfold isLexeme | unfold typeOfText]; conditions; reflexivity. }
  destruct (c =? ch "&")%N eqn:E3.
  { apply N.eqb_eq in E3. apply S1; rewrite E3; reflexivity. }
  destruct (c =? ch "=")%N eqn:E4.
  { apply N.eqb_eq in E4. apply S1; rewrite E4; reflexivity. }
  destruct (c =? ch ",")%N eqn:E5.
  { apply N.eqb_eq in E5. apply S1; rewrite E5; reflexivity. }
  destruct (c =? ch "/")%N eqn:E6.
  { apply N.eqb_eq in E6. apply S1; rewrite E6; reflexivity. }
  destruct (c =? ch "+")%N eqn:E7.
  { apply N.eqb_eq in E7. apply S1; rewrite E7; reflexivity. }
  destruct (c =? ch "-")%N eqn:E8.
  { destruct (isDigit (peek s)) eqn:P.
    - destruct (scanNumber_scans s (or_intror (conj E8 P)))
        as (v & s' & -> & R & r & -> & Hr).
      fold c in R |- *.
      apply emitsToken_intro; [exact R | unfold isLexeme | unfold typeOfText]; conditions; [reflexivity|].
      destruct r; [exfalso; apply (Hr E8); reflexivity | reflexivity].
    - apply N.eqb_eq in E8. apply S1; rewrite E8; reflexivity. }
  destruct (c =? ch "*")%N eqn:E9.
  { apply N.eqb_eq in E9. apply S1; rewrite E9; reflexivity. }
  destruct (c =? ch "(")%N eqn:E10.
  { apply N.eqb_eq in E10. apply S1; rewrite E10; reflexivity. }
  destruct (c =? ch ")")%N eqn:E11.
  { apply N.eqb_eq in E11. apply S1; rewrite E11; reflexivity. }
  destruct (isDigit c) eqn:E12.
  { destruct (scanNumber_scans s (or_introl E12))
      as (v & s' & -> & R & r & -> & Hr).
    fold c in R |- *.
    apply emitsToken_intro; [exact R | unfold isLexeme | unfold typeOfText]; conditions; reflexivity. }
  destruct (isAlpha c) eqn:E13.
  { destruct (scanIdentifier_scans s E13) as (v & s' & -> & R & F & r & Hv).
    fold c in Hv. rewrite Hv in R, F |- *. simpl in F. apply andb_prop in F.
    apply emitsToken_intro; [exact R | unfold isLexeme | unfold typeOfText];
      conditions; [apply F | reflexivity]. }
  destruct ((c =? DQUOTE)%N || (c =? SQUOTE)%N) eqn:E14.
  { assert (Q : c <> NUL).
    { apply orb_prop in E14. destruct E14 as [Q|Q]; apply N.eqb_eq in Q;
        rewrite Q; discriminate. }
    destruct (scanString_scans c s H eq_refl E1 Q) as (v & s' & -> & R & r & ->).
    fold c in R |- *.
    apply emitsToken_intro; [exact R | unfold isLexeme | unfold typeOfText]; conditions; reflexivity. }
  apply S1; [unfold isLexeme | unfold typeOfText]; conditions; reflexivity.
Qed.

Lemma scanAll_Located budget : forall s s',
  scanAll budget s = Some s' ->
  exists ts,
    tokens s' = tokens s ++ ts
    /\ Located (ahead s) (curLine s) (curColumn s)
               (ts ++ [createToken EOF [] 0 None s']).
Proof.
  induction budget as [|b IH]; intros s s'; simpl.
  - destruct (isAtEnd s) eqn:E; [|discriminate]. intros K. inversion K; subst s'.
    apply isAtEnd_iff in E. exists []. rewrite app_nil_r, E. split; [reflexivity|].
    apply Located_end.
  - destruct (isAtEnd s) eqn:E.
    + intros K. inversion K; subst s'.
      apply isAtEnd_iff in E. exists []. rewrite app_nil_r, E. split; [reflexivity|].
      apply Located_end.
    + intros K. assert (H : ahead s <> []).
      { intros Z. apply isAtEnd_iff in Z. congruence. }
      destruct (IH _ _ K) as (ts & T & L).
      destruct (scanToken_cases s H)
        as [(c & W & A & B & C & D) | [(A & B & C & D) | (v & N & F & A & B & C & D)]].
      * exists ts. rewrite T, D. split; [reflexivity|].
        rewrite A. apply Located_space; [exact W|]. rewrite <- B, <- C. exact L.
      * exists (mkToken NEWLINE [LF] (curLine s) (curColumn s) 1 :: ts).
        rewrite T, D, <- app_assoc. split; [reflexivity|].
        rewrite A. simpl. apply Located_newline. rewrite <- B, <- C. exact L.
      * exists (tokenAt v (curLine s) (curColumn s) :: ts).
        rewrite T, D, <- app_assoc. split; [reflexivity|].
        rewrite A. simpl. apply Located_token; [exact N | exact F |].
        rewrite <- B, <- C. exact L.
Qed.

Lemma tokenize_Located (input : jsstring) : Located input 1 1 (tokenize input).
Proof.
  destruct (scanAll_enough (List.length input) (init input) (le_n _))
    as (s' & A & _).
  unfold tokenize, tokenizeWithin. rewrite A. simpl. unfold finish.
  destruct (scanAll_Located _ _ _ A) as (ts & T & L).
  simpl in T, L. rewrite T. exact L.
Qed.

Lemma Located_nonempty text ln col ts : Located text ln col ts -> ts <> [].
Proof. induction 1; try assumption; discriminate. Qed.

(** What [Located] says of the text. *)
Lemma Located_spells text ln col ts :
  Located text ln col ts ->
  exists gaps,
    List.length gaps = List.length ts
    /\ Forall (fun g => forallb isWhitespace g = true) gaps
    /\ text = flat_map (fun p => fst p ++ value (snd p)) (combine gaps ts).
Proof.
  induction 1 as [ln col | c text ln col ts W K IH | text ln col ts _ IH
                  | v text ln col ts N F _ IH].
  - exists [[]]. simpl. auto.
  - destruct IH as (gaps & L & G & E). apply Located_nonempty in K.
    destruct gaps as [|g gaps], ts as [|t ts]; try discriminate L; try congruence.
    + exists ((c :: g) :: gaps). simpl. split; [exact L|]. split.
      * inversion G; subst. constructor; [simpl; rewrite W; assumption | assumption].
      * simpl in E. rewrite E. reflexivity.
  - destruct IH as (gaps & L & G & E). exists ([] :: gaps). simpl.
    split; [congruence|]. split; [constructor; [reflexivity | exact G]|].
    rewrite E. reflexivity.
  - destruct IH as (gaps & L & G & E). exists ([] :: gaps). simpl.
    split; [congruence|]. split; [constructor; [reflexivity | exact G]|].
    rewrite E. reflexivity.
Qed.

Lemma Located_types text ln col ts :
  Located text ln col ts ->
  Forall (fun t => type t = typeOfText (value t)
                   /\ length t = List.length (value t)
                   /\ (value t = [] \/ isLexeme (value t) = true)) ts.
Proof.
  induction 1; try assumption; constructor; try assumption; simpl; auto.
Qed.

Lemma countLF_app p q : countLF (p ++ q) = countLF p + countLF q.
Proof. unfold countLF. rewrite filter_app, length_app. reflexivity. Qed.

Lemma countLF_noLineFeed v : noLineFeed v = true -> countLF v = 0.
Proof.
  unfold countLF, noLineFeed. induction v as [|c v IH]; [reflexivity|].
  simpl. intros H. apply andb_prop in H. destruct H as [H1 H2].
  apply negb_true_iff in H1. rewrite H1. apply IH, H2.
Qed.

Lemma lastLine_app p : forall cur q,
  lastLine cur (p ++ q) = lastLine (lastLine cur p) q.
Proof.
  induction p as [|c p IH]; intros cur q; [reflexivity|].
  simpl. destruct (c =? LF)%N; apply IH.
Qed.

Lemma lastLine_noLineFeed v : forall cur,
  noLineFeed v = true -> lastLine cur v = cur ++ v.
Proof.
  unfold noLineFeed. induction v as [|c v IH]; intros cur H; simpl.
  - rewrite app_nil_r. reflexivity.
  - simpl in H. apply andb_prop in H. destruct H as [H1 H2].
    apply negb_true_iff in H1. rewrite H1, IH by exact H2.
    rewrite <- app_assoc. reflexivity.
Qed.

Lemma lineAfter_text before v :
  noLineFeed v = true -> lineAfter (before ++ v) = lineAfter before.
Proof.
  intros H. unfold lineAfter. rewrite countLF_app, (countLF_noLineFeed v H). lia.
Qed.

Lemma columnAfter_text before v :
  noLineFeed v = true ->
  columnAfter (before ++ v) = columnAfter before + List.length v.
Proof.
  intros H. unfold columnAfter.
  rewrite lastLine_app, (lastLine_noLineFeed v _ H). rewrite length_app. lia.
Qed.

Lemma lineAfter_LF before : lineAfter (before ++ [LF]) = S (lineAfter before).
Proof. unfold lineAfter. rewrite countLF_app. change (countLF [LF]) with 1. lia. Qed.

Lemma columnAfter_LF before : columnAfter (before ++ [LF]) = 1.
Proof. unfold columnAfter. rewrite lastLine_app. reflexivity. Qed.

Lemma isWhitespace_noLineFeed c : isWhitespace c = true -> noLineFeed [c] = true.
Proof.
  unfold isWhitespace, noLineFeed. simpl. intros H.
  destruct (c =? LF)%N eqn:E; [|reflexivity].
  apply N.eqb_eq in E. subst c. discriminate H.
Qed.

Lemma Located_placed text ln col ts :
  Located text ln col ts ->
  forall before,
    ln = lineAfter before -> col = columnAfter before ->
    Forall (placed (before ++ text)) ts
    /\ exists front eof,
         ts = front ++ [eof]
         /\ line eof = lineAfter (before ++ text)
         /\ column eof = columnAfter (before ++ text).
Proof.
  induction 1 as [ln col | c text ln col ts W _ IH | text ln col ts _ IH
                  | v text ln col ts N F _ IH]; intros before Hl Hc.
  - split.
    + constructor; [|constructor]. exists before, []. simpl. auto.
    + exists [], (mkToken EOF [] ln col 0). simpl. rewrite app_nil_r. auto.
  - pose proof (isWhitespace_noLineFeed c W) as K.
    destruct (IH (before ++ [c])) as [P L].
    + rewrite lineAfter_text by exact K. exact Hl.
    + rewrite columnAfter_text by exact K. change (List.length [c]) with 1. lia.
    + rewrite <- app_assoc in P, L. simpl in P, L. auto.
  - destruct (IH (before ++ [LF])) as [P L].
    + rewrite lineAfter_LF. congruence.
    + rewrite columnAfter_LF. reflexivity.
    + rewrite <- app_assoc in P, L. simpl in P, L. split.
      * constructor; [|exact P]. exists before, text. simpl. auto.
      * destruct L as (front & eof & -> & L1 & L2).
        exists (mkToken NEWLINE [LF] ln col 1 :: front), eof. auto.
  - destruct (IH (before ++ v)) as [P L].
    + rewrite lineAfter_text by exact F. exact Hl.
    + rewrite columnAfter_text by exact F. congruence.
    + rewrite <- app_assoc in P, L. split.
      * constructor; [|exact P]. exists before, text. simpl. auto.
      * destruct L as (front & eof & -> & L1 & L2).
        exists (tokenAt v ln col :: front), eof. auto.
Qed.

(** X1: the tokens spell the input.  The input is the concatenation, in
    order, of the texts of the tokens of [tokenize input], each behind a
    run of blanks, tabs and carriage returns (a gap, empty when the
    token follows the one before it directly): the lexer drops nothing
    else and changes nothing, and what stands before the end-of-input
    token, whose text is empty, is the white space that ends the
    input. *)
Theorem tokens_spell_input (input : jsstring) :
  exists gaps,
    List.length gaps = List.length (tokenize input)
    /\ Forall (fun g => forallb isWhitespace g = true) gaps
    /\ input = flat_map (fun p => fst p ++ value (snd p))
                        (combine gaps (tokenize input)).
Proof. exact (Located_spells _ _ _ _ (tokenize_Located input)). Qed.

(** X2: the type of a token is a function of its text.  Every token of
    [tokenize input] has the type that the rules of [scanToken] give to
    its text ([typeOfText]: by its first character, a word by the
    keyword table applied to its upper-case form), its [length] is the
    number of code units of its text, and its text is empty (the
    end-of-input token) or one of the lexemes ([isLexeme]). *)
Theorem token_type_of_text (input : jsstring) :
  Forall (fun t => type t = typeOfText (value t)
                   /\ length t = List.length (value t)
                   /\ (value t = [] \/ isLexeme (value t) = true))
         (tokenize input).
Proof. exact (Located_types _ _ _ _ (tokenize_Located input)). Qed.

(** X3: the position of a token is where its text stands.  For every
    token of [tokenize input] the input splits as [before ++ value ++
    after] such that the [line] of the token is one more than the number
    of line feeds of [before] and its [column] one more than the number
    of characters of [before] behind its last line feed; the last token
    is the end-of-input token, placed behind the whole input. *)
Theorem token_positions (input : jsstring) :
  Forall (placed input) (tokenize input)
  /\ exists front eof,
       tokenize input = front ++ [eof]
       /\ line eof = lineAfter input /\ column eof = columnAfter input.
Proof.
  exact (Located_placed _ _ _ _ (tokenize_Located input) [] eq_refl eq_refl).
Qed.

Lemma spelled_length (gaps : list jsstring) : forall ts,
  List.length gaps = List.length ts ->
  Forall (fun t => length t = List.length (value t)) ts ->
  List.length (flat_map (fun p => fst p ++ value (snd p)) (combine gaps ts))
  = sumLengths ts + List.length (List.concat gaps).
Proof.
  induction gaps as [|g gaps IH]; intros [|t ts] L F; try discriminate L;
    [reflexivity|].
  inversion F as [|? ? Ft F']; subst. simpl.
  rewrite !length_app, (IH ts) by (simpl in L; congruence || assumption).
  rewrite Ft. lia.
Qed.

(** C8: every character of the input is accounted for once, by a token
    or as white space that is dropped.  The input is the concatenation,
    in order, of the texts of the tokens of [tokenize input], each behind
    a gap made of blanks, tabs and carriage returns only; the [length]
    field of a token is the number of characters of its text; the
    characters the lexer drops are those of the gaps, so that the
    [length] fields of the tokens and the number of dropped white space
    characters add up to the length of the input; the last token is the
    end-of-input token, whose [length] is 0. *)
Theorem token_coverage (input : jsstring) :
  exists gaps,
    List.length gaps = List.length (tokenize input)
    /\ Forall (fun g => forallb isWhitespace g = true) gaps
    /\ input = flat_map (fun p => fst p ++ value (snd p))
                        (combine gaps (tokenize input))
    /\ Forall (fun t => length t = List.length (value t)) (tokenize input)
    /\ discardedBy input = List.length (List.concat gaps)
    /\ sumLengths (tokenize input) + discardedBy input = List.length input
    /\ exists front eof,
         tokenize input = front ++ [eof] /\ type eof = EOF /\ length eof = 0.
Proof.
  destruct (Located_spells _ _ _ _ (tokenize_Located input))
    as (gaps & L & W & E).
  assert (F : Forall (fun t => length t = List.length (value t)) (tokenize input)).
  { eapply Forall_impl; [|apply (Located_types _ _ _ _ (tokenize_Located input))].
    intros t (_ & H & _). exact H. }
  pose proof (lengths_add_up input) as S.
  assert (K : List.length input
              = sumLengths (tokenize input) + List.length (List.concat gaps)).
  { etransitivity; [apply (f_equal (@List.length _) E)|].
    apply spelled_length; assumption. }
  exists gaps. repeat split; try assumption; try lia.
  destruct (tokenize_finish input) as [s' T]. rewrite T. unfold finish.
  eexists. eexists. split; [reflexivity|]. split; reflexivity.
Qed.

End LexerPositions.

(* ------------------------------------------------------------------ *)
(** ** The parser: what it drops, where it ends and where it does not *)
(* ------------------------------------------------------------------ *)

Section Headerless.
Import Parser ParserFacts.
Context {cm : CaseMapping}.

Lemma suffixOf_refl l : suffixOf l l.
Proof. exists []. reflexivity. Qed.

Lemma suffixOf_cons t l' l : suffixOf l' l -> suffixOf l' (t :: l).
Proof. intros [pre ->]. exists (t :: pre). reflexivity. Qed.

Lemma suffixOf_trans a b c : suffixOf a b -> suffixOf b c -> suffixOf a c.
Proof. intros [p ->] [q ->]. exists (q ++ p). rewrite app_assoc. reflexivity. Qed.

Lemma suffixOf_length l' l : suffixOf l' l -> List.length l' <= List.length l.
Proof. intros [pre ->]. rewrite length_app. lia. Qed.

Lemma headerless_suffix l' l : suffixOf l' l -> headerless l = true -> headerless l' = true.
Proof.
  intros [pre ->]. unfold headerless. rewrite forallb_app.
  intros H. apply andb_prop in H. apply H.
Qed.

Lemma consumeNewlinesL_suffix l : forall cl,
  suffixOf (ahead (consumeNewlinesL l cl)) l.
Proof.
  induction l as [|t l IH]; intros cl; [apply suffixOf_refl|].
  simpl. unfold checkS. simpl.
  destruct (tt_eqb (type t) EOF); [apply suffixOf_refl|].
  destruct (tt_eqb (type t) NEWLINE); [|apply suffixOf_refl].
  apply suffixOf_cons, IH.
Qed.

Lemma skipWhitespaceAndCommentsL_suffix l : forall cl,
  suffixOf (ahead (skipWhitespaceAndCommentsL l cl)) l.
Proof.
  induction l as [|t l IH]; intros cl; [apply suffixOf_refl|].
  simpl. unfold checkS. simpl.
  destruct (tt_eqb (type t) EOF); [apply suffixOf_refl|].
  destruct (tt_eqb (type t) NEWLINE || tt_eqb (type t) COMMENT); [|apply suffixOf_refl].
  apply suffixOf_cons, IH.
Qed.

Lemma advanceToNewlineL_suffix l : forall cl,
  suffixOf (ahead (advanceToNewlineL l cl)) l.
Proof.
  induction l as [|t l IH]; intros cl; [apply suffixOf_refl|].
  simpl. unfold isAtEndS, checkS. simpl.
  destruct (tt_eqb (type t) EOF); [apply suffixOf_refl|].
  simpl. destruct (tt_eqb (type t) NEWLINE); [apply suffixOf_refl|].
  apply suffixOf_cons, IH.
Qed.

(** [advanceLine] moves the cursor unless it is at the end. *)
Lemma advanceLineS_progress s :
  isAtEndS s = false ->
  suffixOf (ahead (advanceLineS s)) (ahead s)
  /\ List.length (ahead (advanceLineS s)) < List.length (ahead s).
Proof.
  destruct s as [l cl]. unfold isAtEndS, advanceLineS, consumeNewlinesS. simpl.
  destruct l as [|t l]; [discriminate|]. intros E.
  simpl advanceToNewlineL. unfold isAtEndS, checkS. simpl ahead. cbv iota beta.
  rewrite E. simpl negb. simpl andb.
  destruct (tt_eqb (type t) NEWLINE) eqn:N; simpl negb; cbv iota.
  - simpl. unfold checkS. simpl. rewrite E, N.
    pose proof (consumeNewlinesL_suffix l (line t)) as S. split.
    + apply suffixOf_cons, S.
    + apply suffixOf_length in S. simpl. lia.
  - pose proof (advanceToNewlineL_suffix l (line t)) as S1.
    pose proof (consumeNewlinesL_suffix
                  (ahead (advanceToNewlineL l (line t)))
                  (currentLine (advanceToNewlineL l (line t)))) as S2.
    pose proof (suffixOf_trans _ _ _ S2 S1) as S. split.
    + apply suffixOf_cons, S.
    + apply suffixOf_length in S. simpl. lia.
Qed.

Lemma parseSection_headerless budget s :
  headerless (ahead s) = true ->
  parseSection budget s = Return None (advanceLineS s).
Proof.
  destruct s as [l cl]. simpl. intros H.
  destruct l as [|[ty v ln col len] l]; [reflexivity|].
  simpl in H. apply andb_prop in H. destruct H as [H _].
  destruct ty; try discriminate H; reflexivity.
Qed.

Lemma sections_headerless budget : forall k s,
  List.length (ahead s) < k ->
  headerless (ahead s) = true ->
  exists s', loop k (sectionsBody budget) [] s = Return [] s'
             /\ isAtEndS s' = true.
Proof.
  induction k as [|k IH]; intros s Hk H; [lia|].
  simpl loop. unfold sectionsBody at 1. unfold bind at 1. unfold isAtEnd at 1.
  destruct (isAtEndS s) eqn:E.
  - exists s. split; [reflexivity | exact E].
  - unfold bind. rewrite (parseSection_headerless budget s H).
    unfold skipWhitespaceAndComments, ret. simpl pushOpt.
    destruct (advanceLineS_progress s E) as [S1 L1].
    pose proof (skipWhitespaceAndCommentsL_suffix
                  (ahead (advanceLineS s)) (currentLine (advanceLineS s))) as S2.
    fold (skipWhitespaceAndCommentsS (advanceLineS s)) in S2.
    apply IH.
    + apply suffixOf_length in S2. lia.
    + eapply headerless_suffix; [|exact H]. eapply suffixOf_trans; eauto.
Qed.

(** X4: what stands outside a section is dropped.  On tokens none of
    which has one of the types that start a section (COMPONENT, STREAM,
    THERMODYNAMIC, UNIT_OPERATIONS, PRINT), [parse] returns, on a budget
    above the number of tokens, a program without sections, and leaves
    the cursor at the end. *)
Theorem parse_drops_headerless_tokens (budget : nat) (tokens : list Token) :
  headerless tokens = true -> List.length tokens < budget ->
  exists s', parse budget tokens = Return (mkProgram 1 (currentLine s') []) s'
             /\ isAtEndS s' = true.
Proof.
  intros H Hb. unfold parse, parseM, bind, skipWhitespaceAndComments.
  pose proof (skipWhitespaceAndCommentsL_suffix tokens 1) as S.
  change (skipWhitespaceAndCommentsS (mkState tokens 1))
    with (skipWhitespaceAndCommentsL tokens 1).
  destruct (sections_headerless budget budget (skipWhitespaceAndCommentsL tokens 1))
    as (s' & R & A).
  - apply suffixOf_length in S. lia.
  - eapply headerless_suffix; eauto.
  - rewrite R. eauto.
Qed.

End Headerless.

(** X4, an instance: the tokens of [flashText], a unit statement under
    no header. *)
Lemma parse_drops_headerless_tokens_witness :
  ParserFacts.headerless (Lexer.tokenize (cm := basicLatin) flashText) = true
  /\ exists s',
       Parser.parse (cm := basicLatin) 20
                    (Lexer.tokenize (cm := basicLatin) flashText)
       = Parser.Return (mkProgram 1 (Parser.currentLine s') []) s'
       /\ Parser.isAtEndS s' = true.
Proof.
  split; [vm_compute; reflexivity|].
  apply (parse_drops_headerless_tokens (cm := basicLatin) 20
           (Lexer.tokenize (cm := basicLatin) flashText));
    [vm_compute; reflexivity | vm_compute; lia].
Defined.


Section UnitStatements.
Import Parser ParserFacts.
Context {cm : CaseMapping}.

Lemma unitBody_stray budget vars t rest cl :
  stray (type t) = true ->
  unitBody budget vars (mkState (t :: rest) cl)
  = Return (Continue vars) (mkState (t :: rest) cl).
Proof.
  intros H. destruct vars as [[[u ps] fs] prs].
  destruct t as [ty v ln col len]. simpl in H.
  destruct ty; try discriminate H; reflexivity.
Qed.

Lemma unit_loop_stray budget vars t rest cl :
  stray (type t) = true ->
  forall k, loop k (unitBody budget) vars (mkState (t :: rest) cl) = Exhausted.
Proof. intros H. apply loop_stuck, unitBody_stray, H. Qed.

Lemma parseUnitOperation_stray budget kw t rest cl :
  isUnitOperationType (type kw) = true -> stray (type t) = true ->
  parseUnitOperation budget (mkState (kw :: t :: rest) cl) = Exhausted.
Proof.
  intros K H. destruct kw as [ty v ln col len]. simpl in K.
  destruct ty; try discriminate K;
    (unfold parseUnitOperation, bind, getCurrentLine, currentToken, advance;
     cbn -[loop unitBody]; rewrite unit_loop_stray by exact H; reflexivity).
Qed.

Lemma consumeNewlinesL_newlines nls kw tl : forall cl,
  Forall (fun n => type n = NEWLINE) nls ->
  isUnitOperationType (type kw) = true ->
  exists cl', consumeNewlinesL (nls ++ kw :: tl) cl = mkState (kw :: tl) cl'.
Proof.
  intros cl F K. revert cl. induction F as [|n nls N _ IH]; intros cl.
  - exists cl. simpl. unfold checkS. simpl.
    destruct kw as [ty v ln col len]. simpl in K.
    destruct ty; try discriminate K; reflexivity.
  - simpl. unfold checkS. simpl. rewrite N. simpl. apply IH.
Qed.

Lemma unit_statements_stray budget kw t rest cl acc :
  isUnitOperationType (type kw) = true -> stray (type t) = true ->
  forall k,
    loop k (statementsBody (asStatement UnitOperation (parseUnitOperation budget)))
         acc (mkState (kw :: t :: rest) cl)
    = Exhausted.
Proof.
  intros K H [|k]; [reflexivity|]. simpl loop.
  assert (E : statementsBody (asStatement UnitOperation (parseUnitOperation budget))
                acc (mkState (kw :: t :: rest) cl) = Exhausted).
  { unfold statementsBody, bind, isAtEnd, isNextSection, check, checkNext, ret,
      asStatement.
    pose proof (parseUnitOperation_stray budget kw t rest cl K H) as P.
    destruct kw as [ty v ln col len]. simpl in K.
    destruct ty; try discriminate K;
      (cbn -[parseUnitOperation]; unfold bind; rewrite P; reflexivity). }
  rewrite E. reflexivity.
Qed.

Lemma parse_unit_stray budget u nls kw t rest :
  type u = UNIT_OPERATIONS ->
  Forall (fun n => type n = NEWLINE) nls ->
  isUnitOperationType (type kw) = true -> stray (type t) = true ->
  parse budget (u :: nls ++ kw :: t :: rest) = Exhausted.
Proof.
  intros Hu F K H. unfold parse, parseM.
  destruct u as [ty v ln col len]. simpl in Hu. subst ty.
  set (tl := nls ++ kw :: t :: rest).
  assert (E : skipWhitespaceAndComments
                (mkState (mkToken UNIT_OPERATIONS v ln col len :: tl) 1)
              = Return tt (mkState (mkToken UNIT_OPERATIONS v ln col len :: tl) 1)).
  { reflexivity. }
  rewrite (bind_Return _ _ _ _ _ E). apply bind_Exhausted.
  destruct budget as [|n]; [reflexivity|].
  simpl loop. unfold sectionsBody at 1.
  assert (A : isAtEnd (mkState (mkToken UNIT_OPERATIONS v ln col len :: tl) 1)
              = Return false (mkState (mkToken UNIT_OPERATIONS v ln col len :: tl) 1)).
  { reflexivity. }
  rewrite (bind_Return _ _ _ _ _ A). cbv iota.
  assert (S : parseSection (S n)
                (mkState (mkToken UNIT_OPERATIONS v ln col len :: tl) 1) = Exhausted).
  { destruct (consumeNewlinesL_newlines nls kw (t :: rest) ln F K) as [cl' C].
    fold tl in C.
    unfold parseSection, bind, check, checkNext, getCurrentLine, advance,
      consumeNewlines, ret, consumeNewlinesS.
    cbn -[loop statementsBody asStatement parseUnitOperation consumeNewlinesL].
    rewrite C. rewrite unit_statements_stray by assumption. reflexivity. }
  rewrite (bind_Exhausted _ _ _ S). reflexivity.
Qed.

(** X6: a unit statement never gets past a token it has no rule for.
    Let [t] be a stray token: one that neither ends the statement (end
    of input, new line), nor is a continuation, a comma, UID, FEED, PROD
    or PRODUCT, nor starts a parameter (an identifier or one of TEMP,
    PRES, RATE, TYPE, INPUT, RESULT); a number, a string, a comment, an
    operator and most keywords are stray.  With the cursor on [t] the
    loop of [parseUnitOperation] is exhausted on every budget, whatever
    it has collected: it does not move.  So is [parse] on a UNIT
    OPERATIONS header, new lines, the keyword of a unit operation and
    [t]. *)
Theorem unit_statement_stops_at_stray_token (budget : nat) (t : Token)
    (rest : list Token) :
  stray (type t) = true ->
  (forall vars cl k,
      loop k (unitBody budget) vars (mkState (t :: rest) cl) = Exhausted)
  /\ (forall u nls kw,
         type u = UNIT_OPERATIONS ->
         Forall (fun n => type n = NEWLINE) nls ->
         isUnitOperationType (type kw) = true ->
         parse budget (u :: nls ++ kw :: t :: rest) = Exhausted).
Proof.
  intros H. split.
  - intros vars cl k. apply unit_loop_stray, H.
  - intros u nls kw Hu F K. apply parse_unit_stray; assumption.
Qed.

End UnitStatements.

(** X6, an instance: a comment behind the keyword of a unit. *)
Lemma unit_statement_stops_at_stray_token_witness :
  ParserFacts.stray COMMENT = true
  /\ Parser.parse (cm := basicLatin) 9
        [ mkToken UNIT_OPERATIONS (str "UNIT") 1 1 4;
          mkToken NEWLINE [LF] 1 5 1;
          mkToken FLASH (str "FLASH") 2 1 5;
          mkToken COMMENT (str "$ drum") 2 7 6;
          mkToken NEWLINE [LF] 2 13 1;
          mkToken EOF [] 3 1 0 ]
      = Parser.Exhausted.
Proof.
  split; [reflexivity|].
  apply (proj2 (unit_statement_stops_at_stray_token (cm := basicLatin) 9
                  (mkToken COMMENT (str "$ drum") 2 7 6)
                  [ mkToken NEWLINE [LF] 2 13 1; mkToken EOF [] 3 1 0 ]
                  eq_refl)
               (mkToken UNIT_OPERATIONS (str "UNIT") 1 1 4)
               [ mkToken NEWLINE [LF] 1 5 1 ]
               (mkToken FLASH (str "FLASH") 2 1 5));
    [reflexivity | repeat constructor | reflexivity].
Defined.


Section ProductLists.
Import Parser ParserFacts.
Context {cm : CaseMapping}.

Lemma checkS_COMMA_rest rest cl :
  startsWithComma rest = false -> checkS COMMA (mkState rest cl) = false.
Proof.
  unfold checkS, startsWithComma. simpl. destruct rest as [|t rest]; [reflexivity|].
  intros H. rewrite H. destruct (tt_eqb (type t) EOF); reflexivity.
Qed.

Lemma checkS_IDENTIFIER_comma rest cl :
  startsWithComma rest = true -> checkS IDENTIFIER (mkState rest cl) = false.
Proof.
  unfold checkS, startsWithComma. simpl. destruct rest as [|[ty v ln col len] rest];
    [reflexivity|]. simpl. intros H. apply tt_eqb_eq in H. subst ty. reflexivity.
Qed.

(** A name that no comma follows. *)
Lemma productsBody_last acc a rest cl :
  type a = IDENTIFIER -> startsWithComma rest = false ->
  exists r s',
    productsBody acc (mkState (a :: rest) cl) = Return (Break (acc ++ [r])) s'
    /\ ahead s' = rest /\ namedAs r = (value a, None).
Proof.
  intros A R. destruct a as [ty v ln col len]. simpl in A. subst ty.
  pose proof (checkS_COMMA_rest rest ln R) as C.
  unfold productsBody, parseStreamReference, parseIdentifier, consume, bind,
    check, currentToken, advance, getCurrentLine, ret.
  cbn -[checkS]. change (checkS IDENTIFIER _) with true at 1. cbv iota.
  cbn -[checkS]. rewrite C. cbn -[checkS]. rewrite C. cbn.
  eexists. eexists. split; [reflexivity|]. split; reflexivity.
Qed.

(** A name and the name behind its comma, that no comma follows. *)
Lemma productsBody_pair_last acc a c b rest cl :
  type a = IDENTIFIER -> type c = COMMA -> type b = IDENTIFIER ->
  startsWithComma rest = false ->
  exists r s',
    productsBody acc (mkState (a :: c :: b :: rest) cl) = Return (Break (acc ++ [r])) s'
    /\ ahead s' = rest /\ namedAs r = (value a, Some (toUpperCase (value b))).
Proof.
  intros A C B R.
  destruct a as [ty v ln col len]. simpl in A. subst ty.
  destruct c as [ty v1 ln1 col1 len1]. simpl in C. subst ty.
  destruct b as [ty v2 ln2 col2 len2]. simpl in B. subst ty.
  pose proof (checkS_COMMA_rest rest ln2 R) as K.
  unfold productsBody, parseStreamReference, parseIdentifier, consume, bind,
    check, currentToken, advance, getCurrentLine, ret.
  cbn -[checkS]. change (checkS IDENTIFIER _) with true at 1. cbv iota.
  cbn -[checkS]. change (checkS COMMA _) with true at 1. cbv iota.
  cbn -[checkS]. change (checkS IDENTIFIER _) with true at 1. cbv iota.
  cbn -[checkS]. rewrite K. cbn.
  eexists. eexists. split; [reflexivity|]. split; reflexivity.
Qed.

(** A name and the name behind its comma, that a comma follows. *)
Lemma productsBody_pair_more acc a c b c' rest cl :
  type a = IDENTIFIER -> type c = COMMA -> type b = IDENTIFIER ->
  type c' = COMMA ->
  exists r cl',
    productsBody acc (mkState (a :: c :: b :: c' :: rest) cl)
    = Return (Continue (acc ++ [r])) (mkState rest cl')
    /\ namedAs r = (value a, Some (toUpperCase (value b))).
Proof.
  intros A C B C'.
  destruct a as [ty v ln col len]. simpl in A. subst ty.
  destruct c as [ty v1 ln1 col1 len1]. simpl in C. subst ty.
  destruct b as [ty v2 ln2 col2 len2]. simpl in B. subst ty.
  destruct c' as [ty v3 ln3 col3 len3]. simpl in C'. subst ty.
  unfold productsBody, parseStreamReference, parseIdentifier, consume, bind,
    check, currentToken, advance, getCurrentLine, ret.
  cbn. eexists. eexists. split; reflexivity.
Qed.

Lemma product_list_upto n : forall more first rest cl acc k,
  List.length more <= n ->
  type first = IDENTIFIER ->
  Forall (fun p => type (fst p) = COMMA /\ type (snd p) = IDENTIFIER) more ->
  startsWithComma rest = false ->
  List.length more < k ->
  exists prods s',
    loop k productsBody acc (mkState (commaList first more ++ rest) cl)
    = Return (acc ++ prods) s'
    /\ ahead s' = rest
    /\ map namedAs prods = pairedUp (first :: map snd more).
Proof.
  induction n as [n IH] using lt_wf_ind.
  intros more first rest cl acc k Hn A F R Hk.
  destruct k as [|k]; [lia|]. simpl loop.
  destruct more as [|[c b] [|[c' b'] more]].
  - destruct (productsBody_last acc first rest cl A R) as (r & s' & E & S & N).
    simpl. rewrite E. exists [r], s'. simpl. rewrite N. auto.
  - inversion F as [|? ? [C B] _]; subst. simpl in C, B.
    destruct (productsBody_pair_last acc first c b rest cl A C B R)
      as (r & s' & E & S & N).
    simpl. rewrite E. exists [r], s'. simpl. rewrite N. auto.
  - inversion F as [|? ? [C B] F']; subst. simpl in C, B.
    inversion F' as [|? ? [C' B'] F'']; subst. simpl in C', B'.
    destruct (productsBody_pair_more acc first c b c'
                (commaList b' more ++ rest) cl A C B C') as (r & cl' & E & N).
    simpl. simpl in E. rewrite E.
    destruct (IH (List.length more) ltac:(simpl in Hn; lia) more b' rest cl'
                (acc ++ [r]) k (le_n _) B' F'' R ltac:(simpl in Hk; lia))
      as (prods & s' & L & S & M).
    exists (r :: prods), s'. split; [|split].
    + unfold commaList in L. simpl in L. rewrite L, <- app_assoc. reflexivity.
    + exact S.
    + simpl. rewrite N, M. reflexivity.
Qed.

Lemma loop_Continue {A} (body : A -> M (Ctl A)) a s a' s' b :
  body a s = Return (Continue a') s' -> loop (S b) body a s = loop b body a' s'.
Proof. intros E. simpl. rewrite E. reflexivity. Qed.

Lemma loop_Break {A} (body : A -> M (Ctl A)) a s a' s' b :
  body a s = Return (Break a') s' -> loop (S b) body a s = Return a' s'.
Proof. intros E. simpl. rewrite E. reflexivity. Qed.

Lemma unitBody_products budget kw_prod first more nl rest cl uid ps fs prs :
  (type kw_prod = PROD \/ type kw_prod = PRODUCT) ->
  type first = IDENTIFIER ->
  Forall (fun p => type (fst p) = COMMA /\ type (snd p) = IDENTIFIER) more ->
  type nl = NEWLINE ->
  List.length more < budget ->
  exists prods cl',
    unitBody budget (uid, ps, fs, prs)
      (mkState (kw_prod :: commaList first more ++ nl :: rest) cl)
    = Return (Continue (uid, ps, fs, prs ++ prods)) (mkState (nl :: rest) cl')
    /\ map namedAs prods = pairedUp (first :: map snd more).
Proof.
  intros P A F N Hb.
  assert (R : startsWithComma (nl :: rest) = false).
  { unfold startsWithComma. rewrite N. reflexivity. }
  destruct (product_list_upto (List.length more) more first (nl :: rest)
              (line kw_prod) prs budget (le_n _) A F R Hb)
    as (prods & [l' cl'] & L & S & M).
  simpl in S. subst l'. exists prods, cl'. split; [|exact M].
  destruct kw_prod as [ty v ln col len]. simpl in P. cbn [line] in L.
  assert (C : checkS COMMA (mkState (nl :: rest) cl') = false).
  { apply checkS_COMMA_rest, R. }
  destruct P as [-> | ->];
    unfold unitBody, bind, isAtEnd, check, advance, consume, ret;
    cbn -[loop productsBody commaList checkS];
    unfold checkS at 1; cbn -[loop productsBody commaList checkS];
    repeat (unfold checkS at 1; cbn -[loop productsBody commaList checkS]);
    rewrite L; cbn; rewrite N; reflexivity.
Qed.

(** X7: in a product list every second name is taken for a stream type.
    Let a unit statement be the keyword of a unit operation, PROD or
    PRODUCT, a list of names separated by commas, and a new line.  On a
    budget above the number of names, [parseUnitOperation] returns a
    unit without uid, feeds or parameters whose products are the names
    at the odd places of the list, each with the upper-case form of the
    name that follows it as its stream type (no type for a last name
    at an odd place): [parseStreamReference] consumes the comma and the
    name behind it. *)
Theorem product_names_are_paired (budget : nat) (kw kw_prod first : Token)
    (more : list (Token * Token)) (nl : Token) (rest : list Token) (cl : nat) :
  isUnitOperationType (type kw) = true ->
  (type kw_prod = PROD \/ type kw_prod = PRODUCT) ->
  type first = IDENTIFIER ->
  Forall (fun p => type (fst p) = COMMA /\ type (snd p) = IDENTIFIER) more ->
  type nl = NEWLINE ->
  1 + List.length more < budget ->
  exists u s',
    parseUnitOperation budget
      (mkState (kw :: kw_prod :: commaList first more ++ nl :: rest) cl)
    = Return (Some u) s'
    /\ map namedAs (productStreams u) = pairedUp (first :: map snd more)
    /\ feedStreams u = [] /\ uid u = None /\ unit_parameters u = [].
Proof.
  intros K P A F N Hb.
  destruct (unitBody_products budget kw_prod first more nl rest (line kw)
              None [] [] [] P A F N ltac:(lia))
    as (prods & cl' & E & M).
  assert (L : forall k, 1 < k ->
              loop k (unitBody budget) (None, [], [], [])
                (mkState (kw_prod :: commaList first more ++ nl :: rest) (line kw))
              = Return (None, [], [], prods) (mkState (nl :: rest) cl')).
  { intros [|[|k]] Hk; try lia.
    rewrite (loop_Continue _ _ _ _ _ _ E). apply loop_Break.
    destruct nl as [ty v ln col len]. simpl in N. subst ty. reflexivity. }
  specialize (L budget ltac:(lia)).
  destruct kw as [ty v ln col len]. simpl in K. cbn [line] in L.
  destruct ty; try discriminate K;
    (unfold parseUnitOperation, bind, getCurrentLine, currentToken, advance,
       consumeNewlines, ret;
     cbn -[loop unitBody commaList consumeNewlinesS getCurrentLineS];
     rewrite L; cbn -[consumeNewlinesS getCurrentLineS];
     eexists; eexists; split; [reflexivity|]; simpl; auto).
Qed.

End ProductLists.

(** X7, an instance: the products of FLASH PROD A, b, C are A, with the
    stream type B, and C. *)
Lemma product_names_are_paired_witness :
  exists u s',
    Parser.parseUnitOperation (cm := basicLatin) 4
      (Parser.mkState
         [ mkToken FLASH (str "FLASH") 1 1 5;
           mkToken PROD (str "PROD") 1 7 4;
           mkToken IDENTIFIER (str "A") 1 12 1;
           mkToken COMMA (str ",") 1 13 1;
           mkToken IDENTIFIER (str "b") 1 15 1;
           mkToken COMMA (str ",") 1 16 1;
           mkToken IDENTIFIER (str "C") 1 18 1;
           mkToken NEWLINE [LF] 1 19 1;
           mkToken EOF [] 2 1 0 ] 1)
    = Parser.Return (Some u) s'
    /\ map ParserFacts.namedAs (productStreams u)
       = [ (str "A", Some (str "B")); (str "C", None) ]
    /\ feedStreams u = [] /\ uid u = None /\ unit_parameters u = [].
Proof.
  apply (product_names_are_paired (cm := basicLatin) 4
           (mkToken FLASH (str "FLASH") 1 1 5)
           (mkToken PROD (str "PROD") 1 7 4)
           (mkToken IDENTIFIER (str "A") 1 12 1)
           [ (mkToken COMMA (str ",") 1 13 1, mkToken IDENTIFIER (str "b") 1 15 1);
             (mkToken COMMA (str ",") 1 16 1, mkToken IDENTIFIER (str "C") 1 18 1) ]
           (mkToken NEWLINE [LF] 1 19 1)
           [ mkToken EOF [] 2 1 0 ] 1);
    [ reflexivity | left; reflexivity | reflexivity
    | repeat constructor | reflexivity | simpl; lia ].
Defined.


Section FlatLists.
Import Parser ParserFacts.

Lemma parseListRest_flat n : forall l cl values,
  List.length l <= n ->
  forallb isNumberOrIdentifier values = true ->
  forallb isNumberOrIdentifier (fst (parseListRest l cl values)) = true.
Proof.
  induction n as [|n IH]; intros l cl values Hl H.
  - destruct l; [|simpl in Hl; lia]. exact H.
  - destruct l as [|sep [|v rest']].
    + exact H.
    + simpl. destruct (checkS COMMA _ || checkS SLASH _); exact H.
    + simpl parseListRest.
      destruct (checkS COMMA _ || checkS SLASH _); [|exact H].
      destruct (checkS NUMBER _).
      { apply IH; [simpl in Hl; lia|]. rewrite forallb_app, H. reflexivity. }
      destruct (checkS IDENTIFIER _); [|exact H].
      apply IH; [simpl in Hl; lia|]. rewrite forallb_app, H. reflexivity.
Qed.

(** X8: lists are flat.  With the cursor on a token, [parseValue]
    returns a value, and when the value is a list its elements are
    Number and Identifier nodes only: no list is nested in a list, and a
    string ends the list before it. *)
Theorem list_values_are_flat (t : Token) (rest : list Token) (cl : nat) :
  exists v s',
    parseValue (mkState (t :: rest) cl) = Return v s'
    /\ forallb isNumberOrIdentifier (valuesOf v) = true.
Proof.
  assert (L : forall l ln first,
             isNumberOrIdentifier first = true ->
             exists vs s1, parseListRest l ln [first] = (vs, s1)
                           /\ forallb isNumberOrIdentifier vs = true).
  { intros l ln first F. destruct (parseListRest l ln [first]) as [vs s1] eqn:E.
    exists vs, s1. split; [reflexivity|].
    pose proof (parseListRest_flat (List.length l) l ln [first] (le_n _)) as K.
    rewrite E in K. apply K. simpl. rewrite F. reflexivity. }
  destruct t as [ty v ln col len].
  destruct ty;
    try (eexists; eexists; split; [reflexivity|]; reflexivity);
    (destruct rest as [|[ty' v' ln' col' len'] rest'];
     [ eexists; eexists; split; [reflexivity|]; reflexivity
     | destruct ty';
       try (eexists; eexists; split; [reflexivity|]; reflexivity) ]).
  all: match goal with
       | |- context [parseValue (mkState (?t :: ?l) _)] =>
           destruct (L l ln (scalarOf t) eq_refl) as (vs & s1 & E & K)
       end;
       unfold parseValue, parseList, isListStart, bind, check, ret,
         getCurrentLine, parseNumber, parseIdentifier, currentToken, advance;
       cbn -[parseListRest];
       unfold scalarOf, numberOf, identifierOf in E;
       cbn -[parseListRest] in E; rewrite E;
       eexists; eexists; (split; [reflexivity|]); exact K.
Qed.

End FlatLists.

Section Termination.
Import Parser ParserFacts TerminationFacts.
Context {cm : CaseMapping}.

Lemma behind_refl s : behind s s.
Proof. apply suffixOf_refl. Qed.

Lemma behind_trans a b c : behind a b -> behind b c -> behind a c.
Proof. apply suffixOf_trans. Qed.

Lemma wellBehind_behind a b c : wellBehind a b -> behind b c -> wellBehind a c.
Proof.
  intros [H1 H2] H. split; [eapply behind_trans; eauto|].
  apply suffixOf_length in H. lia.
Qed.

Lemma behind_wellBehind a b c : behind a b -> wellBehind b c -> wellBehind a c.
Proof.
  intros H [H1 H2]. split; [eapply behind_trans; eauto|].
  apply suffixOf_length in H. lia.
Qed.

Lemma unitless_suffix l' l : suffixOf l' l -> unitless l = true -> unitless l' = true.
Proof.
  intros [pre ->]. unfold unitless. rewrite forallb_app.
  intros H. apply andb_prop in H. apply H.
Qed.

Lemma within_behind n s' s : behind s' s -> within n s -> within n s'.
Proof.
  intros H [A B]. split.
  - apply suffixOf_length in H. lia.
  - eapply unitless_suffix; eauto.
Qed.

Lemma advanceS_behind s : behind (advanceS s) s.
Proof.
  unfold behind, advanceS. destruct (ahead s) as [|t rest] eqn:E.
  - rewrite E. apply suffixOf_refl.
  - destruct (tt_eqb (type t) EOF); [rewrite E; apply suffixOf_refl|].
    simpl. apply suffixOf_cons, suffixOf_refl.
Qed.

Lemma advanceS_wellBehind s : isAtEndS s = false -> wellBehind (advanceS s) s.
Proof.
  unfold wellBehind, behind, advanceS, isAtEndS.
  destruct (ahead s) as [|t rest] eqn:E; [discriminate|].
  intros ->. simpl. split; [apply suffixOf_cons, suffixOf_refl | lia].
Qed.

Lemma checkS_notAtEnd ty s : checkS ty s = true -> isAtEndS s = false.
Proof.
  unfold checkS, isAtEndS. destruct (ahead s) as [|t rest]; [discriminate|].
  destruct (tt_eqb (type t) EOF); [discriminate | reflexivity].
Qed.

Lemma consumeNewlinesS_behind s : behind (consumeNewlinesS s) s.
Proof. apply consumeNewlinesL_suffix. Qed.

Lemma skipWhitespaceAndCommentsS_behind s : behind (skipWhitespaceAndCommentsS s) s.
Proof. apply skipWhitespaceAndCommentsL_suffix. Qed.

Lemma advanceLineS_behind s : behind (advanceLineS s) s.
Proof.
  unfold advanceLineS. eapply behind_trans; [apply consumeNewlinesS_behind|].
  apply advanceToNewlineL_suffix.
Qed.

Lemma parseListRest_behind n : forall l cl values,
  List.length l <= n -> suffixOf (ahead (snd (parseListRest l cl values))) l.
Proof.
  induction n as [|n IH]; intros l cl values Hl.
  - destruct l; [|simpl in Hl; lia]. apply suffixOf_refl.
  - destruct l as [|sep [|v rest']].
    + apply suffixOf_refl.
    + simpl. destruct (checkS COMMA _ || checkS SLASH _); simpl;
        [apply suffixOf_cons|]; apply suffixOf_refl.
    + simpl parseListRest.
      destruct (checkS COMMA _ || checkS SLASH _); [|apply suffixOf_refl].
      destruct (checkS NUMBER _).
      { apply suffixOf_cons, suffixOf_cons, IH. simpl in Hl. lia. }
      destruct (checkS IDENTIFIER _).
      { apply suffixOf_cons, suffixOf_cons, IH. simpl in Hl. lia. }
      simpl. apply suffixOf_cons, suffixOf_refl.
Qed.

Section Bounded.
Variable n : nat.

Lemma Steady_ret {A} (a : A) : Steady n (ret a).
Proof. intros s _. apply behind_refl. Qed.

Lemma Steady_pure {A} (f : State -> A) : Steady n (fun s => Return (f s) s).
Proof. intros s _. apply behind_refl. Qed.

Lemma Steady_bind {A B} (m : M A) (k : A -> M B) :
  Steady n m -> (forall a, Steady n (k a)) -> Steady n (bind m k).
Proof.
  intros Hm Hk s H. unfold bind. specialize (Hm s H).
  destruct (m s) as [a s'| |]; [|exact I|exact Hm].
  specialize (Hk a s' (within_behind _ _ _ Hm H)).
  destruct (k a s') as [b s''| |]; [|exact I|exact Hk].
  eapply behind_trans; eauto.
Qed.

Lemma Steady_currentToken : Steady n currentToken.
Proof.
  intros s _. unfold currentToken. destruct (currentOpt s); [apply behind_refl|exact I].
Qed.

Lemma Steady_advance : Steady n advance.
Proof. intros s _. apply advanceS_behind. Qed.

Lemma Steady_consumeNewlines : Steady n consumeNewlines.
Proof. intros s _. apply consumeNewlinesS_behind. Qed.

Lemma Steady_skipWhitespaceAndComments : Steady n skipWhitespaceAndComments.
Proof. intros s _. apply skipWhitespaceAndCommentsS_behind. Qed.

Lemma Steady_advanceLine : Steady n advanceLine.
Proof. intros s _. apply advanceLineS_behind. Qed.

Lemma Steady_check ty : Steady n (check ty).
Proof. apply Steady_pure. Qed.

Lemma Steady_checkNext ty : Steady n (checkNext ty).
Proof. apply Steady_pure. Qed.

Lemma Steady_isAtEnd : Steady n isAtEnd.
Proof. apply Steady_pure. Qed.

Lemma Steady_getCurrentLine : Steady n getCurrentLine.
Proof. apply Steady_pure. Qed.

(** A loop whose body is advancing ends within as many iterations as
    there are tokens ahead, and one more. *)
Lemma Steady_loop_upto {A} (body : A -> M (Ctl A)) :
  (forall a, Advancing n (body a)) ->
  forall k a s, within n s -> List.length (ahead s) < k ->
                match loop k body a s with
                | Return _ s' => behind s' s
                | Throw => True
                | Exhausted => False
                end.
Proof.
  intros Hb k. induction k as [|k IH]; intros a s H Hk; [lia|].
  simpl. specialize (Hb a s H).
  destruct (body a s) as [[a'|a'] s'| |]; auto.
  destruct Hb as [B L].
  specialize (IH a' s' (within_behind _ _ _ B H) ltac:(lia)).
  destruct (loop k body a' s') as [r s''| |]; auto.
  eapply behind_trans; eauto.
Qed.

Create HintDb steady discriminated.
#[local] Hint Resolve Steady_ret Steady_currentToken Steady_advance
  Steady_consumeNewlines Steady_skipWhitespaceAndComments Steady_advanceLine
  Steady_check Steady_checkNext Steady_isAtEnd Steady_getCurrentLine : steady.

Ltac steady :=
  repeat
    match goal with
    | |- Steady _ (bind _ _) => apply Steady_bind; [|intro]
    | |- Steady _ (if ?c then _ else _) => destruct c
    | |- Steady _ (match ?x with _ => _ end) => destruct x
    | |- Steady _ (let '(_, _) := ?x in _) => destruct x
    | |- Steady _ _ => solve [auto with steady]
    end.

Lemma Steady_consume ty : Steady n (consume ty).
Proof. unfold consume. steady. Qed.

Lemma Steady_isNextSection : Steady n isNextSection.
Proof. unfold isNextSection. steady. Qed.

Lemma Steady_isListStart : Steady n isListStart.
Proof.
  unfold isListStart. steady. intros s _. destruct (peekOpt s); apply behind_refl.
Qed.
#[local] Hint Resolve Steady_consume Steady_isNextSection Steady_isListStart : steady.

Lemma Steady_parseNumber : Steady n parseNumber.
Proof. unfold parseNumber. steady. Qed.

Lemma Steady_parseIdentifier : Steady n parseIdentifier.
Proof. unfold parseIdentifier. steady. Qed.

Lemma Steady_parseString : Steady n parseString.
Proof. unfold parseString. steady. Qed.
#[local] Hint Resolve Steady_parseNumber Steady_parseIdentifier Steady_parseString
  : steady.

Lemma Steady_parseList : Steady n parseList.
Proof.
  unfold parseList. steady.
  intros s _.
  match goal with
  | |- context [parseListRest ?l ?c ?v] =>
      destruct (parseListRest l c v) as [vs s'] eqn:E
  end.
  change s' with (snd (vs, s')). rewrite <- E.
  eapply parseListRest_behind. apply le_n.
Qed.
#[local] Hint Resolve Steady_parseList : steady.

Lemma Steady_parseValue : Steady n parseValue.
Proof. unfold parseValue. steady. Qed.
#[local] Hint Resolve Steady_parseValue : steady.

Lemma Steady_parseParameter : Steady n parseParameter.
Proof. unfold parseParameter. steady. Qed.

Lemma Steady_parseComponent : Steady n parseComponent.
Proof. unfold parseComponent. steady. Qed.
#[local] Hint Resolve Steady_parseParameter Steady_parseComponent : steady.

(** The loop of the component, stream, thermodynamic and print
    statements: an iteration that does not leave the loop consumes a
    continuation or a comma. *)
Lemma Advancing_itemsBody {A} c (item : M (option A)) acc :
  Steady n item -> Advancing n (itemsBody c item acc).
Proof.
  intros Hi s H. unfold itemsBody, bind, isAtEnd, check, ret.
  destruct (isAtEndS s || checkS NEWLINE s); [apply behind_refl|].
  assert (T : match
                (x <- item ;;
                 let acc' := pushOpt acc x in
                 comma <- consume COMMA ;;
                 if comma then ret (Continue acc') else ret (Break acc'))%parser s
              with
              | Return (Continue _) s' => wellBehind s' s
              | Return (Break _) s' => behind s' s
              | Throw => True
              | Exhausted => False
              end).
  { unfold bind. specialize (Hi s H).
    destruct (item s) as [x s1| |]; [|exact I|exact Hi].
    unfold consume, bind, check, advance, ret.
    destruct (checkS COMMA s1) eqn:C; [|exact Hi].
    eapply wellBehind_behind; [|exact Hi].
    apply advanceS_wellBehind. eapply checkS_notAtEnd, C. }
  destruct c; [|exact T].
  destruct (checkS CONTINUATION s) eqn:C; [|exact T].
  unfold advance, consumeNewlines. simpl.
  eapply behind_wellBehind; [apply consumeNewlinesS_behind|].
  apply advanceS_wellBehind. eapply checkS_notAtEnd, C.
Qed.

(** ** Computations that move the cursor forward *)

Lemma Strict_pure {A B} (f : State -> A) (k : A -> M B) :
  (forall a, Strict n (k a)) -> Strict n (bind (fun s => Return (f s) s) k).
Proof. intros Hk s H E. unfold bind. apply Hk; assumption. Qed.

Lemma Strict_then {A B} (m : M A) (k : A -> M B) :
  Strict n m -> (forall a, Steady n (k a)) -> Strict n (bind m k).
Proof.
  intros Hm Hk s H E. unfold bind. specialize (Hm s H E).
  destruct (m s) as [a s'| |]; [|exact I|exact Hm].
  specialize (Hk a s' (within_behind _ _ _ (proj1 Hm) H)).
  destruct (k a s') as [b s''| |]; [|exact I|exact Hk].
  eapply behind_wellBehind; eauto.
Qed.

Lemma Strict_advance : Strict n advance.
Proof. intros s _ E. apply advanceS_wellBehind, E. Qed.

Lemma Strict_advanceLine : Strict n advanceLine.
Proof.
  intros s _ E. destruct (advanceLineS_progress s E) as [A B]. split; assumption.
Qed.

Variable budget : nat.
Hypothesis enough : n < budget.

Lemma Steady_loop {A} (body : A -> M (Ctl A)) a :
  (forall a, Advancing n (body a)) -> Steady n (loop budget body a).
Proof.
  intros Hb s H. apply Steady_loop_upto; [exact Hb | exact H|].
  destruct H as [H _]. lia.
Qed.

Ltac steady' :=
  repeat
    match goal with
    | |- Steady _ (bind _ _) => apply Steady_bind; [|intro]
    | |- Steady _ (loop _ _ _) => apply Steady_loop; intro
    | |- Advancing _ (itemsBody _ _ _) => apply Advancing_itemsBody
    | |- Steady _ (if ?c then _ else _) => destruct c
    | |- Steady _ (match ?x with _ => _ end) => destruct x
    | |- Steady _ _ => solve [auto with steady]
    end.

Ltac strict :=
  repeat
    match goal with
    | |- Strict _ (bind getCurrentLine _) =>
        apply (Strict_pure getCurrentLineS); intro
    | |- Strict _ (bind (check ?ty) _) => apply (Strict_pure (checkS ty)); intro
    | |- Strict _ (bind (checkNext ?ty) _) =>
        apply (Strict_pure (checkNextS ty)); intro
    | |- Strict _ (bind advance _) =>
        apply Strict_then; [apply Strict_advance | intro; steady']
    | |- Strict _ (bind advanceLine _) =>
        apply Strict_then; [apply Strict_advanceLine | intro; steady']
    | |- Strict _ (if ?c then _ else _) => destruct c
    | |- Strict _ (match ?x with _ => _ end) => destruct x
    end.

Lemma Strict_parseComponentStatement : Strict n (parseComponentStatement budget).
Proof. unfold parseComponentStatement. strict. Qed.

Lemma Strict_parseStreamStatement : Strict n (parseStreamStatement budget).
Proof. unfold parseStreamStatement. strict. Qed.

Lemma Strict_parseThermodynamicStatement :
  Strict n (parseThermodynamicStatement budget).
Proof. unfold parseThermodynamicStatement. strict. Qed.

Lemma Strict_asStatement {A} (wrap : A -> StatementNode) m :
  Strict n m -> Strict n (asStatement wrap m).
Proof.
  intros H. unfold asStatement. apply Strict_then; [exact H|].
  intro. apply Steady_ret.
Qed.

Lemma isNextSection_state s : exists b, isNextSection s = Return b s.
Proof. eexists. reflexivity. Qed.

(** The loop of a section: an iteration parses a statement, which
    consumes a token. *)
Lemma Advancing_statementsBody stmt acc :
  Strict n stmt -> Advancing n (statementsBody stmt acc).
Proof.
  intros Hs s H. unfold statementsBody.
  unfold bind at 1. unfold isAtEnd.
  destruct (isNextSection_state s) as [b Eb].
  unfold bind at 1. rewrite Eb.
  destruct (isAtEndS s) eqn:E; [apply behind_refl|].
  destruct b; [apply behind_refl|]. simpl.
  unfold bind. specialize (Hs s H E).
  destruct (stmt s) as [x s1| |]; [|exact I|exact Hs].
  unfold skipWhitespaceAndComments, ret.
  eapply behind_wellBehind; [apply skipWhitespaceAndCommentsS_behind | exact Hs].
Qed.

Lemma checkS_unitless s : unitless (ahead s) = true -> checkS UNIT_OPERATIONS s = false.
Proof.
  unfold checkS, unitless. destruct (ahead s) as [|t rest]; [reflexivity|].
  simpl. intros H. apply andb_prop in H. destruct H as [H _].
  apply negb_true_iff in H. rewrite H. destruct (tt_eqb (type t) EOF); reflexivity.
Qed.

Lemma Steady_statements stmt :
  Strict n stmt -> Steady n (loop budget (statementsBody stmt) []).
Proof. intros H. apply Steady_loop. intro. apply Advancing_statementsBody, H. Qed.

Lemma Strict_dataSection startLine sectionType stmt :
  Strict n stmt ->
  Strict n (advance ;; advance ;; consumeNewlines ;;
            stmts <- loop budget (statementsBody stmt) [] ;;
            endLine <- getCurrentLine ;;
            ret (Some (mkSection startLine endLine sectionType stmts)))%parser.
Proof.
  intros H. apply Strict_then; [apply Strict_advance | intro].
  repeat (apply Steady_bind; [auto using Steady_statements with steady | intro]).
  apply Steady_ret.
Qed.

Lemma parsePrintStatement_strict s :
  within n s -> checkS PRINT s = true ->
  match parsePrintStatement budget s with
  | Return _ s' => wellBehind s' s
  | Throw => True
  | Exhausted => False
  end.
Proof.
  intros H P. pose proof (checkS_notAtEnd _ _ P) as E.
  unfold parsePrintStatement.
  unfold bind at 1. unfold getCurrentLine.
  unfold bind at 1. unfold check at 1. rewrite P. simpl negb. cbv iota.
  assert (B : forall startLine,
             Strict n (advance ;;
                       parameters <- loop budget (itemsBody false parseParameter) [] ;;
                       consumeNewlines ;;
                       endLine <- getCurrentLine ;;
                       ret (Some (mkPrintStatement startLine endLine parameters)))%parser).
  { intros startLine. strict. }
  exact (B _ s H E).
Qed.

(** Where no UNIT OPERATIONS section starts, [parseSection] ends and
    consumes a token. *)
Lemma Strict_parseSection : Strict n (parseSection budget).
Proof.
  intros s H E. unfold parseSection.
  unfold bind at 1. unfold getCurrentLine.
  unfold bind at 1. unfold check at 1.
  unfold bind at 1. unfold check at 1.
  unfold bind at 1. unfold check at 1.
  unfold bind at 1. unfold checkNext at 1.
  unfold bind at 1. unfold check at 1.
  unfold bind at 1. unfold check at 1.
  rewrite (checkS_unitless s (proj2 H)).
  destruct (checkS COMPONENT s && checkNextS DATA s).
  { exact (Strict_dataSection _ _ _
             (Strict_asStatement _ _ Strict_parseComponentStatement) s H E). }
  destruct (checkS STREAM s && checkNextS DATA s).
  { exact (Strict_dataSection _ _ _
             (Strict_asStatement _ _ Strict_parseStreamStatement) s H E). }
  destruct (checkS THERMODYNAMIC s && checkNextS DATA s).
  { exact (Strict_dataSection _ _ _
             (Strict_asStatement _ _ Strict_parseThermodynamicStatement) s H E). }
  destruct (checkS PRINT s) eqn:P.
  { unfold bind at 1. pose proof (parsePrintStatement_strict s H P) as K.
    destruct (parsePrintStatement budget s) as [x s1| |]; [|exact I|exact K].
    unfold bind, consumeNewlines, getCurrentLine, ret.
    eapply behind_wellBehind; [apply consumeNewlinesS_behind | exact K]. }
  assert (B : Strict n (advanceLine ;; ret (@None SectionNode))%parser).
  { strict. }
  exact (B s H E).
Qed.

Lemma Advancing_sectionsBody acc : Advancing n (sectionsBody budget acc).
Proof.
  intros s H. unfold sectionsBody. unfold bind at 1. unfold isAtEnd.
  destruct (isAtEndS s) eqn:E; [apply behind_refl|].
  unfold bind. pose proof (Strict_parseSection s H E) as K.
  destruct (parseSection budget s) as [x s1| |]; [|exact I|exact K].
  unfold skipWhitespaceAndComments, ret.
  eapply behind_wellBehind; [apply skipWhitespaceAndCommentsS_behind | exact K].
Qed.

Lemma Steady_parseM : Steady n (parseM budget).
Proof.
  unfold parseM. apply Steady_bind; [apply Steady_skipWhitespaceAndComments | intro].
  apply Steady_bind; [apply Steady_loop; intro; apply Advancing_sectionsBody | intro].
  apply Steady_pure.
Qed.

End Bounded.

Lemma parse_ends_without_units budget tokens :
  unitless tokens = true -> List.length tokens < budget ->
  parse budget tokens <> Exhausted
  /\ (eofLast tokens -> exists ast s', parse budget tokens = Return ast s').
Proof.
  intros U L.
  pose proof (Steady_parseM (List.length tokens) budget L (mkState tokens 1)
                (conj (le_n _) U)) as K.
  fold (parse budget tokens) in K.
  split.
  - intros E. rewrite E in K. exact K.
  - intros F. pose proof (parse_does_not_throw budget tokens F) as T.
    destruct (parse budget tokens) as [ast s'| |]; [eauto | congruence | contradiction].
Qed.

(** X5: only a UNIT OPERATIONS section can keep the parser from
    ending.  On tokens none of which has the type UNIT_OPERATIONS,
    [parse] is not exhausted on a budget above the number of tokens:
    every iteration of the loops of the component, stream,
    thermodynamic and print statements and of the sections consumes a
    token.  When the tokens end with the end-of-input token it returns
    a tree. *)
Theorem parse_ends_without_unit_section (budget : nat) (tokens : list Token) :
  unitless tokens = true -> List.length tokens < budget ->
  parse budget tokens <> Exhausted
  /\ (eofLast tokens -> exists ast s', parse budget tokens = Return ast s').
Proof. apply parse_ends_without_units. Qed.

End Termination.

(** X5, an instance: the tokens of [componentText], with the words
    COMPONENT and DATA tagged as the parser names them. *)
Lemma parse_ends_without_unit_section_witness :
  TerminationFacts.unitless
    (asParserNames (Lexer.tokenize (cm := basicLatin) componentText)) = true
  /\ exists ast s',
       Parser.parse (cm := basicLatin) 20
         (asParserNames (Lexer.tokenize (cm := basicLatin) componentText))
       = Parser.Return ast s'.
Proof.
  split; [vm_compute; reflexivity|].
  apply (parse_ends_without_unit_section (cm := basicLatin) 20
           (asParserNames (Lexer.tokenize (cm := basicLatin) componentText)));
    [vm_compute; reflexivity | vm_compute; lia |].
  exists (removelast
            (asParserNames (Lexer.tokenize (cm := basicLatin) componentText))),
         (last (asParserNames (Lexer.tokenize (cm := basicLatin) componentText))
               (mkToken EOF [] 0 0 0)).
  split; vm_compute; reflexivity.
Defined.

Section Truncated.
Import Parser ParserFacts.
Context {cm : CaseMapping}.

Lemma loop_step_Exhausted {A} (body : A -> M (Ctl A)) a s a' s' :
  body a s = Return (Continue a') s' ->
  (forall k, loop k body a' s' = Exhausted) ->
  forall k, loop k body a s = Exhausted.
Proof.
  intros E H [|k]; [reflexivity|]. simpl. rewrite E. apply H.
Qed.

Lemma loop_Throw {A} (body : A -> M (Ctl A)) a s k :
  body a s = Throw -> loop (S k) body a s = Throw.
Proof. intros E. simpl. rewrite E. reflexivity. Qed.

Lemma bind_Throw {A B} (m : M A) (k : A -> M B) s :
  m s = Throw -> bind m k s = Throw.
Proof. intros H. unfold bind. rewrite H. reflexivity. Qed.

Lemma truncated_throws :
  forall budget, parse (S budget) truncatedTokens = Throw.
Proof.
  intros budget. set (b := S budget).
  assert (U : loop b (unitBody b) (None, [], [], [])
                   (mkState (tl (tl truncatedTokens)) 1) = Throw).
  { apply loop_Throw. vm_compute. reflexivity. }
  assert (P : parseUnitOperation b
                (mkState (tl truncatedTokens) 1) = Throw).
  { unfold parseUnitOperation, bind, getCurrentLine, currentToken, advance.
    cbn -[loop unitBody b]. cbn -[loop unitBody b] in U. first [rewrite U | rewrite (bind_Throw _ _ _ U)]; reflexivity. }
  assert (L : loop b (statementsBody (asStatement UnitOperation
                                        (parseUnitOperation b)))
                   [] (mkState (tl truncatedTokens) 1) = Throw).
  { apply loop_Throw. unfold statementsBody at 1.
    unfold bind, isAtEnd, isNextSection, check, checkNext, asStatement, ret.
    cbn -[parseUnitOperation loop b]. cbn -[parseUnitOperation loop b] in P.
    first [rewrite P | rewrite (bind_Throw _ _ _ P)]; reflexivity. }
  assert (S : parseSection b (mkState truncatedTokens 1) = Throw).
  { unfold parseSection, bind, check, checkNext, getCurrentLine, advance,
      consumeNewlines, ret.
    cbn -[loop statementsBody asStatement parseUnitOperation b].
    cbn -[loop statementsBody asStatement parseUnitOperation b] in L.
    first [rewrite L | rewrite (bind_Throw _ _ _ L)]; reflexivity. }
  unfold parse, parseM.
  assert (E : skipWhitespaceAndComments (mkState truncatedTokens 1)
              = Return tt (mkState truncatedTokens 1)) by reflexivity.
  rewrite (bind_Return _ _ _ _ _ E). rewrite bind_Throw; [reflexivity|].
  apply loop_Throw. unfold sectionsBody at 1.
  assert (A : isAtEnd (mkState truncatedTokens 1)
              = Return false (mkState truncatedTokens 1)) by reflexivity.
  rewrite (bind_Return _ _ _ _ _ A). cbv iota.
  rewrite (bind_Throw _ _ _ S). reflexivity.
Qed.

(** X9: [parse] throws only when the tokens do not end with the
    end-of-input token.  On tokens that end with it, as those of the
    lexer do, [parse] does not throw, whatever the budget: the cursor
    never passes that token.  On [truncatedTokens], the tokens of
    UNIT FLASH UID= without it, [parse] throws: [parseIdentifier] reads
    the line of a token past the last one. *)
Theorem parse_throws_only_without_eof (budget : nat) :
  (forall tokens, eofLast tokens -> parse budget tokens <> Throw)
  /\ ~ eofLast truncatedTokens
  /\ parse (S budget) truncatedTokens = Throw.
Proof.
  split; [intros tokens; apply parse_does_not_throw|].
  split; [|apply truncated_throws].
  intros (pre & eof & E & T).
  assert (L : List.length pre = 3).
  { apply (f_equal (@List.length _)) in E. rewrite length_app in E.
    simpl in E. lia. }
  destruct pre as [|a [|b [|c [|d pre]]]]; try discriminate L.
  inversion E; subst. discriminate T.
Qed.

End Truncated.

(* ------------------------------------------------------------------ *)
(** ** The symbol table: what a built table holds *)
(* ------------------------------------------------------------------ *)

Section SymbolInvariants.
Import SymbolTable SymbolTableFacts.
Context {cm : CaseMapping}.
Variable documentText : jsstring.

Lemma existsb_eqb_In k l : existsb (Js.eqb k) l = true <-> In k l.
Proof.
  rewrite existsb_exists. split.
  - intros (x & I & E). apply jsstring_eqb_eq in E. subst. exact I.
  - intros I. exists k. split; [exact I | apply jsstring_eqb_refl].
Qed.

Lemma runAll_distinct cs : forall m,
  map fst (runAll cs m) = map fst m ++ distinct (map fst m) (map keyOf cs).
Proof.
  induction cs as [|c cs IH]; intros m; simpl.
  - rewrite app_nil_r. reflexivity.
  - rewrite IH. destruct (run_spec c m) as (A & P & _).
    destruct (get (keyOf c) m) as [sym|] eqn:G.
    + destruct (P sym eq_refl) as (sym' & _ & K & _). rewrite K.
      replace (existsb (Js.eqb (keyOf c)) (map fst m)) with true; [reflexivity|].
      symmetry. apply existsb_eqb_In.
      destruct (in_dec (list_eq_dec N.eq_dec) (keyOf c) (map fst m)) as [I|I]; [exact I|].
      apply get_None_keys in I. congruence.
    + destruct (A eq_refl) as (sym' & _ & K & _). rewrite K.
      replace (existsb (Js.eqb (keyOf c)) (map fst m)) with false.
      * rewrite <- app_assoc. reflexivity.
      * symmetry. apply not_true_is_false. intros E. apply existsb_eqb_In in E.
        apply get_None_keys in G. contradiction.
Qed.

Lemma settled_absent c m sym :
  get (keyOf c) m = None -> get (keyOf c) (run c m) = Some sym -> settled sym.
Proof.
  intros H G. pose proof H as Hh. apply has_false in Hh.
  destruct c; simpl in *;
    unfold addComponent, addStream, addStreamReference, addUnit in G;
    rewrite Hh in G; simpl in G; rewrite set_absent in G by exact H;
    rewrite get_snoc_same in G by exact H; inversion G; subst sym; clear G;
    unfold settled; simpl.
  - eexists. eexists. split; [reflexivity|]. split; reflexivity.
  - eauto.
  - eauto.
  - split; [eauto|]. eexists. eexists. split; reflexivity.
Qed.

Lemma settled_present c m sym sym' :
  get (keyOf c) m = Some sym -> settled sym ->
  get (keyOf c) (run c m) = Some sym' -> settled sym'.
Proof.
  intros H S G. assert (Hh : has (keyOf c) m = true) by (apply has_get; eauto).
  destruct c; simpl in *;
    unfold addComponent, addStream, addStreamReference, addUnit in G;
    rewrite Hh in G; simpl in G.
  - congruence.
  - rewrite get_update_same, H in G. simpl in G. inversion G; subst sym'; clear G.
    destruct (kind_eqb (kind sym) STREAM) eqn:K; [|exact S].
    apply kind_eqb_eq in K. unfold settled in *.
    destruct (context_eqb ctx definition), lineText; simpl; rewrite K in *;
      destruct S as (r & rest & -> & L); simpl; eauto.
  - rewrite get_update_same, H in G. simpl in G. inversion G; subst sym'; clear G.
    unfold settled in *. simpl. destruct (kind sym).
    + destruct S as (r & rest & -> & L). simpl. eauto.
    + destruct S as ((rest & ->) & M). split; [simpl; eauto | exact M].
    + exact S.
    + exact S.
  - congruence.
Qed.

Lemma run_settled c m :
  (forall k sym, get k m = Some sym -> settled sym) ->
  forall k sym, get k (run c m) = Some sym -> settled sym.
Proof.
  intros H k sym G. destruct (run_spec c m) as (_ & _ & O & _).
  destruct (list_eq_dec N.eq_dec k (keyOf c)) as [->|Hk].
  - destruct (get (keyOf c) m) as [sym0|] eqn:G0.
    + eapply settled_present; eauto.
    + eapply settled_absent; eauto.
  - rewrite (O k Hk) in G. eauto.
Qed.

Lemma runAll_settled cs : forall m,
  (forall k sym, get k m = Some sym -> settled sym) ->
  forall k sym, get k (runAll cs m) = Some sym -> settled sym.
Proof.
  induction cs as [|c cs IH]; intros m H; [exact H|].
  simpl. apply IH. apply run_settled. exact H.
Qed.

Lemma build_settled ast sym :
  In sym (getAllSymbols (build documentText ast)) -> settled sym.
Proof.
  intros I. unfold getAllSymbols, values in I. apply in_map_iff in I.
  destruct I as ([k s] & <- & I). simpl.
  destruct (build_wellFormed documentText ast) as [ND _].
  apply In_get in I; [|exact ND]. rewrite build_calls in I.
  eapply runAll_settled; [|exact I]. intros k0 sym0 K. discriminate K.
Qed.

Lemma build_get_settled ast k sym :
  get k (build documentText ast) = Some sym -> settled sym.
Proof.
  intros G. apply (build_settled ast). unfold getAllSymbols, values.
  apply in_map_iff. exists (k, sym). split; [reflexivity|].
  destruct (build_wellFormed documentText ast) as [ND _].
  apply In_get; assumption.
Qed.

Lemma distinct_In ks : forall seen k,
  In k (distinct seen ks) <-> In k ks /\ ~ In k seen.
Proof.
  induction ks as [|k0 ks IH]; intros seen k; simpl.
  - tauto.
  - destruct (existsb (Js.eqb k0) seen) eqn:E.
    + apply existsb_eqb_In in E. rewrite IH. split.
      * intros [A B]. auto.
      * intros [[A|A] B]; [subst; contradiction | auto].
    + assert (N : ~ In k0 seen).
      { intros I. apply existsb_eqb_In in I. congruence. }
      simpl. rewrite IH, in_app_iff. simpl. split.
      * intros [A|[A B]]; [subst; auto | tauto].
      * intros [[A|A] B]; [auto|].
        destruct (list_eq_dec N.eq_dec k0 k) as [D|D]; [auto|].
        right. split; [exact A|]. intros [F|[F|[]]]; auto.
Qed.

Lemma callsOf_names ast K :
  (exists c, In c (callsOf documentText ast) /\ keyOf c = K)
  <-> exists n, In n (namesOf ast) /\ toUpperCase n = K.
Proof.
  unfold namesOf. split.
  - intros (c & I & <-). apply callsOf_In in I.
    destruct I as (section & stmt & H1 & H2 & H3).
    destruct (sectionType section) eqn:T, stmt as [u|cd|sd|td|pr]; simpl in H3;
      try contradiction.
    + apply in_map_iff in H3. destruct H3 as (comp & <- & H3).
      exists (identifier comp). split; [|reflexivity].
      apply in_app_iff. left. apply in_map, componentsOf_In. exists section, cd. auto.
    + destruct H3 as [<-|[]]. exists (name (sd_streamName sd)). split; [|reflexivity].
      apply in_app_iff. right. apply in_app_iff. left.
      apply (in_map (fun sd => name (sd_streamName sd))), streamStatementsOf_In. eauto.
    + assert (U : In u (unitOperationsOf ast)) by (apply unitOperationsOf_In; eauto).
      assert (W : forall n, In n (namesOfUnit u) ->
                  In n (map identifier (componentsOf ast)
                        ++ map (fun sd => name (sd_streamName sd)) (streamStatementsOf ast)
                        ++ flat_map namesOfUnit (unitOperationsOf ast))).
      { intros n I. apply in_app_iff. right. apply in_app_iff. right.
        apply in_flat_map. eauto. }
      unfold callsOfUnitOperation in H3. rewrite !in_app_iff in H3.
      unfold namesOfUnit in W.
      destruct H3 as [H3|[H3|H3]].
      * destruct (uid u) as [i|] eqn:E; [|contradiction]. destruct H3 as [<-|[]].
        exists (name i). split; [|reflexivity]. apply W. simpl. auto.
      * apply in_map_iff in H3. destruct H3 as (f & <- & F).
        exists (name (streamName f)). split; [|reflexivity]. apply W.
        rewrite !in_app_iff. right. left.
        apply (in_map (fun f => name (streamName f))), F.
      * apply in_map_iff in H3. destruct H3 as (f & <- & F).
        exists (name (streamName f)). split; [|reflexivity]. apply W.
        rewrite !in_app_iff. right. right.
        apply (in_map (fun f => name (streamName f))), F.
  - intros (n & I & <-). rewrite !in_app_iff in I. destruct I as [I|[I|I]].
    + apply in_map_iff in I. destruct I as (comp & <- & I).
      exists (AddComponent comp). split; [|reflexivity].
      apply componentsOf_In in I. destruct I as (section & c & A & B & C & D).
      apply callsOf_In. exists section, (ComponentData c). rewrite B. simpl.
      repeat split; [exact A | exact C |]. apply in_map, D.
    + apply in_map_iff in I. destruct I as (sd & <- & I).
      eexists. split; [apply callsOf_definition, I | reflexivity].
    + apply in_flat_map in I. destruct I as (u & U & I).
      apply unitOperationsOf_In in U. destruct U as (section & A & B & C).
      assert (W : forall c, In c (callsOfUnitOperation u) ->
                            In c (callsOf documentText ast)).
      { intros c Hc. apply callsOf_In. exists section, (UnitOperation u).
        rewrite B. simpl. auto. }
      unfold namesOfUnit in I. unfold callsOfUnitOperation in W.
      rewrite !in_app_iff in I. destruct I as [I|[I|I]].
      * destruct (uid u) as [i|]; [|contradiction]. destruct I as [<-|[]].
        eexists. split; [apply W; simpl; left; reflexivity | reflexivity].
      * apply in_map_iff in I. destruct I as (f & <- & F).
        exists (AddStreamReference (name (streamName f)) (ref_startLine f) feed).
        split; [|reflexivity]. apply W. rewrite !in_app_iff. right. left.
        apply (in_map (fun f => AddStreamReference (name (streamName f)) (ref_startLine f) feed)), F.
      * apply in_map_iff in I. destruct I as (f & <- & F).
        exists (AddStreamReference (name (streamName f)) (ref_startLine f) product).
        split; [|reflexivity]. apply W. rewrite !in_app_iff. right. right.
        apply (in_map (fun f => AddStreamReference (name (streamName f)) (ref_startLine f) product)), F.
Qed.

Lemma build_keys ast K :
  In K (map fst (build documentText ast))
  <-> exists n, In n (namesOf ast) /\ toUpperCase n = K.
Proof.
  rewrite <- callsOf_names, build_calls, runAll_distinct. simpl.
  rewrite distinct_In, in_map_iff. split.
  - intros [(c & A & B) _]. eauto.
  - intros (c & A & B). split; [eauto | auto].
Qed.

Lemma count_by_kind (l : list Symbol) :
  Forall (fun sym => kind sym <> PARAMETER) l ->
  List.length (filter (fun s => kind_eqb (kind s) STREAM) l)
  + List.length (filter (fun s => kind_eqb (kind s) UNIT) l)
  + List.length (filter (fun s => kind_eqb (kind s) COMPONENT) l)
  = List.length l.
Proof.
  induction 1 as [|sym l H _ IH]; [reflexivity|].
  simpl. destruct (kind sym); simpl; try lia. congruence.
Qed.

(** X10: what a symbol of a built table holds, by its kind.  A stream
    symbol has at least one reference, and its first reference is on
    the line the symbol gives as the place of its definition; a unit
    symbol has a definition reference on that line first, and its
    metadata has the unit type; the metadata of a component symbol has
    the component name, whose upper-case form is the name of the symbol;
    no symbol has the kind PARAMETER. *)
Theorem build_symbols_settled (ast : ProgramNode) :
  Forall settled (getAllSymbols (build documentText ast)).
Proof. apply Forall_forall. intros sym. apply build_settled. Qed.

(** X11: the statistics count every symbol once.  On a built table the
    numbers of streams, units and components of [getStats] add up to the
    number of symbols of [getAllSymbols], and [getSymbolsByKind] has no
    symbol of the kind PARAMETER. *)
Theorem getStats_partition (ast : ProgramNode) :
  let m := build documentText ast in
  let '(streams, units, components) := getStats m in
  streams + units + components = List.length (getAllSymbols m)
  /\ getSymbolsByKind m PARAMETER = [].
Proof.
  intros m. unfold getStats, getSymbolsByKind, getAllSymbols.
  assert (F : Forall (fun sym => kind sym <> PARAMETER) (values m)).
  { apply Forall_forall. intros sym I. apply build_settled in I.
    unfold settled in I. intros K. rewrite K in I. exact I. }
  split; [apply count_by_kind, F|].
  induction F as [|sym l H _ IH]; [reflexivity|].
  simpl. destruct (kind sym); try exact IH. congruence.
Qed.

(** X12: on a built table [getUndefinedSymbols] is the list of the
    stream symbols, in the order of [getSymbolsByKind], without those
    that have a reference of context definition: the test on the number
    of references of a symbol selects nothing, a stream symbol of a
    built table having a reference. *)
Theorem getUndefinedSymbols_streams (ast : ProgramNode) :
  let m := build documentText ast in
  getUndefinedSymbols m
  = filter (fun sym => negb (hasDefinition sym)) (getSymbolsByKind m STREAM).
Proof.
  intros m. unfold getUndefinedSymbols, getSymbolsByKind.
  assert (F : Forall settled (values m)).
  { apply Forall_forall. intros sym. apply build_settled. }
  induction F as [|sym l H _ IH]; [reflexivity|].
  simpl. destruct (kind_eqb (kind sym) STREAM) eqn:K; simpl; [|exact IH].
  apply kind_eqb_eq in K. unfold settled in H. rewrite K in H.
  destruct H as (r & rest & -> & _). simpl. rewrite andb_true_r.
  rewrite IH. reflexivity.
Qed.

(** X13: the order of a built table.  The keys of a built table, in
    the order in which [getAllSymbols] lists its symbols, are the
    upper-case names of the calls the build makes to [addComponent],
    [addStream], [addStreamReference] and [addUnit], each at its first
    occurrence. *)
Theorem build_keys_in_order (ast : ProgramNode) :
  map fst (build documentText ast)
  = distinct [] (map keyOf (callsOf documentText ast)).
Proof. rewrite build_calls. apply runAll_distinct. Qed.

(** X14: the names a built table defines.  [isDefined] holds of a name
    on the table built from a tree exactly when its upper-case form is
    that of a name of the tree that the build visits: a component of a
    component statement, the stream of a stream statement, or the uid, a
    feed or a product of a unit operation, each in a section of its
    type. *)
Theorem isDefined_names_of_tree (ast : ProgramNode) (n : jsstring) :
  isDefined (build documentText ast) n = true
  <-> exists n', In n' (namesOf ast) /\ toUpperCase n' = toUpperCase n.
Proof.
  rewrite <- build_keys. unfold isDefined. rewrite has_get. split.
  - intros [sym G].
    destruct (in_dec (list_eq_dec N.eq_dec) (toUpperCase n)
                (map fst (build documentText ast))) as [I|I]; [exact I|].
    apply get_None_keys in I. congruence.
  - intros I. destruct (get (toUpperCase n) (build documentText ast)) eqn:G; [eauto|].
    apply get_None_keys in G. contradiction.
Qed.

End SymbolInvariants.

(* ------------------------------------------------------------------ *)
(** ** The hover provider and the server *)
(* ------------------------------------------------------------------ *)

Section HoverFacts.
Import SymbolTable SymbolTableFacts HoverProvider.
Context {cm : CaseMapping} {fh : FloatHost}.
Variable documentText : jsstring.

(** X15: [provideHover] answers exactly for the names the table
    defines.  On a built table, when [getSymbol] finds a symbol for a
    word, [isDefined] holds of the word and [provideHover] returns the
    hover of that symbol: the lines of its kind, joined by line feeds;
    when it finds none, [isDefined] does not hold and [provideHover]
    returns [null].  The upper-case form of a word has the hover of the
    word. *)
Theorem provideHover_defined (ast : ProgramNode) (word : jsstring) :
  let m := build documentText ast in
  match getSymbol m word with
  | Some symbol =>
      isDefined m word = true
      /\ provideHover m word = Some (join (hoverLines symbol))
  | None => isDefined m word = false /\ provideHover m word = None
  end
  /\ provideHover m (toUpperCase word) = provideHover m word.
Proof.
  intros m.
  assert (U : forall w, getSymbol m (toUpperCase w) = getSymbol m w).
  { intros w. unfold getSymbol. rewrite toUpperCase_idempotent. reflexivity. }
  assert (P : forall w, provideHover m w
                        = match getSymbol m w with
                          | Some symbol => Some (join (hoverLines symbol))
                          | None => None
                          end).
  { intros w. unfold provideHover, createStreamHover, createComponentHover,
      createUnitOperationHover, hoverLines.
    rewrite !U. destruct (getSymbol m w) as [symbol|] eqn:G; [|reflexivity].
    unfold getSymbol in G. apply build_get_settled in G.
    unfold settled in G. destruct (kind symbol); try reflexivity. contradiction. }
  split.
  - rewrite P. unfold isDefined, has. unfold getSymbol.
    destruct (get (toUpperCase word) m); auto.
  - rewrite !P, U. reflexivity.
Qed.

End HoverFacts.

Section ServerProperties.
Import Server ServerFacts LexerFacts.
Context {cm : CaseMapping}.

Lemma KEYWORDS_get_known k ty : KEYWORDS_get k = Some ty -> ty <> UNKNOWN.
Proof.
  unfold KEYWORDS_get. destruct (find _ _) as [p|] eqn:F; [|discriminate].
  intros E. inversion E as [E']. clear E E'. apply find_some in F.
  destruct F as [I _]. revert p I.
  apply (proj1 (Forall_forall (fun p => snd p <> UNKNOWN) KEYWORDS_table)).
  unfold KEYWORDS_table.
  repeat (apply Forall_cons; [simpl; discriminate|]).
  apply Forall_nil.
Qed.

Lemma unknown_text v :
  typeOfText v = UNKNOWN -> isLexeme v = true ->
  exists c, v = [c] /\ Lexer.unrecognized c = true.
Proof.
  destruct v as [|c rest]; [discriminate|].
  unfold typeOfText, isLexeme, Lexer.unrecognized.
  destruct (c =? LF)%N eqn:E0; [discriminate|].
  destruct ((c =? ch "$")%N || (c =? ch "%")%N) eqn:E1; [discriminate|].
  apply orb_false_elim in E1. destruct E1 as [E1 E1'].
  destruct (c =? ch "&")%N eqn:E2; [discriminate|].
  destruct (c =? ch "=")%N eqn:E3; [discriminate|].
  destruct (c =? ch ",")%N eqn:E4; [discriminate|].
  destruct (c =? ch "/")%N eqn:E5; [discriminate|].
  destruct (c =? ch "+")%N eqn:E6; [discriminate|].
  destruct (c =? ch "-")%N eqn:E7; [destruct rest; discriminate|].
  destruct (c =? ch "*")%N eqn:E8; [discriminate|].
  destruct (c =? ch "(")%N eqn:E9; [discriminate|].
  destruct (c =? ch ")")%N eqn:E10; [discriminate|].
  destruct (Lexer.isDigit c) eqn:E11; [discriminate|].
  destruct (Lexer.isAlpha c) eqn:E12.
  { destruct (KEYWORDS_get _) as [ty|] eqn:K; [|discriminate].
    intros ->. apply KEYWORDS_get_known in K. congruence. }
  destruct ((c =? DQUOTE)%N || (c =? SQUOTE)%N) eqn:E13; [discriminate|].
  apply orb_false_elim in E13. destruct E13 as [E13 E13'].
  intros _ H. apply andb_prop in H. destruct H as [W H].
  apply negb_true_iff in W.
  destruct rest; [|discriminate]. exists c. split; [reflexivity|].
  rewrite W, E0, E1, E1', E2, E3, E4, E5, E6, E7, E8, E9, E10, E11, E12, E13, E13'.
  reflexivity.
Qed.

Lemma unknown_diagnostics text ts :
  Forall (fun t => (type t = typeOfText (value t)
                    /\ length t = List.length (value t)
                    /\ (value t = [] \/ isLexeme (value t) = true))
                   /\ placed text t) ts ->
  Forall (warnsOf text)
         (flat_map (fun token =>
                      if tt_eqb (type token) UNKNOWN
                      then [unknownTokenDiagnostic token] else []) ts).
Proof.
  induction 1 as [|t ts [(T & L & V) (before & after & E & Pl & Pc)] _ IH];
    [constructor|].
  simpl. destruct (tt_eqb (type t) UNKNOWN) eqn:U; [|exact IH].
  apply tt_eqb_eq in U. constructor; [|exact IH].
  rewrite U in T. symmetry in T.
  destruct V as [V|V]; [rewrite V in T; discriminate|].
  destruct (unknown_text _ T V) as (c & Hv & Hc).
  exists before, c, after. rewrite Hv in E, L. simpl in E, L.
  split; [exact E|]. split; [exact Hc|].
  unfold unknownTokenDiagnostic, rangeAfter. rewrite Hv, L, Pl, Pc.
  unfold lineAfter, columnAfter. f_equal. f_equal; f_equal; lia.
Qed.

(** X16: what [validateDocument] sends.  When it returns, every
    diagnostic is a warning of the source proii-lsp that marks one
    character of the text which the lexer does not recognize: its
    message is Unknown token: and that character, and its range is
    that character, at the zero-based line and character where it
    stands.  No diagnostic is a parse error: the parser returned a tree,
    which is stored for the document, and [parseDocument] returns that
    tree.  When it does not return, [parseDocument] does not either. *)
Theorem validateDocument_warns_only (errorText : jsstring) (budget : nat)
    (text : jsstring) (stored : option ProgramNode) :
  match validateDocument errorText budget text stored with
  | Done (diagnostics, stored') =>
      Forall (warnsOf text) diagnostics
      /\ exists ast s,
           Parser.parse budget (Lexer.tokenize text) = Parser.Return ast s
           /\ stored' = Some ast
           /\ parseDocument budget text stored = Done (Some ast, Some ast)
  | OutOfBudget =>
      parseDocument budget text stored = OutOfBudget
  end.
Proof.
  unfold validateDocument, parseDocument.
  pose proof (parse_does_not_throw budget (Lexer.tokenize text)
                (tokenize_eofLast text)) as P.
  destruct (Parser.parse budget (Lexer.tokenize text)) as [ast s| |];
    [|congruence|reflexivity].
  split; [|eauto].
  apply unknown_diagnostics.
  pose proof (Located_types _ _ _ _ (tokenize_Located text)) as T.
  destruct (Located_placed _ _ _ _ (tokenize_Located text) [] eq_refl eq_refl)
    as [Pl _].
  simpl in Pl. revert T Pl. generalize (Lexer.tokenize text).
  induction l as [|t l IH]; intros T Pl; [constructor|].
  inversion T; inversion Pl; subst. constructor; auto.
Qed.

(** X17: [validateDocument] returns on a document without a UNIT
    OPERATIONS section.  When no token of the text is the word UNIT, it
    sends its diagnostics and stores a tree, on a budget above the
    number of tokens. *)
Theorem validateDocument_ends_without_unit_section (errorText : jsstring)
    (budget : nat) (text : jsstring) (stored : option ProgramNode) :
  TerminationFacts.unitless (Lexer.tokenize text) = true ->
  List.length (Lexer.tokenize text) < budget ->
  exists diagnostics ast,
    validateDocument errorText budget text stored = Done (diagnostics, Some ast).
Proof.
  intros U L. unfold validateDocument.
  destruct (parse_ends_without_units budget (Lexer.tokenize text) U L) as [_ R].
  destruct (R (tokenize_eofLast text)) as (ast & s' & E).
  rewrite E. eauto.
Qed.

End ServerProperties.

(** X17, an instance: [flashText], a unit statement under no header. *)
Lemma validateDocument_ends_without_unit_section_witness :
  TerminationFacts.unitless (Lexer.tokenize (cm := basicLatin) flashText) = true
  /\ exists diagnostics ast,
       Server.validateDocument (cm := basicLatin) [] 20 flashText None
       = Server.Done (diagnostics, Some ast).
Proof.
  split; [vm_compute; reflexivity|].
  apply (validateDocument_ends_without_unit_section (cm := basicLatin) [] 20
           flashText None);
    [vm_compute; reflexivity | vm_compute; lia].
Defined.

(* ------------------------------------------------------------------ *)
(** ** The FLASH scenario *)
(* ------------------------------------------------------------------ *)

Section FlashScenario.
Import Parser ParserFacts SymbolTable.
Context {cm : CaseMapping}.

Lemma loop_Exhausted {A} (body : A -> M (Ctl A)) a s k :
  body a s = Exhausted -> loop k body a s = Exhausted.
Proof. intros E. destruct k; [reflexivity|]. simpl. rewrite E. reflexivity. Qed.

Lemma unit_statements_inert budget t rest cl acc :
  inert (type t) = true ->
  forall k,
    loop k (statementsBody (asStatement UnitOperation (parseUnitOperation budget)))
         acc (mkState (t :: rest) cl)
    = Exhausted.
Proof.
  intros H. apply loop_stuck.
  destruct t as [ty v ln col len]. simpl in H.
  destruct ty; try discriminate H; reflexivity.
Qed.

(** [parse] on a UNIT OPERATIONS header is exhausted when the statement
    loop of the section is. *)
Lemma parse_unit_section_exhausted budget u rest :
  type u = UNIT_OPERATIONS ->
  loop budget (statementsBody (asStatement UnitOperation (parseUnitOperation budget)))
       [] (consumeNewlinesS (mkState rest (line u)))
  = Exhausted ->
  parse budget (u :: rest) = Exhausted.
Proof.
  intros Hu K. unfold parse, parseM.
  destruct u as [ty v ln col len]. simpl in Hu. subst ty. simpl line in K.
  assert (E : skipWhitespaceAndComments
                (mkState (mkToken UNIT_OPERATIONS v ln col len :: rest) 1)
              = Return tt (mkState (mkToken UNIT_OPERATIONS v ln col len :: rest) 1))
    by reflexivity.
  rewrite (bind_Return _ _ _ _ _ E). apply bind_Exhausted.
  destruct budget as [|n]; [reflexivity|].
  apply loop_Exhausted. unfold sectionsBody.
  assert (A : isAtEnd (mkState (mkToken UNIT_OPERATIONS v ln col len :: rest) 1)
              = Return false (mkState (mkToken UNIT_OPERATIONS v ln col len :: rest) 1))
    by reflexivity.
  rewrite (bind_Return _ _ _ _ _ A). cbv iota.
  apply bind_Exhausted.
  unfold parseSection, bind, check, checkNext, getCurrentLine, advance,
    consumeNewlines, ret.
  cbn -[loop statementsBody asStatement parseUnitOperation consumeNewlinesS].
  rewrite K. reflexivity.
Qed.

End FlashScenario.

Section FlashScenarioDiverges.
Import Parser ParserFacts SymbolTable.

Lemma flash_under_unit_hangs :
  forall budget,
    pipeline (cm := basicLatin) budget flashUnderUnitText = Exhausted.
Proof.
  intros budget. unfold pipeline.
  set (toks := Lexer.tokenize flashUnderUnitText). vm_compute in toks. subst toks.
  rewrite (parse_unit_section_exhausted (cm := basicLatin)); [reflexivity..|].
  match goal with
  | |- loop _ _ _ ?s = _ => let s' := eval vm_compute in s in change s with s'
  end.
  apply loop_Exhausted.
  match goal with
  | |- statementsBody _ _ (mkState (?kw :: ?tl) ?cl) = _ =>
      assert (U : forall k vars,
                 loop k (unitBody (cm := basicLatin) budget) vars
                      (mkState tl (line kw)) = Exhausted)
  end.
  { intros k [[[u ps] fs] prs]. revert k. eapply loop_step_Exhausted.
    - vm_compute. reflexivity.
    - intros k. apply unit_loop_stray. reflexivity. }
  unfold statementsBody, asStatement, parseUnitOperation, bind, isAtEnd,
    isNextSection, check, checkNext, getCurrentLine, currentToken, advance, ret.
  cbn -[loop unitBody]. cbn -[loop unitBody] in U.
  rewrite U. reflexivity.
Qed.

Lemma flash_plain_uid_hangs :
  forall budget,
    pipeline (cm := basicLatin) budget flashPlainUidText = Exhausted.
Proof.
  intros budget. unfold pipeline.
  set (toks := Lexer.tokenize flashPlainUidText). vm_compute in toks. subst toks.
  rewrite (parse_unit_section_exhausted (cm := basicLatin)); [reflexivity..|].
  match goal with
  | |- loop _ _ _ ?s = _ => let s' := eval vm_compute in s in change s with s'
  end.
  destruct budget as [|[|b]]; [reflexivity | vm_compute; reflexivity |].
  generalize (S (S b)) at 1. eapply loop_step_Exhausted.
  - vm_compute. reflexivity.
  - intros k. apply unit_statements_inert. reflexivity.
Qed.

(** C4 (the code at the failing input): the FLASH scenario yields none
    of the symbols of the claim, under no header.  The lexer makes of
    F-100 the identifier F and the number -100, and of the stream name
    FEED the keyword FEED.  As it stands, without a header, the three
    lines are skipped and the table is empty.  Under the header UNIT
    OPERATIONS, as the tests write it, the pipeline is exhausted on
    every budget, the statement loop standing on the word OPERATIONS.
    Under the header UNIT it is exhausted too: [parseUnitOperation] takes
    F for the uid and its loop stands on the number -100.  With the uid
    F100 it is exhausted again: the unit statement ends with its line,
    and the statement loop stands on the FEED that starts the next line.
    With the statement on one line the pipeline returns: the unit has
    the uid F100, no feed (FEED is no identifier) and the one product
    VAPOR, with LIQUID as its stream type; the table holds the unit
    F100 and the stream VAPOR, which is the only undefined symbol. *)
Theorem flash_scenario_not_resolved :
  map type (Lexer.tokenize (cm := basicLatin) flashText)
  = [ FLASH; UID; EQUALS; IDENTIFIER; NUMBER; NEWLINE;
      FEED; FEED; NEWLINE;
      PROD; IDENTIFIER; COMMA; IDENTIFIER; NEWLINE; EOF ]
  /\ (forall budget,
        pipeline (cm := basicLatin) (4 + budget) flashText
        = Return [] (atEof 4 1 3))
  /\ (forall budget,
        pipeline (cm := basicLatin) budget flashUnderHeaderText = Exhausted)
  /\ (forall budget,
        pipeline (cm := basicLatin) budget flashUnderUnitText = Exhausted)
  /\ (forall budget,
        pipeline (cm := basicLatin) budget flashPlainUidText = Exhausted)
  /\ exists ast s,
       (forall budget,
           parse (cm := basicLatin) (5 + budget)
                 (Lexer.tokenize (cm := basicLatin) flashOneLineText)
           = Return ast s)
       /\ map (fun u => (unit_statementType u, option_map name (uid u),
                         map namedAs (feedStreams u),
                         map namedAs (productStreams u)))
              (unitOperationsOf ast)
          = [ (str "FLASH", Some (str "F100"), [],
               [ (str "VAPOR", Some (str "LIQUID")) ]) ]
       /\ (forall budget,
              pipeline (cm := basicLatin) (5 + budget) flashOneLineText
              = Return (build (cm := basicLatin) flashOneLineText ast) s)
       /\ map (fun sym => (sym_name sym, kind sym, references sym))
              (getAllSymbols (build (cm := basicLatin) flashOneLineText ast))
          = [ (str "F100", UNIT, [mkReference 2 definition]);
              (str "VAPOR", STREAM, [mkReference 2 product]) ]
       /\ map sym_name
              (getUndefinedSymbols (build (cm := basicLatin) flashOneLineText ast))
          = [ str "VAPOR" ].
Proof.
  split; [vm_compute; reflexivity|].
  split; [apply flash_scenario_yields_no_symbol|].
  split; [exact flash_scenario_under_header_hangs|].
  split; [exact flash_under_unit_hangs|].
  split; [exact flash_plain_uid_hangs|].
  destruct (parse (cm := basicLatin) 5
              (Lexer.tokenize (cm := basicLatin) flashOneLineText))
    as [ast s| |] eqn:E; try (vm_compute in E; discriminate E).
  assert (P : forall budget,
             parse (cm := basicLatin) (5 + budget)
                   (Lexer.tokenize (cm := basicLatin) flashOneLineText)
             = Return ast s).
  { intros budget. apply (parse_more (cm := basicLatin)) with (b := 5); [lia | exact E]. }
  exists ast, s. split; [exact P|].
  split; [vm_compute in E; inversion E; subst; vm_compute; reflexivity|].
  split; [intros budget; unfold pipeline; rewrite P; reflexivity|].
  vm_compute in E. inversion E; subst. split; vm_compute; reflexivity.
Qed.

End FlashScenarioDiverges.
